(** * The Equity contract-language parser (compiler/parse.go)

    A shallow embedding of the scan layer and of the recursive-descent
    parser, followed by the properties of the lexer, of the expression
    parser and of the diagnostics that the design document states, and
    by further properties of the scanners and of the parser: what each
    scanner accepts and returns, round trips of the literals, progress
    and termination, and the edges of the entry point.

    Conventions of the embedding.
    - The source buffer ([[]byte]) is a list of bytes; offsets are [nat].
    - A scanner of the source returns a new offset, with a negative value
      meaning that nothing matched; here that is [None].
    - A Go panic carrying a [parserErr] is the outcome [Panic]; functions
      of the parser proper, which recurse without a structural bound,
      take a [fuel] argument and answer [OutOfFuel] when it is exhausted.
    - The loops of the scanners run over the bytes that remain after the
      current offset; the loop index of the source is the offset plus the
      number of bytes consumed so far. *)

From Stdlib Require Import String Ascii List ZArith Lia Bool Arith DecimalString.
Import ListNotations.

Local Open Scope string_scope.
Local Open Scope char_scope.
Local Open Scope list_scope.

Set Warnings "-register-all".

(** ** Bytes and the Go library functions the scanners call *)

Definition byte := ascii.
Definition buffer := list byte.

(** [[]byte(s)] and [string(b)]. *)
Definition bytesOf (s : string) : buffer := list_ascii_of_string s.
Definition stringOf (b : buffer) : string := string_of_list_ascii b.

Definition between (lo hi c : byte) : bool := (lo <=? c) && (c <=? hi).

(** [unicode.IsDigit(rune(c))] for a byte: below U+0100 it is the test
    ['0' <= r && r <= '9']. *)
Definition isDigit (c : byte) : bool := between "0" "9" c.

(** [unicode.IsSpace(rune(c))] for a byte: in Latin-1 the white space
    characters are tab, line feed, vertical tab, form feed, carriage
    return, space, U+0085 and U+00A0. *)
Definition isSpace (c : byte) : bool :=
  (c =? "009") || (c =? "010") || (c =? "011") || (c =? "012") ||
  (c =? "013") || (c =? " ") || (c =? "133") || (c =? "160").

Definition newline : byte := "010".
Definition dquote : byte := "034".

Definition isHexDigit (b : byte) : bool :=
  between "0" "9" b || between "a" "f" b || between "A" "F" b.

Definition isIDChar (c : byte) (initial : bool) : bool :=
  if between "a" "z" c then true
  else if between "A" "Z" c then true
  else if c =? "_" then true
  else if initial then false
  else isDigit c.

(** [bytes.HasPrefix]. *)
Fixpoint hasPrefix (l prefix : buffer) {struct prefix} : bool :=
  match prefix, l with
  | [], _ => true
  | p :: prefix', c :: l' => (c =? p) && hasPrefix l' prefix'
  | _ :: _, [] => false
  end.

(** The value of a decimal digit, and of a run of them read left to
    right. *)
Definition digitVal (c : byte) : Z := Z.of_nat (nat_of_ascii c) - 48.

Definition digitsVal (d : buffer) : Z :=
  fold_left (fun acc c => 10 * acc + digitVal c)%Z d 0%Z.

Definition minInt64 : Z := (- 2 ^ 63)%Z.
Definition maxInt64 : Z := (2 ^ 63 - 1)%Z.

(** [strconv.ParseInt(s, 10, 64)]: an optional sign, then at least one
    decimal digit and nothing else; a value outside the signed 64-bit
    range is an error.  [None] is a non-nil [err]. *)
Definition ParseInt (s : buffer) : option Z :=
  let '(neg, digits) :=
    match s with
    | "+" :: r => (false, r)
    | "-" :: r => (true, r)
    | _ => (false, s)
    end in
  match digits with
  | [] => None
  | _ :: _ =>
    if forallb isDigit digits then
      let un := digitsVal digits in
      if neg then
        if (un <=? 2 ^ 63)%Z then Some (- un)%Z else None
      else
        if (un <? 2 ^ 63)%Z then Some un else None
    else None
  end.

(** [fromHexChar] of encoding/hex. *)
Definition fromHexChar (c : byte) : option N :=
  if between "0" "9" c then Some (N_of_ascii c - 48)%N
  else if between "a" "f" c then Some (N_of_ascii c - 97 + 10)%N
  else if between "A" "F" c then Some (N_of_ascii c - 65 + 10)%N
  else None.

(** [hex.Decode]: two digits per byte; an odd length or a byte that is
    not a hexadecimal digit is an error. *)
Fixpoint hexDecode (src : buffer) : option buffer :=
  match src with
  | [] => Some []
  | [_] => None
  | a :: b :: src' =>
    match fromHexChar a, fromHexChar b with
    | Some hi, Some lo =>
      match hexDecode src' with
      | Some out => Some (ascii_of_N (hi * 16 + lo) :: out)
      | None => None
      end
    | _, _ => None
    end
  end.

(** ** Errors *)

(** [parserErr]; its field buf is [errBuf] here.  The arguments of the
    format are always strings in this file of the source.  The offset
    is an [int]; the parser writes -1 into it on one path, so it is kept
    as an integer. *)
Record parserErr := mkParserErr {
  errBuf : buffer;
  offset : Z;
  format : string;
  args : list string
}.

Definition parseErr (buf : buffer) (off : nat) (fmt : string)
  (a : list string) : parserErr :=
  mkParserErr buf (Z.of_nat off) fmt a.

Inductive result (A : Type) : Type :=
| Ok (a : A)
| Panic (e : parserErr)
| OutOfFuel.

Arguments Ok {A} a.
Arguments Panic {A} e.
Arguments OutOfFuel {A}.

Definition bind {A B} (m : result A) (k : A -> result B) : result B :=
  match m with
  | Ok a => k a
  | Panic e => Panic e
  | OutOfFuel => OutOfFuel
  end.

Declare Scope parser_scope.
Delimit Scope parser_scope with parser.
Notation "x <- m ;; k" := (bind m (fun x => k))
  (at level 61, m at next level, right associativity) : parser_scope.
Notation "' pat <- m ;; k" := (bind m (fun x => match x with pat => k end))
  (at level 61, pat pattern, m at next level, right associativity)
  : parser_scope.
Local Open Scope parser_scope.

(** ** The scan layer *)

(** The loop of [skipWsAndComments], over the bytes from the current
    offset on; the result is the number of bytes skipped. *)
Fixpoint skipLoop (inComment : bool) (l : buffer) : nat :=
  match l with
  | [] => 0
  | c :: l' =>
    if inComment then
      S (skipLoop (negb (c =? newline)) l')
    else
      match l' with
      | c' :: l'' =>
        if (c =? "/") && (c' =? "/") then S (S (skipLoop true l''))
        else if negb (isSpace c) then 0
        else S (skipLoop false l')
      | [] =>
        if negb (isSpace c) then 0 else S (skipLoop false l')
      end
  end.

Definition skipWsAndComments (buf : buffer) (off : nat) : nat :=
  off + skipLoop false (skipn off buf).

(** The bytes of the buffer from the first one that is neither white
    space nor comment. *)
Definition rest (buf : buffer) (off : nat) : buffer :=
  skipn (skipWsAndComments buf off) buf.

Definition scanTok (buf : buffer) (off : nat) (s : string) : option nat :=
  let off := skipWsAndComments buf off in
  let prefix := bytesOf s in
  if hasPrefix (skipn off buf) prefix then Some (off + length prefix)
  else None.

(** The loop of [scanIdentifier]: the number of identifier bytes. *)
Fixpoint idLoop (initial : bool) (l : buffer) : nat :=
  match l with
  | c :: l' => if isIDChar c initial then S (idLoop false l') else 0
  | [] => 0
  end.

Definition scanIdentifier (buf : buffer) (off : nat) : option (string * nat) :=
  let off := skipWsAndComments buf off in
  let n := idLoop true (skipn off buf) in
  if (n =? 0)%nat then None
  else Some (stringOf (firstn n (skipn off buf)), off + n).

Definition scanKeyword (buf : buffer) (off : nat) (keyword : string)
  : option nat :=
  match scanIdentifier buf off with
  | None => None
  | Some (id, newOffset) =>
    if negb (id =? keyword)%string then None else Some newOffset
  end.

(** The digit loop of [scanIntLiteral].  [None]: the loop returned from
    the function because a digit 0 is followed by x or X; [Some n]: the
    loop ended after n digits. *)
Fixpoint digitLoop (l : buffer) : option nat :=
  match l with
  | c :: l' =>
    if isDigit c then
      if (c =? "0") &&
         match l' with
         | c' :: _ => (c' =? "x") || (c' =? "X")
         | [] => false
         end
      then None
      else option_map S (digitLoop l')
    else Some 0
  | [] => Some 0
  end.

Definition scanIntLiteral (buf : buffer) (off : nat) : option (Z * nat) :=
  let start := skipWsAndComments buf off in
  let l := skipn start buf in
  let sign := match l with "-" :: _ => 1 | _ => 0 end in
  match digitLoop (skipn sign l) with
  | None => None
  | Some n =>
    if (0 <? n)%nat then
      match ParseInt (firstn (sign + n) l) with
      | Some v => Some (v, start + sign + n)
      | None => None
      end
    else None
  end.

Definition scanEscape (c : byte) : byte * bool :=
  if (c =? "'") || (c =? dquote) || (c =? "\") then (c, true)
  else if c =? "b" then ("008", true)
  else if c =? "f" then ("012", true)
  else if c =? "n" then ("010", true)
  else if c =? "r" then ("013", true)
  else if c =? "t" then ("009", true)
  else if c =? "v" then ("011", true)
  else (c, false).

(** The loop of [scanStrLiteral] over the bytes after the opening quote;
    [consumed] counts them.  [None]: the loop ran off the buffer. *)
Fixpoint strLoop (quote : byte) (l : buffer) (byteBuf : buffer)
  (consumed : nat) : option (buffer * nat) :=
  match l with
  | [] => None
  | c :: l' =>
    if c =? quote then Some (byteBuf, S consumed)
    else
      match l' with
      | c' :: l'' =>
        if (c =? "\") && snd (scanEscape c') then
          strLoop quote l'' (byteBuf ++ [fst (scanEscape c')]) (S (S consumed))
        else strLoop quote l' (byteBuf ++ [c]) (S consumed)
      | [] => strLoop quote l' (byteBuf ++ [c]) (S consumed)
      end
  end.

Definition scanStrLiteral (buf : buffer) (off : nat)
  : result (option (buffer * nat)) :=
  let off := skipWsAndComments buf off in
  match skipn off buf with
  | [] => Ok None
  | q :: l =>
    if negb ((q =? "'") || (q =? dquote)) then Ok None
    else
      match strLoop q l [] 1 with
      | Some (b, n) => Ok (Some (b, off + n))
      | None => Panic (parseErr buf off "unterminated string literal" [])
      end
  end.

(** The outcome of the digit-pair loop of [scanBytesLiteral]. *)
Inductive hexLoopOut := HexOdd | HexEnd (n : nat).

(** The loop of [scanBytesLiteral], over the bytes after the first two
    digits; it advances two bytes at a time.  [HexOdd] is the panic,
    [HexEnd n] the end of the loop after n bytes. *)
Fixpoint hexLoop (l : buffer) : hexLoopOut :=
  match l with
  | [] => HexEnd 0
  | [_] => HexOdd
  | a :: b :: l' =>
    if negb (isHexDigit a) then HexEnd 0
    else if negb (isHexDigit b) then HexOdd
    else
      match hexLoop l' with
      | HexOdd => HexOdd
      | HexEnd n => HexEnd (S (S n))
      end
  end.

Definition oddDigits : string := "odd number of digits in hex literal".

Definition scanBytesLiteral (buf : buffer) (off : nat)
  : result (option (buffer * nat)) :=
  let off := skipWsAndComments buf off in
  if (length buf <=? off + 4)%nat then Ok None
  else
    match skipn off buf with
    | c0 :: c1 :: c2 :: c3 :: l =>
      if negb (c0 =? "0") || (negb (c1 =? "x") && negb (c1 =? "X")) then Ok None
      else if negb (isHexDigit c2) || negb (isHexDigit c3) then Ok None
      else
        match hexLoop l with
        | HexOdd => Panic (parseErr buf off oddDigits [])
        | HexEnd n =>
          let i := off + 4 + n in
          match hexDecode (firstn (i - (off + 2)) (skipn (off + 2) buf)) with
          | Some decoded => Ok (Some (decoded, i))
          | None => Ok None
          end
        end
    | _ => Ok None
    end.

Definition scanBoolLiteral (buf : buffer) (off : nat) : option (bool * nat) :=
  let off := skipWsAndComments buf off in
  if (length buf <=? off)%nat then None
  else
    match scanKeyword buf off "true" with
    | None =>
      match scanKeyword buf off "false" with
      | None => None
      | Some newOffset => Some (false, newOffset)
      end
    | Some newOffset => Some (true, newOffset)
    end.

(** ** The syntax tree *)

(** The declarations of the syntax tree are in ast.go, which is not
    among the sources.  Each type below has the constructors and the
    fields that parse.go builds and reads, under the names parse.go
    uses; a field name that two types share is prefixed with the name
    of its type. *)

(** Modelled from the spec: [typeDesc] (ast.go); a type tag resolves to
    a descriptor with a printable name. *)
Definition typeDesc := string.

(** Modelled from the spec: [unaryOp] (ast.go); parse.go reads its
    token, the field [op]. *)
Record unaryOp := mkUnaryOp { unaryOp_op : string }.

(** Modelled from the spec: [binaryOp] (ast.go); parse.go reads its
    token, the field [op], and its precedence.  The design document
    says that operators carry a precedence level and a right-associative
    flag. *)
Record binaryOp := mkBinaryOp {
  binaryOp_op : string;
  precedence : Z;
  rightAssoc : bool
}.

(** Modelled from the spec: the expression variants (ast.go), as
    parse.go constructs them. *)
Inductive expression : Type :=
| binaryExpr (left right : expression) (op : binaryOp)
| unaryExpr (op : unaryOp) (expr : expression)
| callExpr (fn : expression) (args : list expression)
| varRef (name : string)
| integerLiteral (n : Z)
| bytesLiteral (b : buffer)
| booleanLiteral (b : bool)
| listExpr (elts : list expression).

(** Modelled from the spec: [Param] (ast.go), a name and a type.  The
    type is the empty descriptor where parse.go leaves it unset. *)
Record Param := mkParam { Param_Name : string; Param_Type : typeDesc }.

(** Modelled from the spec: the statement variants (ast.go), as
    parse.go constructs them.  The two bodies of [IfStatmentBody] are
    the two lists of [ifStatement]; an absent else branch and an absent
    initial value of a definition are the nil values parse.go leaves. *)
Inductive statement : Type :=
| ifStatement (condition : expression) (trueBody falseBody : list statement)
| defineStatement (variable : Param) (expr : option expression)
| assignStatement (variable : Param) (expr : expression)
| verifyStatement (expr : expression)
| lockStatement (lockedAmount lockedAsset program : expression)
| unlockStatement (unlockedAmount unlockedAsset : expression).

(** Modelled from the spec: [Clause] (ast.go). *)
Record Clause := mkClause {
  Clause_Name : string;
  Clause_Params : list Param;
  Clause_statements : list statement
}.

(** Modelled from the spec: [ValueInfo] (ast.go), the names of the
    locked amount and asset. *)
Record ValueInfo := mkValueInfo { Amount : string; Asset : string }.

(** Modelled from the spec: [Contract] (ast.go), with the fields
    parse.go sets. *)
Record Contract := mkContract {
  Contract_Name : string;
  Contract_Params : list Param;
  Contract_Clauses : list Clause;
  Contract_Value : ValueInfo
}.

(** Modelled from the spec: the table of unary operators (ast.go) is not
    among the sources; the design document lists minus and logical
    negation, in this order. *)
Definition unaryOps : list unaryOp := [mkUnaryOp "-"; mkUnaryOp "!"].

(** The list of keywords of parse.go.  No function of parse.go reads
    it. *)
Definition keywords : list string :=
  ["contract"; "clause"; "verify"; "locks"; "of";
   "lock"; "with"; "unlock"; "if"; "else";
   "define"; "assign"; "true"; "false"]%string.

(** ** The parser *)

Section Parser.

(** The table of binary operators and the table of types are package
    variables declared outside parse.go; the parser is read with any
    tables, and so is [parseImportDirectives], which parseContracts calls
    first and which is not in parse.go either.  The buffer is the one
    field of the parser that never changes; the other field, the
    position, is threaded through. *)
Variable binaryOps : list binaryOp.
Variable types : string -> option typeDesc.
Variable parseImportDirectives :
  buffer -> nat -> result (list Contract * nat).
Variable buf : buffer.

Definition errorf {A} (pos : nat) (fmt : string) (a : list string)
  : result A :=
  Panic (parseErr buf pos fmt a).

Definition peekKeyword (pos : nat) : string :=
  match scanIdentifier buf pos with
  | Some (name, _) => name
  | None => EmptyString
  end.

Definition peekTok (pos : nat) (token : string) : bool :=
  match scanTok buf pos token with
  | Some _ => true
  | None => false
  end.

Definition consumeKeyword (pos : nat) (keyword : string) : result nat :=
  match scanKeyword buf pos keyword with
  | None => errorf pos "expected keyword %s" [keyword]
  | Some pos' => Ok pos'
  end.

Definition consumeIdentifier (pos : nat) : result (string * nat) :=
  match scanIdentifier buf pos with
  | None => errorf pos "expected identifier" []
  | Some (name, pos') => Ok (name, pos')
  end.

Definition consumeTok (pos : nat) (token : string) : result nat :=
  match scanTok buf pos token with
  | None => errorf pos "expected %s token" [token]
  | Some pos' => Ok pos'
  end.

(** The loop of [scanUnaryOp] over the table. *)
Fixpoint scanUnaryOps (ops : list unaryOp) (off : nat)
  : option (unaryOp * nat) :=
  match ops with
  | [] => None
  | op :: ops' =>
    match scanTok buf off (unaryOp_op op) with
    | Some newOffset => Some (op, newOffset)
    | None => scanUnaryOps ops' off
    end
  end.

Definition scanUnaryOp (off : nat) : option (unaryOp * nat) :=
  match scanIntLiteral buf off with
  | Some _ => None
  | None => scanUnaryOps unaryOps off
  end.

(** One step of the loop of [scanBinaryOp]: a longer token replaces the
    one found so far. *)
Definition pickLonger (off : nat) (found : option (binaryOp * nat))
  (op : binaryOp) : option (binaryOp * nat) :=
  match scanTok buf off (binaryOp_op op) with
  | Some offset2 =>
    match found with
    | None => Some (op, offset2)
    | Some (f, _) =>
      if (String.length (binaryOp_op f) <? String.length (binaryOp_op op))%nat
      then Some (op, offset2) else found
    end
  | None => found
  end.

Definition scanBinaryOp (off : nat) : option (binaryOp * nat) :=
  let off := skipWsAndComments buf off in
  fold_left (pickLonger off) binaryOps None.

Definition scanLiteralExpr (off : nat) : result (option (expression * nat)) :=
  let off := skipWsAndComments buf off in
  match scanIntLiteral buf off with
  | Some (n, newOffset) => Ok (Some (integerLiteral n, newOffset))
  | None =>
    r <- scanStrLiteral buf off ;;
    match r with
    | Some (b, newOffset) => Ok (Some (bytesLiteral b, newOffset))
    | None =>
      r <- scanBytesLiteral buf off ;;
      match r with
      | Some (b, newOffset) => Ok (Some (bytesLiteral b, newOffset))
      | None =>
        match scanBoolLiteral buf off with
        | Some (b, newOffset) => Ok (Some (booleanLiteral b, newOffset))
        | None => Ok None
        end
      end
    end
  end.

(** The expression parser.  [parseExprCont] returns the position it
    leaves in the parser together with the expression, or [None] for its
    return of (nil, -1); its inner loop is [parseExprContRhs], its outer
    loop the recursion of [parseExprCont] itself.  The loops of
    [parseExpr4] and [parseArgs] are [parseEltsLoop]. *)
Fixpoint parseExpr (fuel : nat) (pos : nat) : result (expression * nat) :=
  match fuel with
  | 0 => OutOfFuel
  | S fuel =>
    '(expr, pos) <- parseUnaryExpr fuel pos ;;
    r <- parseExprCont fuel expr 0%Z pos ;;
    match r with
    | None => Panic (mkParserErr buf (-1) "expected expression" [])
    | Some (expr2, pos) => Ok (expr2, pos)
    end
  end

with parseUnaryExpr (fuel : nat) (pos : nat) : result (expression * nat) :=
  match fuel with
  | 0 => OutOfFuel
  | S fuel =>
    match scanUnaryOp pos with
    | None => parseExpr2 fuel pos
    | Some (op, pos) =>
      '(expr, pos) <- parseUnaryExpr fuel pos ;;
      Ok (unaryExpr op expr, pos)
    end
  end

with parseExprCont (fuel : nat) (lhs : expression) (minPrecedence : Z)
  (pos : nat) : result (option (expression * nat)) :=
  match fuel with
  | 0 => OutOfFuel
  | S fuel =>
    match scanBinaryOp pos with
    | None => Ok (Some (lhs, pos))
    | Some (op, pos') =>
      if (precedence op <? minPrecedence)%Z then Ok (Some (lhs, pos))
      else
        '(rhs, pos) <- parseUnaryExpr fuel pos' ;;
        r <- parseExprContRhs fuel op rhs pos ;;
        match r with
        | None => Ok None
        | Some (rhs, pos) =>
          parseExprCont fuel (binaryExpr lhs rhs op) minPrecedence pos
        end
    end
  end

with parseExprContRhs (fuel : nat) (op : binaryOp) (rhs : expression)
  (pos : nat) : result (option (expression * nat)) :=
  match fuel with
  | 0 => OutOfFuel
  | S fuel =>
    match scanBinaryOp pos with
    | None => Ok (Some (rhs, pos))
    | Some (op2, _) =>
      if (precedence op2 <=? precedence op)%Z then Ok (Some (rhs, pos))
      else
        r <- parseExprCont fuel rhs (precedence op2) pos ;;
        match r with
        | None => Ok None
        | Some (rhs, pos) => parseExprContRhs fuel op rhs pos
        end
    end
  end

with parseExpr2 (fuel : nat) (pos : nat) : result (expression * nat) :=
  match fuel with
  | 0 => OutOfFuel
  | S fuel =>
    r <- scanLiteralExpr pos ;;
    match r with
    | Some (expr, pos) => Ok (expr, pos)
    | None => parseExpr3 fuel pos
    end
  end

with parseExpr3 (fuel : nat) (pos : nat) : result (expression * nat) :=
  match fuel with
  | 0 => OutOfFuel
  | S fuel =>
    '(e, pos) <- parseExpr4 fuel pos ;;
    if peekTok pos "(" then
      '(a, pos) <- parseArgs fuel pos ;;
      Ok (callExpr e a, pos)
    else Ok (e, pos)
  end

with parseExpr4 (fuel : nat) (pos : nat) : result (expression * nat) :=
  match fuel with
  | 0 => OutOfFuel
  | S fuel =>
    if peekTok pos "(" then
      pos <- consumeTok pos "(" ;;
      '(e, pos) <- parseExpr fuel pos ;;
      pos <- consumeTok pos ")" ;;
      Ok (e, pos)
    else if peekTok pos "[" then
      pos <- consumeTok pos "[" ;;
      '(elts, pos) <- parseEltsLoop fuel "]" true [] pos ;;
      pos <- consumeTok pos "]" ;;
      Ok (listExpr elts, pos)
    else
      '(name, pos) <- consumeIdentifier pos ;;
      Ok (varRef name, pos)
  end

with parseArgs (fuel : nat) (pos : nat) : result (list expression * nat) :=
  match fuel with
  | 0 => OutOfFuel
  | S fuel =>
    pos <- consumeTok pos "(" ;;
    '(exprs, pos) <- parseEltsLoop fuel ")" true [] pos ;;
    pos <- consumeTok pos ")" ;;
    Ok (exprs, pos)
  end

with parseEltsLoop (fuel : nat) (close : string) (first : bool)
  (elts : list expression) (pos : nat) : result (list expression * nat) :=
  match fuel with
  | 0 => OutOfFuel
  | S fuel =>
    if peekTok pos close then Ok (elts, pos)
    else
      pos <- (if first then Ok pos else consumeTok pos ",") ;;
      '(e, pos) <- parseExpr fuel pos ;;
      parseEltsLoop fuel close false (elts ++ [e]) pos
  end.

(** The statements.  [lookupType] is the lookup in the table of types
    that [parseDefineStmt] and [parseParamsType] make after the name of
    the type has been consumed, with the error of an unknown type. *)
Definition lookupType (pos : nat) (typ : string) : result typeDesc :=
  match types typ with
  | Some tdesc => Ok tdesc
  | None => errorf pos "unknown type %s" [typ]
  end.

Definition parseDefineStmt (fuel : nat) (pos : nat)
  : result (statement * nat) :=
  pos <- consumeKeyword pos "define" ;;
  '(name, pos) <- consumeIdentifier pos ;;
  pos <- consumeTok pos ":" ;;
  '(variableType, pos) <- consumeIdentifier pos ;;
  tdesc <- lookupType pos variableType ;;
  if peekTok pos "=" then
    pos <- consumeTok pos "=" ;;
    '(e, pos) <- parseExpr fuel pos ;;
    Ok (defineStatement (mkParam name tdesc) (Some e), pos)
  else Ok (defineStatement (mkParam name tdesc) None, pos).

Definition parseAssignStmt (fuel : nat) (pos : nat)
  : result (statement * nat) :=
  pos <- consumeKeyword pos "assign" ;;
  '(varName, pos) <- consumeIdentifier pos ;;
  pos <- consumeTok pos "=" ;;
  '(e, pos) <- parseExpr fuel pos ;;
  Ok (assignStatement (mkParam varName EmptyString) e, pos).

Definition parseVerifyStmt (fuel : nat) (pos : nat)
  : result (statement * nat) :=
  pos <- consumeKeyword pos "verify" ;;
  '(e, pos) <- parseExpr fuel pos ;;
  Ok (verifyStatement e, pos).

Definition parseLockStmt (fuel : nat) (pos : nat)
  : result (statement * nat) :=
  pos <- consumeKeyword pos "lock" ;;
  '(lockedAmount, pos) <- parseExpr fuel pos ;;
  pos <- consumeKeyword pos "of" ;;
  '(lockedAsset, pos) <- parseExpr fuel pos ;;
  pos <- consumeKeyword pos "with" ;;
  '(program, pos) <- parseExpr fuel pos ;;
  Ok (lockStatement lockedAmount lockedAsset program, pos).

Definition parseUnlockStmt (fuel : nat) (pos : nat)
  : result (statement * nat) :=
  pos <- consumeKeyword pos "unlock" ;;
  '(unlockedAmount, pos) <- parseExpr fuel pos ;;
  pos <- consumeKeyword pos "of" ;;
  '(unlockedAsset, pos) <- parseExpr fuel pos ;;
  Ok (unlockStatement unlockedAmount unlockedAsset, pos).

Definition unknownKeyword : string :=
  "unknown keyword " ++ String dquote ("%s" ++ String dquote EmptyString).

Fixpoint parseStatements (fuel : nat) (statements : list statement)
  (pos : nat) : result (list statement * nat) :=
  match fuel with
  | 0 => OutOfFuel
  | S fuel =>
    if peekTok pos "}" then Ok (statements, pos)
    else
      '(s, pos) <- parseStatement fuel pos ;;
      parseStatements fuel (statements ++ [s]) pos
  end

with parseStatement (fuel : nat) (pos : nat) : result (statement * nat) :=
  match fuel with
  | 0 => OutOfFuel
  | S fuel =>
    let kw := peekKeyword pos in
    if (kw =? "if")%string then parseIfStmt fuel pos
    else if (kw =? "define")%string then parseDefineStmt fuel pos
    else if (kw =? "assign")%string then parseAssignStmt fuel pos
    else if (kw =? "verify")%string then parseVerifyStmt fuel pos
    else if (kw =? "lock")%string then parseLockStmt fuel pos
    else if (kw =? "unlock")%string then parseUnlockStmt fuel pos
    else Panic (parseErr buf pos unknownKeyword [peekKeyword pos])
  end

with parseIfStmt (fuel : nat) (pos : nat) : result (statement * nat) :=
  match fuel with
  | 0 => OutOfFuel
  | S fuel =>
    pos <- consumeKeyword pos "if" ;;
    '(condition, pos) <- parseExpr fuel pos ;;
    pos <- consumeTok pos "{" ;;
    '(trueBody, pos) <- parseStatements fuel [] pos ;;
    pos <- consumeTok pos "}" ;;
    if (peekKeyword pos =? "else")%string then
      pos <- consumeKeyword pos "else" ;;
      pos <- consumeTok pos "{" ;;
      '(falseBody, pos) <- parseStatements fuel [] pos ;;
      pos <- consumeTok pos "}" ;;
      Ok (ifStatement condition trueBody falseBody, pos)
    else Ok (ifStatement condition trueBody [], pos)
  end.

(** Parameters.  The first loop of [parseParamsType], here
    [parseNamesLoop], collects the names that share a type; its second
    loop gives every parameter the type, or fails at the first of them,
    and there is at least one. *)
Fixpoint parseNamesLoop (fuel : nat) (names : list string) (pos : nat)
  : result (list string * nat) :=
  match fuel with
  | 0 => OutOfFuel
  | S fuel =>
    if peekTok pos "," then
      pos <- consumeTok pos "," ;;
      '(name, pos) <- consumeIdentifier pos ;;
      parseNamesLoop fuel (names ++ [name]) pos
    else Ok (names, pos)
  end.

Definition parseParamsType (fuel : nat) (pos : nat)
  : result (list Param * nat) :=
  '(firstName, pos) <- consumeIdentifier pos ;;
  '(names, pos) <- parseNamesLoop fuel [firstName] pos ;;
  pos <- consumeTok pos ":" ;;
  '(typ, pos) <- consumeIdentifier pos ;;
  tdesc <- lookupType pos typ ;;
  Ok (map (fun name => mkParam name tdesc) names, pos).

Fixpoint parseParamsLoop (fuel : nat) (first : bool) (params : list Param)
  (pos : nat) : result (list Param * nat) :=
  match fuel with
  | 0 => OutOfFuel
  | S fuel =>
    if peekTok pos ")" then Ok (params, pos)
    else
      pos <- (if first then Ok pos else consumeTok pos ",") ;;
      '(pt, pos) <- parseParamsType fuel pos ;;
      parseParamsLoop fuel false (params ++ pt) pos
  end.

Definition parseParams (fuel : nat) (pos : nat) : result (list Param * nat) :=
  pos <- consumeTok pos "(" ;;
  '(params, pos) <- parseParamsLoop fuel true [] pos ;;
  pos <- consumeTok pos ")" ;;
  Ok (params, pos).

(** Clauses and contracts.  The loops of [parseParams], [parseClauses]
    and [parseContracts] are the functions named after them. *)
Definition parseClause (fuel : nat) (pos : nat) : result (Clause * nat) :=
  pos <- consumeKeyword pos "clause" ;;
  '(name, pos) <- consumeIdentifier pos ;;
  '(params, pos) <- parseParams fuel pos ;;
  pos <- consumeTok pos "{" ;;
  '(statements, pos) <- parseStatements fuel [] pos ;;
  pos <- consumeTok pos "}" ;;
  Ok (mkClause name params statements, pos).

Fixpoint parseClausesLoop (fuel : nat) (clauses : list Clause) (pos : nat)
  : result (list Clause * nat) :=
  match fuel with
  | 0 => OutOfFuel
  | S fuel =>
    if peekTok pos "}" then Ok (clauses, pos)
    else
      '(c, pos) <- parseClause fuel pos ;;
      parseClausesLoop fuel (clauses ++ [c]) pos
  end.

Definition parseClauses (fuel : nat) (pos : nat)
  : result (list Clause * nat) :=
  parseClausesLoop fuel [] pos.

Definition parseContract (fuel : nat) (pos : nat)
  : result (Contract * nat) :=
  pos <- consumeKeyword pos "contract" ;;
  '(name, pos) <- consumeIdentifier pos ;;
  '(params, pos) <- parseParams fuel pos ;;
  pos <- consumeKeyword pos "locks" ;;
  '(amount, pos) <- consumeIdentifier pos ;;
  pos <- consumeKeyword pos "of" ;;
  '(asset, pos) <- consumeIdentifier pos ;;
  pos <- consumeTok pos "{" ;;
  '(clauses, pos) <- parseClauses fuel pos ;;
  pos <- consumeTok pos "}" ;;
  Ok (mkContract name params clauses (mkValueInfo amount asset), pos).

Fixpoint parseContractsLoop (fuel : nat) (acc : list Contract) (pos : nat)
  : result (list Contract * nat) :=
  match fuel with
  | 0 => OutOfFuel
  | S fuel =>
    if (peekKeyword pos =? "contract")%string then
      '(contract, pos) <- parseContract fuel pos ;;
      parseContractsLoop fuel (acc ++ [contract]) pos
    else Ok (acc, pos)
  end.

Definition parseContracts (fuel : nat) (pos : nat)
  : result (list Contract * nat) :=
  '(contracts, pos) <- parseImportDirectives buf pos ;;
  match scanKeyword buf pos "contract" with
  | None => errorf pos "expected contract" []
  | Some _ => parseContractsLoop fuel contracts pos
  end.

(** [parse]: the deferred function recovers a panic whose value is a
    [parserErr] and stores it in the error result (the contracts are
    then still nil).  The pair is (contracts, err). *)
Definition parse (fuel : nat) : result (list Contract * option parserErr) :=
  match parseContracts fuel 0 with
  | Ok (contracts, _) => Ok (contracts, None)
  | Panic e => Ok ([], Some e)
  | OutOfFuel => OutOfFuel
  end.

End Parser.

(** ** Tables for the examples *)

(** Modelled from the spec: the table of binary operators (ast.go) is not
    among the sources.  The design document lists the operators from
    the highest precedence to the lowest: multiplication, division and
    remainder; addition and subtraction; the four order comparisons;
    equality and inequality; conjunction; disjunction.  It names no
    right-associative operator. *)
Definition specBinaryOps : list binaryOp :=
  [mkBinaryOp "*" 6 false; mkBinaryOp "/" 6 false; mkBinaryOp "%" 6 false;
   mkBinaryOp "+" 5 false; mkBinaryOp "-" 5 false;
   mkBinaryOp "<" 4 false; mkBinaryOp "<=" 4 false;
   mkBinaryOp ">" 4 false; mkBinaryOp ">=" 4 false;
   mkBinaryOp "==" 3 false; mkBinaryOp "!=" 3 false;
   mkBinaryOp "&&" 2 false; mkBinaryOp "||" 1 false].

(** Modelled from the spec: the table of types (ast.go) is not among the
    sources.  The design document gives the closed set of type tags;
    each resolves to the descriptor of the same name. *)
Definition specTypes (typ : string) : option typeDesc :=
  if existsb (String.eqb typ)
       ["Asset"; "Amount"; "Integer"; "Boolean"; "PublicKey";
        "Signature"; "String"; "Hash"; "Program"; "Time"]%string
  then Some typ else None.

(** Modelled from the spec: [parseImportDirectives] is not among the
    sources.  On a buffer that begins with no import directive there is
    nothing to load: no contract is prepended and the position stays. *)
Definition noImports (buf : buffer) (pos : nat)
  : result (list Contract * nat) :=
  Ok ([], pos).

(** The fixture compiler/equitytest/RepayCollateral, byte for byte. *)
Definition RepayCollateral : string :=
"contract RepayCollateral(assetRepayed: Asset,
                        amountRepayed: Amount,
                        RepayBlockHeight: Integer,
                        lender: Program,
                        borrower: Program) locks valueAmount of valueAsset {
  clause repay() {
    verify below(RepayBlockHeight)
    lock amountRepayed of assetRepayed with lender
    lock valueAmount of valueAsset with borrower
  }
  clause default() {
    verify above(RepayBlockHeight)
    lock valueAmount of valueAsset with lender
  }
}
".

(** ** Diagnostics *)

(** The loop of [parserErr.Error]: lines start at 1, columns at 0. *)
Definition lineColStep (lc : nat * nat) (c : byte) : nat * nat :=
  if c =? newline then (S (fst lc), 0) else (fst lc, S (snd lc)).

Definition lineCol (buf : buffer) (off : Z) : nat * nat :=
  fold_left lineColStep (firstn (Z.to_nat off) buf) (1, 0).

(** The arguments handed to [fmt.Sprintf]. *)
Inductive fmtArg := ArgInt (n : nat) | ArgStr (s : string).

Definition decimal (n : nat) : string :=
  NilEmpty.string_of_uint (Nat.to_uint n).

Definition renderArg (a : fmtArg) : string :=
  match a with
  | ArgInt n => decimal n
  | ArgStr s => s
  end.

(** [fmt.Sprintf] for the verbs the parser uses, d and s, each given an
    argument of its kind; any other byte of the format is copied. *)
Fixpoint Sprintf (fmt : string) (a : list fmtArg) : string :=
  match fmt with
  | EmptyString => EmptyString
  | String "%" (String v fmt') =>
    if (v =? "d") || (v =? "s") then
      match a with
      | x :: a' => renderArg x ++ Sprintf fmt' a'
      | [] => String "%" (String v (Sprintf fmt' a))
      end
    else String "%" (String v (Sprintf fmt' a))
  | String c fmt' => String c (Sprintf fmt' a)
  end.

Definition Error (p : parserErr) : string :=
  let '(line, col) := lineCol (errBuf p) (offset p) in
  Sprintf ("line %d, col %d: " ++ format p)
          (ArgInt line :: ArgInt col :: map ArgStr (args p)).

(** * Notions used in the statements and in the proofs *)

(** ** Literals and tokens *)

(** [stops p tail]: the run of bytes satisfying [p] cannot be extended
    into [tail]. *)
Definition stops (p : byte -> bool) (tail : buffer) : bool :=
  match tail with
  | [] => true
  | c :: _ => negb (p c)
  end.

Definition isX (c : byte) : bool := (c =? "x") || (c =? "X").

Definition signBytes (neg : bool) : buffer := if neg then ["-"] else [].

(** The value a literal denotes, and the test that it is a signed 64-bit
    value. *)
Definition literalValue (neg : bool) (d : buffer) : Z :=
  if neg then (- digitsVal d)%Z else digitsVal d.

Definition fitsInt64 (v : Z) : bool :=
  ((minInt64 <=? v) && (v <=? maxInt64))%Z.

(** [hexMark d tail]: the last digit of the run is 0 and the byte after
    the run is x or X. *)
Definition hexMark (d tail : buffer) : bool :=
  (last d " " =? "0") && match tail with c :: _ => isX c | [] => false end.

(** The tokens of the form of an identifier: a letter or an underscore,
    then letters, digits and underscores. *)
Definition isIdentifier (w : string) : bool :=
  match bytesOf w with
  | [] => false
  | c :: l => isIDChar c true && forallb (fun c => isIDChar c false) l
  end.

(** The test of [skipWsAndComments] for the start of a comment. *)
Definition commentStart (c : byte) (l : buffer) : bool :=
  (c =? "/") && match l with c' :: _ => c' =? "/" | [] => false end.

(** ** Lines and columns *)

(** The position of an offset as the design document words it: the
    number of newline bytes before the offset, and the number of bytes
    since the last of them. *)
Definition newlinesBefore (buf : buffer) (off : Z) : nat :=
  count_occ ascii_dec (firstn (Z.to_nat off) buf) newline.

Fixpoint untilNewline (l : buffer) : buffer :=
  match l with
  | [] => []
  | c :: l' => if c =? newline then [] else c :: untilNewline l'
  end.

Definition bytesSinceNewline (buf : buffer) (off : Z) : nat :=
  length (untilNewline (rev (firstn (Z.to_nat off) buf))).

(** ** Fuel, termination and errors *)

(** [le_result r r']: [r'] is [r] unless [r] ran out of fuel. *)
Definition le_result {A} (r r' : result A) : Prop :=
  r <> OutOfFuel -> r' = r.

Section Notions.

Variable ops : list binaryOp.
Variable types : string -> option typeDesc.
Variable buf : buffer.

(** The offset of the error an unfit literal ends in: the parser has
    taken the minus for the unary operator. *)
Definition unfitErrorPos (pos : nat) (neg : bool) : nat :=
  if neg then skipWsAndComments buf pos + 1 else pos.

(** More fuel does not change an answer. *)
Definition exprMono (n m : nat) : Prop :=
  (forall pos,
     le_result (parseExpr ops buf n pos) (parseExpr ops buf m pos)) /\
  (forall pos,
     le_result (parseUnaryExpr ops buf n pos) (parseUnaryExpr ops buf m pos)) /\
  (forall lhs p pos,
     le_result (parseExprCont ops buf n lhs p pos)
               (parseExprCont ops buf m lhs p pos)) /\
  (forall op rhs pos,
     le_result (parseExprContRhs ops buf n op rhs pos)
               (parseExprContRhs ops buf m op rhs pos)) /\
  (forall pos,
     le_result (parseExpr2 ops buf n pos) (parseExpr2 ops buf m pos)) /\
  (forall pos,
     le_result (parseExpr3 ops buf n pos) (parseExpr3 ops buf m pos)) /\
  (forall pos,
     le_result (parseExpr4 ops buf n pos) (parseExpr4 ops buf m pos)) /\
  (forall pos,
     le_result (parseArgs ops buf n pos) (parseArgs ops buf m pos)) /\
  (forall close first elts pos,
     le_result (parseEltsLoop ops buf n close first elts pos)
               (parseEltsLoop ops buf m close first elts pos)).

Definition stmtMono (n m : nat) : Prop :=
  (forall statements pos,
     le_result (parseStatements ops types buf n statements pos)
               (parseStatements ops types buf m statements pos)) /\
  (forall pos,
     le_result (parseStatement ops types buf n pos)
               (parseStatement ops types buf m pos)) /\
  (forall pos,
     le_result (parseIfStmt ops types buf n pos)
               (parseIfStmt ops types buf m pos)).

(** The errors of the parser name the buffer and an offset inside it. *)
Definition errOK (e : parserErr) : Prop :=
  errBuf e = buf /\ (0 <= offset e <= Z.of_nat (length buf))%Z.

(** [okR P r]: the result is not out of fuel; a value satisfies [P] and
    an error is one of the parser. *)
Definition okR {A} (P : A -> Prop) (r : result A) : Prop :=
  match r with
  | Ok a => P a
  | Panic e => errOK e
  | OutOfFuel => False
  end.

(** The fuel that is enough for a buffer. *)
Definition enoughFuel : nat := 10 * length buf + 2.

(** Ten units of fuel for each byte that remains, and a few more for
    the calls that are made before a byte is consumed. *)
Definition exprOk (bound : nat) : Prop :=
  forall fuel pos,
    pos <= length buf -> length buf - pos < bound ->
    10 * (length buf - pos) + 7 <= fuel ->
    okR (fun a => pos < snd a <= length buf) (parseExpr ops buf fuel pos).

Definition unaryOk (bound : nat) : Prop :=
  forall fuel pos,
    pos <= length buf -> length buf - pos < bound ->
    10 * (length buf - pos) + 4 <= fuel ->
    okR (fun a => pos < snd a <= length buf)
        (parseUnaryExpr ops buf fuel pos).

Definition contOk (bound : nat) : Prop :=
  forall fuel lhs minPrecedence pos,
    pos <= length buf -> length buf - pos < bound ->
    10 * (length buf - pos) + 5 <= fuel ->
    okR (fun o =>
           match o with
           | Some (_, p) =>
             pos <= p <= length buf /\
             (forall op q, scanBinaryOp ops buf pos = Some (op, q) ->
                (minPrecedence <= precedence op)%Z -> pos < p)
           | None => False
           end)
        (parseExprCont ops buf fuel lhs minPrecedence pos).

Definition rhsOk (bound : nat) : Prop :=
  forall fuel op rhs pos,
    pos <= length buf -> length buf - pos < bound ->
    10 * (length buf - pos) + 6 <= fuel ->
    okR (fun o =>
           match o with
           | Some (_, p) => pos <= p <= length buf
           | None => False
           end)
        (parseExprContRhs ops buf fuel op rhs pos).

Definition expr2Ok (bound : nat) : Prop :=
  forall fuel pos,
    pos <= length buf -> length buf - pos < bound ->
    10 * (length buf - pos) + 3 <= fuel ->
    okR (fun a => pos < snd a <= length buf) (parseExpr2 ops buf fuel pos).

Definition expr3Ok (bound : nat) : Prop :=
  forall fuel pos,
    pos <= length buf -> length buf - pos < bound ->
    10 * (length buf - pos) + 2 <= fuel ->
    okR (fun a => pos < snd a <= length buf) (parseExpr3 ops buf fuel pos).

Definition expr4Ok (bound : nat) : Prop :=
  forall fuel pos,
    pos <= length buf -> length buf - pos < bound ->
    10 * (length buf - pos) + 1 <= fuel ->
    okR (fun a => pos < snd a <= length buf) (parseExpr4 ops buf fuel pos).

Definition argsOk (bound : nat) : Prop :=
  forall fuel pos,
    pos <= length buf -> length buf - pos < bound ->
    10 * (length buf - pos) + 1 <= fuel ->
    okR (fun a => pos < snd a <= length buf) (parseArgs ops buf fuel pos).

Definition eltsOk (bound : nat) : Prop :=
  forall fuel close first elts pos,
    pos <= length buf -> length buf - pos < bound ->
    10 * (length buf - pos) + 8 <= fuel ->
    okR (fun a => pos <= snd a <= length buf)
        (parseEltsLoop ops buf fuel close first elts pos).

Definition exprTotal (bound : nat) : Prop :=
  exprOk bound /\ unaryOk bound /\ contOk bound /\ rhsOk bound /\
  expr2Ok bound /\ expr3Ok bound /\ expr4Ok bound /\ argsOk bound /\
  eltsOk bound.

Definition stmtsOk (bound : nat) : Prop :=
  forall fuel statements pos,
    pos <= length buf -> length buf - pos < bound ->
    10 * (length buf - pos) + 3 <= fuel ->
    okR (fun a => pos <= snd a <= length buf)
        (parseStatements ops types buf fuel statements pos).

Definition stmtOk (bound : nat) : Prop :=
  forall fuel pos,
    pos <= length buf -> length buf - pos < bound ->
    10 * (length buf - pos) + 2 <= fuel ->
    okR (fun a => pos < snd a <= length buf)
        (parseStatement ops types buf fuel pos).

Definition ifOk (bound : nat) : Prop :=
  forall fuel pos,
    pos <= length buf -> length buf - pos < bound ->
    10 * (length buf - pos) + 1 <= fuel ->
    okR (fun a => pos < snd a <= length buf)
        (parseIfStmt ops types buf fuel pos).

Definition namesOk (bound : nat) : Prop :=
  forall fuel names pos,
    pos <= length buf -> length buf - pos < bound ->
    10 * (length buf - pos) + 1 <= fuel ->
    okR (fun a => pos <= snd a <= length buf)
        (parseNamesLoop buf fuel names pos).

Definition paramsLoopOk (bound : nat) : Prop :=
  forall fuel first params pos,
    pos <= length buf -> length buf - pos < bound ->
    10 * (length buf - pos) + 2 <= fuel ->
    okR (fun a => pos <= snd a <= length buf)
        (parseParamsLoop types buf fuel first params pos).

Definition clausesLoopOk (bound : nat) : Prop :=
  forall fuel clauses pos,
    pos <= length buf -> length buf - pos < bound ->
    10 * (length buf - pos) + 2 <= fuel ->
    okR (fun a => pos <= snd a <= length buf)
        (parseClausesLoop ops types buf fuel clauses pos).

Definition contractsLoopOk (bound : nat) : Prop :=
  forall fuel acc pos,
    pos <= length buf -> length buf - pos < bound ->
    10 * (length buf - pos) + 2 <= fuel ->
    okR (fun a => pos <= snd a <= length buf)
        (parseContractsLoop ops types buf fuel acc pos).

End Notions.

(** ** The text that is skipped *)

Definition inLine (c : byte) : bool := negb (c =? newline).

(** [blank l k]: the first [k] bytes of [l] are white space and line
    comments, a comment being two slashes, bytes other than the newline
    and the newline; the last comment may instead run to the end of
    [l]. *)
Inductive blank : buffer -> nat -> Prop :=
| blank_stop l : blank l 0
| blank_space c l k :
    isSpace c = true -> blank l k -> blank (c :: l) (S k)
| blank_comment body l k :
    forallb inLine body = true -> blank l k ->
    blank ("/" :: "/" :: body ++ newline :: l) (3 + length body + k)
| blank_open body :
    forallb inLine body = true ->
    blank ("/" :: "/" :: body) (2 + length body).

(** The bytes at which skipping ends: the end of the buffer, or a byte
    that is neither white space nor the first slash of a comment. *)
Definition blankStop (l : buffer) : bool :=
  match l with
  | [] => true
  | c :: l' => negb (isSpace c) && negb (commentStart c l')
  end.

(** ** Writing a literal *)

Definition isQuote (q : byte) : bool := (q =? "'") || (q =? dquote).

(** A way to write the byte [c] inside a string literal quoted by
    [quote]: the quote and the backslash after a backslash, the six
    control bytes by their letters, any other byte as it is. *)
Definition escapeByte (quote c : byte) : buffer :=
  if (c =? quote) || (c =? "\") then ["\"; c]
  else if c =? "008" then ["\"; "b"]
  else if c =? "012" then ["\"; "f"]
  else if c =? "010" then ["\"; "n"]
  else if c =? "013" then ["\"; "r"]
  else if c =? "009" then ["\"; "t"]
  else if c =? "011" then ["\"; "v"]
  else [c].

Definition escapeStr (quote : byte) (content : buffer) : buffer :=
  flat_map (escapeByte quote) content.

(** The two hexadecimal digits of a byte, in upper or in lower case. *)
Definition hexDigitOf (upper : bool) (n : N) : byte :=
  ascii_of_N (if (n <? 10)%N then 48 + n
              else if upper then 55 + n else 87 + n).

Definition hexEncode (upper : bool) (b : buffer) : buffer :=
  flat_map (fun c => [hexDigitOf upper (N_of_ascii c / 16);
                      hexDigitOf upper (N_of_ascii c mod 16)]) b.

(** ** Answers that advance *)

(** [advances buf pos fuel need r]: an answer of a nonterminal called
    at [pos] ends after [pos] and inside the buffer, an error is one of
    the parser, and there is no answer only when the fuel is less than
    ten units for a byte that remains and [need] more. *)
Definition advances {A} (buf : buffer) (pos fuel need : nat)
  (r : result (A * nat)) : Prop :=
  match r with
  | Ok a => pos < snd a <= length buf
  | Panic e => errOK buf e
  | OutOfFuel => fuel < 10 * (length buf - pos) + need
  end.

(** ** Types of parameters, positions of errors *)


(** The order of lines and columns. *)
Definition lexLt (a b : nat * nat) : Prop :=
  fst a < fst b \/ (fst a = fst b /\ snd a < snd b).

(** The word of a boolean literal. *)
Definition boolWord (b : bool) : string :=
  if b then "true"%string else "false"%string.

(** ** The longest operator *)

(** The found operator of [scanBinaryOp], against the part of the table
    the loop has been through. *)
Definition longestAt (buf : buffer) (start : nat) (seen : list binaryOp)
  (found : option (binaryOp * nat)) : Prop :=
  match found with
  | Some (op, p) =>
    In op seen /\ scanTok buf start (binaryOp_op op) = Some p /\
    forall op', In op' seen ->
      scanTok buf start (binaryOp_op op') <> None ->
      String.length (binaryOp_op op') <= String.length (binaryOp_op op)
  | None =>
    forall op', In op' seen -> scanTok buf start (binaryOp_op op') = None
  end.

(** * Properties *)

(** ** Bytes *)

Ltac byte_cases c :=
  destruct c as [[] [] [] [] [] [] [] []]; try discriminate; try reflexivity.

Lemma isDigit_isHexDigit c : isDigit c = true -> isHexDigit c = true.
Proof. byte_cases c. Qed.

Lemma isDigit_not_initial c : isDigit c = true -> isIDChar c true = false.
Proof. byte_cases c. Qed.

Lemma eqb_byte_eq (a b : byte) : (a =? b) = true <-> a = b.
Proof. apply Ascii.eqb_eq. Qed.

Lemma stringOf_bytesOf s : stringOf (bytesOf s) = s.
Proof. apply string_of_list_ascii_of_string. Qed.

Lemma length_bytesOf s : length (bytesOf s) = String.length s.
Proof. induction s; simpl; congruence. Qed.

Lemma hasPrefix_inv l p :
  hasPrefix l p = true -> exists tl, l = p ++ tl.
Proof.
  revert l; induction p as [|c p IH]; intros l H; simpl in *.
  - now exists l.
  - destruct l as [|d l]; [discriminate|].
    apply andb_true_iff in H as [Hc Hp].
    apply eqb_byte_eq in Hc; subst d.
    destruct (IH _ Hp) as [tl ->]. now exists tl.
Qed.

(** ** Skipping white space and comments *)

Lemma skipLoop_false_cons c l :
  skipLoop false (c :: l) =
  if commentStart c l then S (S (skipLoop true (tl l)))
  else if isSpace c then S (skipLoop false l) else 0.
Proof.
  unfold commentStart. destruct l as [|c' l']; simpl.
  - rewrite andb_false_r. now destruct (isSpace c).
  - destruct ((c =? "/") && (c' =? "/")); [reflexivity|].
    now destruct (isSpace c).
Qed.

Lemma skipLoop_true_cons c l :
  skipLoop true (c :: l) = S (skipLoop (negb (c =? newline)) l).
Proof. reflexivity. Qed.

(** Where the loop stops, it does not move again. *)
Lemma skipLoop_stop n :
  forall l b, length l <= n ->
    skipLoop false (skipn (skipLoop b l) l) = 0.
Proof.
  induction n as [|n IH]; intros l b Hn.
  - destruct l; [destruct b; reflexivity | simpl in Hn; lia].
  - destruct l as [|c l]; [destruct b; reflexivity|].
    simpl in Hn. destruct b.
    + rewrite skipLoop_true_cons. cbn [skipn]. apply IH. lia.
    + rewrite skipLoop_false_cons.
      destruct (commentStart c l) eqn:Ec.
      * destruct l as [|c' l']; [unfold commentStart in Ec;
          rewrite andb_false_r in Ec; discriminate|].
        cbn [skipn tl]. apply IH. simpl in Hn. lia.
      * destruct (isSpace c) eqn:E.
        { cbn [skipn]. apply IH. lia. }
        cbn [skipn]. rewrite skipLoop_false_cons. now rewrite Ec, E.
Qed.

Lemma skipLoop_le b l : skipLoop b l <= length l.
Proof.
  enough (G : forall n l b, length l <= n -> skipLoop b l <= length l)
    by now apply (G (length l)).
  clear. induction n as [|n IH]; intros l b H.
  - destruct l; [destruct b; simpl; lia | simpl in H; lia].
  - destruct l as [|c l]; [destruct b; simpl; lia|]. simpl in H.
    destruct b.
    + rewrite skipLoop_true_cons.
      specialize (IH l (negb (c =? newline))). simpl. lia.
    + rewrite skipLoop_false_cons.
      destruct (commentStart c l) eqn:Ec.
      * destruct l as [|c' l']; [unfold commentStart in Ec;
          rewrite andb_false_r in Ec; discriminate|].
        specialize (IH l' true). simpl in *. lia.
      * destruct (isSpace c); [|lia].
        specialize (IH l false). simpl. lia.
Qed.

Lemma skipn_add {A} (l : list A) a b : skipn (a + b) l = skipn b (skipn a l).
Proof. rewrite skipn_skipn. f_equal. lia. Qed.

Lemma skip_idem buf off :
  skipWsAndComments buf (skipWsAndComments buf off)
  = skipWsAndComments buf off.
Proof.
  unfold skipWsAndComments at 1.
  unfold skipWsAndComments at 2.
  rewrite skipn_add.
  rewrite (skipLoop_stop _ (skipn off buf) false (le_n _)).
  unfold skipWsAndComments. lia.
Qed.

Lemma skip_ge buf off : off <= skipWsAndComments buf off.
Proof. unfold skipWsAndComments. lia. Qed.

Lemma skip_le buf off :
  off <= length buf -> skipWsAndComments buf off <= length buf.
Proof.
  intros H. unfold skipWsAndComments.
  pose proof (skipLoop_le false (skipn off buf)) as L.
  rewrite length_skipn in L. lia.
Qed.

(** A byte that is neither white space nor a slash stops the loop. *)
Lemma skipLoop_nonspace c l :
  isSpace c = false -> c <> "/" -> skipLoop false (c :: l) = 0.
Proof.
  intros Hs Hc. rewrite skipLoop_false_cons. unfold commentStart.
  assert ((c =? "/") = false) as -> by now apply Ascii.eqb_neq.
  now rewrite Hs.
Qed.

(** Each scanner gives the same answer at an offset and at the offset
    reached by skipping from it. *)
Lemma scanIdentifier_skip buf off :
  scanIdentifier buf (skipWsAndComments buf off) = scanIdentifier buf off.
Proof. unfold scanIdentifier. now rewrite skip_idem. Qed.

Lemma scanKeyword_skip buf off k :
  scanKeyword buf (skipWsAndComments buf off) k = scanKeyword buf off k.
Proof. unfold scanKeyword. now rewrite scanIdentifier_skip. Qed.

Lemma scanIntLiteral_skip buf off :
  scanIntLiteral buf (skipWsAndComments buf off) = scanIntLiteral buf off.
Proof. unfold scanIntLiteral. now rewrite skip_idem. Qed.

Lemma scanStrLiteral_skip buf off :
  scanStrLiteral buf (skipWsAndComments buf off) = scanStrLiteral buf off.
Proof. unfold scanStrLiteral. now rewrite skip_idem. Qed.

Lemma scanBytesLiteral_skip buf off :
  scanBytesLiteral buf (skipWsAndComments buf off) = scanBytesLiteral buf off.
Proof. unfold scanBytesLiteral. now rewrite skip_idem. Qed.

Lemma scanBoolLiteral_skip buf off :
  scanBoolLiteral buf (skipWsAndComments buf off) = scanBoolLiteral buf off.
Proof.
  unfold scanBoolLiteral. rewrite skip_idem.
  now rewrite !scanKeyword_skip.
Qed.

(** ** Hexadecimal literals *)

Lemma rest_length buf off l :
  rest buf off = l -> l <> [] ->
  length buf = skipWsAndComments buf off + length l.
Proof.
  unfold rest. intros H Hl.
  assert (L : length (skipn (skipWsAndComments buf off) buf) = length l)
    by now rewrite H.
  rewrite length_skipn in L.
  destruct l; [congruence|]. simpl in *. lia.
Qed.

Lemma rest_skipn buf off k :
  skipn (skipWsAndComments buf off + k) buf = skipn k (rest buf off).
Proof. unfold rest. apply skipn_add. Qed.

Lemma hexLoop_pair a b l :
  isHexDigit a = true -> isHexDigit b = true ->
  hexLoop (a :: b :: l) =
  match hexLoop l with HexOdd => HexOdd | HexEnd n => HexEnd (S (S n)) end.
Proof. intros Ha Hb. simpl. now rewrite Ha, Hb. Qed.

Lemma forallb_cons2 (p : byte -> bool) a b l :
  forallb p (a :: b :: l) = true ->
  p a = true /\ p b = true /\ forallb p l = true.
Proof.
  simpl. intros H.
  apply andb_true_iff in H as [Ha H].
  apply andb_true_iff in H as [Hb H]. auto.
Qed.

(** Induction two bytes at a time. *)
Lemma pair_induction {A} (P : list A -> Prop) :
  P [] -> (forall a, P [a]) ->
  (forall a b l, P l -> P (a :: b :: l)) ->
  forall l, P l.
Proof.
  intros H0 H1 H2.
  enough (G : forall l, P l /\ forall a, P (a :: l)) by (intros; apply G).
  induction l as [|c l [IH1 IH2]]; split; auto.
Qed.

(** An odd run of digits always ends in the panic. *)
Lemma hexLoop_odd d tail :
  forallb isHexDigit d = true -> Nat.odd (length d) = true ->
  stops isHexDigit tail = true ->
  hexLoop (d ++ tail) = HexOdd.
Proof.
  intros Hd Ho Ht. revert Hd Ho.
  induction d as [| a | a b d IH] using pair_induction; intros Hd Ho.
  - discriminate.
  - simpl in Hd. rewrite andb_true_r in Hd.
    destruct tail as [|t tl]; [reflexivity|].
    simpl in *. rewrite Hd. simpl. now rewrite Ht.
  - apply forallb_cons2 in Hd as (Ha & Hb & Hd).
    cbn [app]. rewrite hexLoop_pair by assumption.
    rewrite IH; auto.
Qed.

(** An even run is accepted when the buffer does not end one byte after
    it. *)
Lemma hexLoop_even d tail :
  forallb isHexDigit d = true -> Nat.even (length d) = true ->
  stops isHexDigit tail = true -> length tail <> 1 ->
  hexLoop (d ++ tail) = HexEnd (length d).
Proof.
  intros Hd He Ht Hl. revert Hd He.
  induction d as [| a | a b d IH] using pair_induction; intros Hd He.
  - destruct tail as [|t [|t' tl]]; [reflexivity | now elim Hl |].
    simpl in *. now rewrite Ht.
  - discriminate.
  - apply forallb_cons2 in Hd as (Ha & Hb & Hd).
    cbn [app]. rewrite hexLoop_pair by assumption.
    rewrite IH; auto.
Qed.

(** A single byte left after an even run is taken for an odd digit. *)
Lemma hexLoop_even_last d t :
  forallb isHexDigit d = true -> Nat.even (length d) = true ->
  hexLoop (d ++ [t]) = HexOdd.
Proof.
  induction d as [| a | a b d IH] using pair_induction; intros Hd He.
  - reflexivity.
  - discriminate.
  - apply forallb_cons2 in Hd as (Ha & Hb & Hd).
    cbn [app]. rewrite hexLoop_pair by assumption.
    rewrite IH; auto.
Qed.

Lemma fromHexChar_some c :
  isHexDigit c = true -> exists v, fromHexChar c = Some v.
Proof.
  unfold isHexDigit, fromHexChar. intros H.
  destruct (between "0" "9" c); [eauto|].
  destruct (between "a" "f" c); [eauto|].
  destruct (between "A" "F" c); [eauto|discriminate].
Qed.

(** [hex.Decode] does not fail on an even run of hexadecimal digits. *)
Lemma hexDecode_total d :
  forallb isHexDigit d = true -> Nat.even (length d) = true ->
  exists out, hexDecode d = Some out /\ 2 * length out = length d.
Proof.
  induction d as [| a | a b d IH] using pair_induction; intros Hd He.
  - now exists [].
  - discriminate.
  - apply forallb_cons2 in Hd as (Ha & Hb & Hd).
    destruct (IH Hd He) as (out & E & L).
    destruct (fromHexChar_some _ Ha) as [hi Ehi].
    destruct (fromHexChar_some _ Hb) as [lo Elo].
    exists (ascii_of_N (hi * 16 + lo) :: out).
    cbn [hexDecode]. rewrite Ehi, Elo, E. split; [reflexivity|].
    simpl. lia.
Qed.

(** The three outcomes of [scanBytesLiteral] on a literal: the bytes
    after the offset, once white space and comments are skipped, are
    the digit 0, a letter x, the hexadecimal digits [d], and a tail
    into which the digits do not extend. *)
Section BytesLiteral.

Variables (buf : buffer) (off : nat) (x : byte) (d tail : buffer).
Hypothesis Hrest : rest buf off = "0" :: x :: d ++ tail.
Hypothesis Hx : isX x = true.
Hypothesis Hd : forallb isHexDigit d = true.
Hypothesis Htail : stops isHexDigit tail = true.

Let start := skipWsAndComments buf off.

Lemma bytesLiteral_length :
  length buf = start + 2 + length d + length tail.
Proof.
  rewrite (rest_length buf off _ Hrest) by discriminate.
  simpl. rewrite length_app. unfold start. lia.
Qed.

Lemma scanBytesLiteral_odd :
  Nat.odd (length d) = true -> 3 <= length d ->
  scanBytesLiteral buf off = Panic (parseErr buf start oddDigits []).
Proof.
  intros Ho H3. unfold scanBytesLiteral. fold start.
  pose proof bytesLiteral_length as L.
  destruct (Nat.leb_spec (length buf) (start + 4)) as [G|G]; [lia|].
  change (skipn start buf) with (rest buf off). rewrite Hrest.
  destruct d as [|c2 [|c3 d']]; [simpl in H3; lia ..|].
  apply forallb_cons2 in Hd as (H2 & H3' & Hd').
  cbn [app]. rewrite Ascii.eqb_refl. cbn [negb orb].
  unfold isX in Hx.
  replace (negb (x =? "x") && negb (x =? "X")) with false
    by (destruct (x =? "x"), (x =? "X"); simpl in *; congruence).
  rewrite H2, H3'. cbn [negb orb].
  rewrite hexLoop_odd; auto.
Qed.

Lemma scanBytesLiteral_single :
  length d = 1 -> scanBytesLiteral buf off = Ok None.
Proof.
  intros H1. unfold scanBytesLiteral. fold start.
  destruct (length buf <=? start + 4)%nat; [reflexivity|].
  change (skipn start buf) with (rest buf off). rewrite Hrest.
  destruct d as [|c2 [|? ?]]; try discriminate.
  cbn [app]. destruct tail as [|t tl]; [reflexivity|].
  simpl in Htail. apply negb_true_iff in Htail. rewrite Htail.
  cbn [negb]. rewrite orb_true_r.
  now destruct (negb ("0" =? "0") || negb (x =? "x") && negb (x =? "X")).
Qed.

Lemma scanBytesLiteral_even :
  Nat.even (length d) = true -> 2 <= length d ->
  (tail = [] -> 4 <= length d) -> length tail <> 1 ->
  exists decoded,
    hexDecode d = Some decoded /\
    scanBytesLiteral buf off = Ok (Some (decoded, start + 2 + length d)).
Proof.
  intros He H2 Hnil Hone.
  destruct (hexDecode_total d Hd He) as (decoded & Edec & _).
  exists decoded. split; [assumption|].
  unfold scanBytesLiteral. fold start.
  pose proof bytesLiteral_length as L.
  assert (G : length buf > start + 4).
  { destruct tail as [|t [|t' tl]]; simpl in *; try lia.
    specialize (Hnil eq_refl). lia. }
  destruct (Nat.leb_spec (length buf) (start + 4)) as [G'|_]; [lia|].
  change (skipn start buf) with (rest buf off). rewrite Hrest.
  destruct d as [|c2 [|c3 d']] eqn:Ed; [simpl in H2; lia ..|].
  pose proof Hd as Hd0.
  apply forallb_cons2 in Hd0 as (Hc2 & Hc3 & Hd').
  cbn [app]. rewrite Ascii.eqb_refl. cbn [negb orb].
  unfold isX in Hx.
  replace (negb (x =? "x") && negb (x =? "X")) with false
    by (destruct (x =? "x"), (x =? "X"); simpl in *; congruence).
  rewrite Hc2, Hc3. cbn [negb orb].
  rewrite hexLoop_even; auto.
  unfold start. rewrite rest_skipn, Hrest. cbn [skipn].
  fold start.
  replace (start + 4 + length d' - (start + 2)) with (length (c2 :: c3 :: d'))
    by (simpl; lia).
  rewrite firstn_app, Nat.sub_diag, firstn_all. cbn [firstn].
  rewrite app_nil_r, Edec. do 3 f_equal. simpl. lia.
Qed.

(** The defect at the end of the buffer: one byte after an even run. *)
Lemma scanBytesLiteral_even_last t :
  tail = [t] -> Nat.even (length d) = true -> 2 <= length d ->
  scanBytesLiteral buf off = Panic (parseErr buf start oddDigits []).
Proof.
  intros Ht He H2. unfold scanBytesLiteral. fold start.
  pose proof bytesLiteral_length as L. subst tail. simpl in L.
  destruct (Nat.leb_spec (length buf) (start + 4)) as [G|G]; [lia|].
  change (skipn start buf) with (rest buf off). rewrite Hrest.
  destruct d as [|c2 [|c3 d']]; [simpl in H2; lia ..|].
  apply forallb_cons2 in Hd as (Hc2 & Hc3 & Hd').
  cbn [app]. rewrite Ascii.eqb_refl. cbn [negb orb].
  unfold isX in Hx.
  replace (negb (x =? "x") && negb (x =? "X")) with false
    by (destruct (x =? "x"), (x =? "X"); simpl in *; congruence).
  rewrite Hc2, Hc3. cbn [negb orb].
  rewrite hexLoop_even_last; auto.
Qed.

(** Two digits and the end of the buffer: the length test declines. *)
Lemma scanBytesLiteral_two_at_end :
  tail = [] -> length d = 2 -> scanBytesLiteral buf off = Ok None.
Proof.
  intros Ht H2. unfold scanBytesLiteral. fold start.
  pose proof bytesLiteral_length as L. subst tail. simpl in L.
  destruct (Nat.leb_spec (length buf) (start + 4)) as [G|G]; [reflexivity|lia].
Qed.

End BytesLiteral.

(** ** Integer literals *)

Lemma isDigit_not_isX c : isDigit c = true -> isX c = false.
Proof. byte_cases c. Qed.

Lemma digitVal_range c : isDigit c = true -> (0 <= digitVal c <= 9)%Z.
Proof. byte_cases c; intros _; vm_compute; split; discriminate. Qed.

Lemma digitsVal_acc_nonneg d :
  forallb isDigit d = true -> forall acc, (0 <= acc)%Z ->
  (0 <= fold_left (fun a c => 10 * a + digitVal c) d acc)%Z.
Proof.
  induction d as [|c d IH]; intros Hd acc Hacc; cbn [fold_left];
    [assumption|].
  simpl in Hd. apply andb_true_iff in Hd as [Hc Hd].
  apply IH; [assumption|]. pose proof (digitVal_range c Hc). lia.
Qed.

Lemma digitsVal_nonneg d : forallb isDigit d = true -> (0 <= digitsVal d)%Z.
Proof. intros H. apply digitsVal_acc_nonneg; [assumption | lia]. Qed.

Lemma digitLoop_cons c l :
  isDigit c = true ->
  digitLoop (c :: l) =
  if (c =? "0") && match l with c' :: _ => isX c' | [] => false end
  then None else option_map S (digitLoop l).
Proof. intros H. simpl. now rewrite H. Qed.

Lemma digitLoop_stop tail : stops isDigit tail = true -> digitLoop tail = Some 0.
Proof.
  destruct tail as [|c tl]; [reflexivity|]. simpl. intros H.
  apply negb_true_iff in H. now rewrite H.
Qed.

Lemma hexMark_cons c c' d tail :
  hexMark (c :: c' :: d) tail = hexMark (c' :: d) tail.
Proof. reflexivity. Qed.

Lemma digitLoop_run d tail :
  forallb isDigit d = true -> stops isDigit tail = true ->
  hexMark d tail = false -> digitLoop (d ++ tail) = Some (length d).
Proof.
  intros Hd Ht. induction d as [|c d IH]; intros Hm.
  - now apply digitLoop_stop.
  - simpl in Hd. apply andb_true_iff in Hd as [Hc Hd].
    cbn [app]. rewrite digitLoop_cons by assumption.
    destruct d as [|c' d'].
    + cbn [app]. unfold hexMark in Hm. cbn [last] in Hm. rewrite Hm.
      now rewrite digitLoop_stop.
    + cbn [app]. simpl in Hd. apply andb_true_iff in Hd as [Hc' Hd'].
      rewrite (isDigit_not_isX _ Hc'), andb_false_r.
      rewrite hexMark_cons in Hm.
      change (c' :: d' ++ tail) with ((c' :: d') ++ tail).
      rewrite IH; [reflexivity | | assumption].
      simpl. now rewrite Hc', Hd'.
Qed.

Lemma digitLoop_hexMark d tail :
  forallb isDigit d = true -> hexMark d tail = true ->
  digitLoop (d ++ tail) = None.
Proof.
  intros Hd. induction d as [|c d IH]; intros Hm.
  - discriminate.
  - simpl in Hd. apply andb_true_iff in Hd as [Hc Hd].
    cbn [app]. rewrite digitLoop_cons by assumption.
    destruct d as [|c' d'].
    + cbn [app]. unfold hexMark in Hm. cbn [last] in Hm. now rewrite Hm.
    + cbn [app]. simpl in Hd. apply andb_true_iff in Hd as [Hc' Hd'].
      rewrite (isDigit_not_isX _ Hc'), andb_false_r.
      rewrite hexMark_cons in Hm.
      change (c' :: d' ++ tail) with ((c' :: d') ++ tail).
      rewrite IH; [reflexivity | | assumption].
      simpl. now rewrite Hc', Hd'.
Qed.

Lemma ParseInt_unsigned c d :
  isDigit c = true ->
  ParseInt (c :: d) =
  if forallb isDigit (c :: d) then
    if (digitsVal (c :: d) <? 2 ^ 63)%Z then Some (digitsVal (c :: d))
    else None
  else None.
Proof. byte_cases c. Qed.

Lemma ParseInt_literal neg d :
  d <> [] -> forallb isDigit d = true ->
  ParseInt (signBytes neg ++ d) =
  if fitsInt64 (literalValue neg d) then Some (literalValue neg d) else None.
Proof.
  intros Hne Hd. pose proof (digitsVal_nonneg d Hd) as Hpos.
  destruct d as [|c d']; [congruence|].
  assert (Hc : isDigit c = true)
    by (simpl in Hd; now apply andb_true_iff in Hd as [? _]).
  unfold fitsInt64, literalValue, minInt64, maxInt64.
  destruct neg.
  - unfold ParseInt. cbn [signBytes app]. rewrite Hd.
    destruct (Z.leb_spec (digitsVal (c :: d')) (2 ^ 63));
      destruct (Z.leb_spec (- 2 ^ 63) (- digitsVal (c :: d')));
      destruct (Z.leb_spec (- digitsVal (c :: d')) (2 ^ 63 - 1));
      try reflexivity; lia.
  - cbn [signBytes app]. rewrite (ParseInt_unsigned c d' Hc), Hd.
    destruct (Z.ltb_spec (digitsVal (c :: d')) (2 ^ 63));
      destruct (Z.leb_spec (- 2 ^ 63) (digitsVal (c :: d')));
      destruct (Z.leb_spec (digitsVal (c :: d')) (2 ^ 63 - 1));
      try reflexivity; lia.
Qed.

Section IntLiteral.

Variables (buf : buffer) (off : nat) (neg : bool) (d tail : buffer).
Hypothesis Hrest : rest buf off = signBytes neg ++ d ++ tail.
Hypothesis Hd : forallb isDigit d = true.
Hypothesis Htail : stops isDigit tail = true.

Let start := skipWsAndComments buf off.

(** The test for the sign sees the minus and nothing else. *)
Lemma intLiteral_sign :
  d <> [] ->
  skipn match rest buf off with "-" :: _ => 1 | _ => 0 end (rest buf off)
    = d ++ tail /\
  match rest buf off with "-" :: _ => 1 | _ => 0 end = length (signBytes neg).
Proof.
  intros Hne. rewrite Hrest. destruct neg; cbn [signBytes app].
  - now split.
  - destruct d as [|c d']; [congruence|].
    assert (Hc : isDigit c = true)
      by (simpl in Hd; now apply andb_true_iff in Hd as [? _]).
    cbn [app]. revert Hc. clear. byte_cases c; intros _; now split.
Qed.

Lemma scanIntLiteral_value :
  d <> [] -> hexMark d tail = false ->
  scanIntLiteral buf off =
  if fitsInt64 (literalValue neg d)
  then Some (literalValue neg d, start + length (signBytes neg) + length d)
  else None.
Proof.
  intros Hne Hm. unfold scanIntLiteral. fold start.
  change (skipn start buf) with (rest buf off).
  destruct (intLiteral_sign Hne) as [E1 E2]. rewrite E1, E2.
  rewrite digitLoop_run by assumption.
  destruct d as [|c d'] eqn:Ed; [congruence|].
  cbn [length Nat.ltb Nat.leb]. rewrite <- Ed in *.
  rewrite Hrest, app_assoc.
  replace (length (signBytes neg) + S (length d'))
    with (length (signBytes neg ++ d))
    by (rewrite length_app, Ed; reflexivity).
  rewrite firstn_app, Nat.sub_diag, firstn_all. cbn [firstn].
  rewrite app_nil_r, ParseInt_literal by assumption.
  destruct (fitsInt64 (literalValue neg d)); [|reflexivity].
  now rewrite Ed.
Qed.

Lemma scanIntLiteral_hexMark :
  hexMark d tail = true -> scanIntLiteral buf off = None.
Proof.
  intros Hm. unfold scanIntLiteral. fold start.
  change (skipn start buf) with (rest buf off).
  assert (Hne : d <> []) by (intros ->; discriminate).
  destruct (intLiteral_sign Hne) as [E1 E2]. rewrite E1.
  now rewrite digitLoop_hexMark.
Qed.

End IntLiteral.

(** Without a digit after the optional minus there is no literal. *)
Lemma scanIntLiteral_no_digit buf off :
  stops isDigit
    (skipn match rest buf off with "-" :: _ => 1 | _ => 0 end (rest buf off))
    = true ->
  scanIntLiteral buf off = None.
Proof.
  intros H. unfold scanIntLiteral.
  change (skipn (skipWsAndComments buf off) buf) with (rest buf off).
  now rewrite digitLoop_stop.
Qed.

(** ** Fuel *)

Lemma le_result_refl {A} (r : result A) : le_result r r.
Proof. now intros _. Qed.

Lemma le_result_fuel {A} (r : result A) : le_result OutOfFuel r.
Proof. now intros H. Qed.

Lemma le_bind {A B} (m m' : result A) (k k' : A -> result B) :
  le_result m m' -> (forall a, le_result (k a) (k' a)) ->
  le_result (bind m k) (bind m' k').
Proof.
  intros Hm Hk. destruct m as [a| e |]; cbn [bind].
  - rewrite Hm by discriminate. apply Hk.
  - rewrite Hm by discriminate. apply le_result_refl.
  - apply le_result_fuel.
Qed.

(** One step of a monotonicity proof: a bind, a case analysis on a value
    that does not depend on the fuel, or a recursive call. *)
Ltac mono_step :=
  first
    [ apply le_result_refl
    | apply le_result_fuel
    | solve [auto]
    | apply le_bind; [| intros ?]
    | match goal with
      | |- le_result (match ?x with _ => _ end) _ => destruct x
      end ].

Section ExprFuel.

Variable ops : list binaryOp.
Variable buf : buffer.

Lemma parseExpr_S fuel pos :
  parseExpr ops buf (S fuel) pos =
  ('(expr, pos) <- parseUnaryExpr ops buf fuel pos ;;
   r <- parseExprCont ops buf fuel expr 0%Z pos ;;
   match r with
   | None => Panic (mkParserErr buf (-1) "expected expression" [])
   | Some (expr2, pos) => Ok (expr2, pos)
   end).
Proof. reflexivity. Qed.

Lemma parseUnaryExpr_S fuel pos :
  parseUnaryExpr ops buf (S fuel) pos =
  match scanUnaryOp buf pos with
  | None => parseExpr2 ops buf fuel pos
  | Some (op, pos) =>
    '(expr, pos) <- parseUnaryExpr ops buf fuel pos ;;
    Ok (unaryExpr op expr, pos)
  end.
Proof. reflexivity. Qed.

Lemma parseExprCont_S fuel lhs minPrecedence pos :
  parseExprCont ops buf (S fuel) lhs minPrecedence pos =
  match scanBinaryOp ops buf pos with
  | None => Ok (Some (lhs, pos))
  | Some (op, pos') =>
    if (precedence op <? minPrecedence)%Z then Ok (Some (lhs, pos))
    else
      '(rhs, pos) <- parseUnaryExpr ops buf fuel pos' ;;
      r <- parseExprContRhs ops buf fuel op rhs pos ;;
      match r with
      | None => Ok None
      | Some (rhs, pos) =>
        parseExprCont ops buf fuel (binaryExpr lhs rhs op) minPrecedence pos
      end
  end.
Proof. reflexivity. Qed.

Lemma parseExprContRhs_S fuel op rhs pos :
  parseExprContRhs ops buf (S fuel) op rhs pos =
  match scanBinaryOp ops buf pos with
  | None => Ok (Some (rhs, pos))
  | Some (op2, _) =>
    if (precedence op2 <=? precedence op)%Z then Ok (Some (rhs, pos))
    else
      r <- parseExprCont ops buf fuel rhs (precedence op2) pos ;;
      match r with
      | None => Ok None
      | Some (rhs, pos) => parseExprContRhs ops buf fuel op rhs pos
      end
  end.
Proof. reflexivity. Qed.

Lemma parseExpr2_S fuel pos :
  parseExpr2 ops buf (S fuel) pos =
  (r <- scanLiteralExpr buf pos ;;
   match r with
   | Some (expr, pos) => Ok (expr, pos)
   | None => parseExpr3 ops buf fuel pos
   end).
Proof. reflexivity. Qed.

Lemma parseExpr3_S fuel pos :
  parseExpr3 ops buf (S fuel) pos =
  ('(e, pos) <- parseExpr4 ops buf fuel pos ;;
   if peekTok buf pos "(" then
     '(a, pos) <- parseArgs ops buf fuel pos ;;
     Ok (callExpr e a, pos)
   else Ok (e, pos)).
Proof. reflexivity. Qed.

Lemma parseExpr4_S fuel pos :
  parseExpr4 ops buf (S fuel) pos =
  if peekTok buf pos "(" then
    pos <- consumeTok buf pos "(" ;;
    '(e, pos) <- parseExpr ops buf fuel pos ;;
    pos <- consumeTok buf pos ")" ;;
    Ok (e, pos)
  else if peekTok buf pos "[" then
    pos <- consumeTok buf pos "[" ;;
    '(elts, pos) <- parseEltsLoop ops buf fuel "]" true [] pos ;;
    pos <- consumeTok buf pos "]" ;;
    Ok (listExpr elts, pos)
  else
    '(name, pos) <- consumeIdentifier buf pos ;;
    Ok (varRef name, pos).
Proof. reflexivity. Qed.

Lemma parseArgs_S fuel pos :
  parseArgs ops buf (S fuel) pos =
  (pos <- consumeTok buf pos "(" ;;
   '(exprs, pos) <- parseEltsLoop ops buf fuel ")" true [] pos ;;
   pos <- consumeTok buf pos ")" ;;
   Ok (exprs, pos)).
Proof. reflexivity. Qed.

Lemma parseEltsLoop_S fuel close first elts pos :
  parseEltsLoop ops buf (S fuel) close first elts pos =
  if peekTok buf pos close then Ok (elts, pos)
  else
    pos <- (if first then Ok pos else consumeTok buf pos ",") ;;
    '(e, pos) <- parseExpr ops buf fuel pos ;;
    parseEltsLoop ops buf fuel close false (elts ++ [e]) pos.
Proof. reflexivity. Qed.

Lemma expr_mono n : forall m, n <= m -> exprMono ops buf n m.
Proof.
  induction n as [|n IH]; intros m Hm.
  - repeat split; intros; apply le_result_fuel.
  - destruct m as [|m]; [lia|].
    destruct (IH m ltac:(lia)) as
      (IH1 & IH2 & IH3 & IH4 & IH5 & IH6 & IH7 & IH8 & IH9).
    repeat split; intros.
    + rewrite !parseExpr_S. repeat mono_step.
    + rewrite !parseUnaryExpr_S. repeat mono_step.
    + rewrite !parseExprCont_S. repeat mono_step.
    + rewrite !parseExprContRhs_S. repeat mono_step.
    + rewrite !parseExpr2_S. repeat mono_step.
    + rewrite !parseExpr3_S. repeat mono_step.
    + rewrite !parseExpr4_S. repeat mono_step.
    + rewrite !parseArgs_S. repeat mono_step.
    + rewrite !parseEltsLoop_S. repeat mono_step.
Qed.

Lemma parseExpr_mono n m pos r :
  parseExpr ops buf n pos = r -> r <> OutOfFuel -> n <= m ->
  parseExpr ops buf m pos = r.
Proof.
  intros E Hr Hm. destruct (expr_mono n m Hm) as (H & _).
  subst r. now apply H.
Qed.

Lemma parseUnaryExpr_mono n m pos r :
  parseUnaryExpr ops buf n pos = r -> r <> OutOfFuel -> n <= m ->
  parseUnaryExpr ops buf m pos = r.
Proof.
  intros E Hr Hm. destruct (expr_mono n m Hm) as (_ & H & _).
  subst r. now apply H.
Qed.

Lemma parseExprCont_mono n m lhs p pos r :
  parseExprCont ops buf n lhs p pos = r -> r <> OutOfFuel -> n <= m ->
  parseExprCont ops buf m lhs p pos = r.
Proof.
  intros E Hr Hm. destruct (expr_mono n m Hm) as (_ & _ & H & _).
  subst r. now apply H.
Qed.

End ExprFuel.

(** ** Tokens at a known byte *)

Lemma scanTok_char buf pos c l t :
  rest buf pos = c :: l ->
  scanTok buf pos (String t EmptyString) =
  if c =? t then Some (skipWsAndComments buf pos + 1) else None.
Proof.
  intros H. unfold scanTok.
  change (skipn (skipWsAndComments buf pos) buf) with (rest buf pos).
  rewrite H. cbn [bytesOf list_ascii_of_string hasPrefix length].
  now rewrite andb_true_r.
Qed.

Lemma peekTok_char buf pos c l t :
  rest buf pos = c :: l ->
  peekTok buf pos (String t EmptyString) = (c =? t).
Proof.
  intros H. unfold peekTok. rewrite (scanTok_char buf pos c l t H).
  now destruct (c =? t).
Qed.

Lemma scanTok_nil buf pos t s :
  rest buf pos = [] -> scanTok buf pos (String t s) = None.
Proof.
  intros H. unfold scanTok.
  change (skipn (skipWsAndComments buf pos) buf) with (rest buf pos).
  now rewrite H.
Qed.

(** The offset just after a prefix of the remaining bytes, when the
    next byte is not skipped. *)
Lemma rest_after buf pos pre c l :
  rest buf pos = pre ++ c :: l -> isSpace c = false -> c <> "/" ->
  skipWsAndComments buf (skipWsAndComments buf pos + length pre)
    = skipWsAndComments buf pos + length pre /\
  rest buf (skipWsAndComments buf pos + length pre) = c :: l.
Proof.
  intros H Hs Hc.
  assert (E : skipn (skipWsAndComments buf pos + length pre) buf = c :: l).
  { rewrite rest_skipn, H, skipn_app, Nat.sub_diag, skipn_all.
    reflexivity. }
  assert (E' : skipWsAndComments buf (skipWsAndComments buf pos + length pre)
               = skipWsAndComments buf pos + length pre).
  { unfold skipWsAndComments at 1. rewrite E, skipLoop_nonspace; auto. }
  split; [assumption|]. unfold rest. now rewrite E'.
Qed.

Lemma scanIdentifier_none buf pos c l :
  rest buf pos = c :: l -> isIDChar c true = false ->
  scanIdentifier buf pos = None.
Proof.
  intros H Hc. unfold scanIdentifier.
  change (skipn (skipWsAndComments buf pos) buf) with (rest buf pos).
  rewrite H. cbn [idLoop]. now rewrite Hc.
Qed.

Lemma scanBoolLiteral_none buf pos :
  scanIdentifier buf pos = None -> scanBoolLiteral buf pos = None.
Proof.
  intros H. unfold scanBoolLiteral, scanKeyword.
  rewrite !scanIdentifier_skip, H.
  now destruct (length buf <=? skipWsAndComments buf pos)%nat.
Qed.

Lemma scanStrLiteral_none buf pos c l :
  rest buf pos = c :: l -> (c =? "'") || (c =? dquote) = false ->
  scanStrLiteral buf pos = Ok None.
Proof.
  intros H Hc. unfold scanStrLiteral.
  change (skipn (skipWsAndComments buf pos) buf) with (rest buf pos).
  now rewrite H, Hc.
Qed.

Lemma isHexDigit_facts c :
  isHexDigit c = true ->
  (c =? "'") || (c =? dquote) = false /\ (c =? "-") = false /\
  (c =? "!") = false /\ (c =? "(") = false /\ (c =? "[") = false /\
  isSpace c = false /\ c <> "/".
Proof. byte_cases c; intros _; repeat split; discriminate. Qed.

Lemma isDigit_facts c :
  isDigit c = true ->
  (c =? "'") || (c =? dquote) = false /\ (c =? "-") = false /\
  (c =? "!") = false /\ (c =? "(") = false /\ (c =? "[") = false /\
  isSpace c = false /\ c <> "/".
Proof. intros H. now apply isHexDigit_facts, isDigit_isHexDigit. Qed.

(** ** Operands that begin with a digit *)

Section Operand.

Variable ops : list binaryOp.
Variable buf : buffer.

Lemma scanLiteralExpr_int pos v p :
  scanIntLiteral buf pos = Some (v, p) ->
  scanLiteralExpr buf pos = Ok (Some (integerLiteral v, p)).
Proof.
  intros H. unfold scanLiteralExpr. now rewrite scanIntLiteral_skip, H.
Qed.

(** A literal the integer scanner accepts is the whole operand. *)
Lemma parseUnaryExpr_int fuel pos v p :
  scanIntLiteral buf pos = Some (v, p) ->
  parseUnaryExpr ops buf (S (S fuel)) pos = Ok (integerLiteral v, p).
Proof.
  intros H. rewrite parseUnaryExpr_S. unfold scanUnaryOp. rewrite H.
  rewrite parseExpr2_S, (scanLiteralExpr_int pos v p H). reflexivity.
Qed.

Lemma scanUnaryOp_digit pos c l :
  rest buf pos = c :: l -> isDigit c = true -> scanUnaryOp buf pos = None.
Proof.
  intros H Hc. unfold scanUnaryOp.
  destruct (scanIntLiteral buf pos); [reflexivity|].
  destruct (isDigit_facts c Hc) as (_ & Hm & Hb & _).
  unfold unaryOps, scanUnaryOps, unaryOp_op.
  rewrite (scanTok_char buf pos c l "-" H), Hm.
  rewrite (scanTok_char buf pos c l "!" H), Hb. reflexivity.
Qed.

(** When the integer scanner and the bytes scanner both decline at a
    digit, nothing else can begin there. *)
Lemma parseUnaryExpr_digit_declined fuel pos c l :
  rest buf pos = c :: l -> isDigit c = true ->
  scanIntLiteral buf pos = None -> scanBytesLiteral buf pos = Ok None ->
  parseUnaryExpr ops buf (4 + fuel) pos
    = Panic (parseErr buf pos "expected identifier" []).
Proof.
  intros H Hc Hint Hbytes.
  destruct (isDigit_facts c Hc) as (Hq & _ & _ & Hp & Hb & _).
  pose proof (scanIdentifier_none buf pos c l H (isDigit_not_initial c Hc))
    as Hid.
  change (4 + fuel) with (S (S (S (S fuel)))).
  rewrite parseUnaryExpr_S, (scanUnaryOp_digit pos c l H Hc).
  rewrite parseExpr2_S. unfold scanLiteralExpr.
  rewrite scanIntLiteral_skip, Hint.
  rewrite scanStrLiteral_skip, (scanStrLiteral_none buf pos c l H Hq).
  cbn [bind]. rewrite scanBytesLiteral_skip, Hbytes. cbn [bind].
  rewrite scanBoolLiteral_skip, (scanBoolLiteral_none buf pos Hid).
  rewrite parseExpr3_S, parseExpr4_S.
  rewrite (peekTok_char buf pos c l "(" H), Hp.
  rewrite (peekTok_char buf pos c l "[" H), Hb.
  unfold consumeIdentifier. rewrite Hid. reflexivity.
Qed.

End Operand.

Lemma scanBytesLiteral_not_x buf pos c0 c1 l :
  rest buf pos = c0 :: c1 :: l -> isX c1 = false ->
  scanBytesLiteral buf pos = Ok None.
Proof.
  intros H Hx. unfold scanBytesLiteral.
  destruct (length buf <=? skipWsAndComments buf pos + 4)%nat;
    [reflexivity|].
  change (skipn (skipWsAndComments buf pos) buf) with (rest buf pos).
  rewrite H. destruct l as [|c2 [|c3 l']]; try reflexivity.
  unfold isX in Hx. apply orb_false_iff in Hx as [-> ->].
  cbn [negb andb]. now rewrite orb_true_r.
Qed.

Lemma single_digit_fits neg c :
  isDigit c = true -> fitsInt64 (literalValue neg [c]) = true.
Proof.
  intros Hc. pose proof (digitVal_range c Hc) as R.
  unfold fitsInt64, literalValue, digitsVal, minInt64, maxInt64.
  cbn [fold_left].
  apply andb_true_iff. destruct neg; split; apply Z.leb_le; lia.
Qed.

Lemma unfit_negative_unfit d :
  forallb isDigit d = true ->
  fitsInt64 (literalValue true d) = false ->
  fitsInt64 (literalValue false d) = false.
Proof.
  intros Hd H. pose proof (digitsVal_nonneg d Hd) as P.
  unfold fitsInt64, literalValue, minInt64, maxInt64 in *.
  apply andb_false_iff in H. apply andb_false_iff.
  destruct H as [H|H]; apply Z.leb_gt in H; right; apply Z.leb_gt; lia.
Qed.

Section Overflow.

Variable ops : list binaryOp.
Variable buf : buffer.

(** An unsigned run of digits whose value is not a signed 64-bit value
    ends the parse of the operand. *)
Lemma parseUnaryExpr_unfit_unsigned fuel pos d tail :
  rest buf pos = d ++ tail ->
  forallb isDigit d = true -> stops isDigit tail = true ->
  fitsInt64 (literalValue false d) = false ->
  scanIntLiteral buf pos = None /\
  parseUnaryExpr ops buf (4 + fuel) pos
    = Panic (parseErr buf pos "expected identifier" []).
Proof.
  intros Hrest Hd Ht Hfit.
  destruct d as [|c [|c' d']].
  - discriminate.
  - simpl in Hd. rewrite andb_true_r in Hd.
    now rewrite single_digit_fits in Hfit.
  - assert (Hint : scanIntLiteral buf pos = None).
    { destruct (hexMark (c :: c' :: d') tail) eqn:Hm.
      - now apply (scanIntLiteral_hexMark buf pos false (c :: c' :: d') tail).
      - rewrite (scanIntLiteral_value buf pos false (c :: c' :: d') tail);
          auto; [now rewrite Hfit | discriminate]. }
    split; [assumption|].
    destruct (forallb_cons2 _ _ _ _ Hd) as (Hc & Hc' & _).
    apply (parseUnaryExpr_digit_declined ops buf fuel pos c
             ((c' :: d') ++ tail)); auto.
    apply (scanBytesLiteral_not_x buf pos c c' (d' ++ tail)); auto.
    now apply isDigit_not_isX.
Qed.

Lemma scanUnaryOp_minus pos l :
  rest buf pos = "-" :: l -> scanIntLiteral buf pos = None ->
  scanUnaryOp buf pos = Some (mkUnaryOp "-", skipWsAndComments buf pos + 1).
Proof.
  intros H Hint. unfold scanUnaryOp. rewrite Hint.
  unfold unaryOps, scanUnaryOps, unaryOp_op.
  now rewrite (scanTok_char buf pos "-" l "-" H).
Qed.

Lemma parseUnaryExpr_unfit fuel pos neg d tail :
  rest buf pos = signBytes neg ++ d ++ tail ->
  forallb isDigit d = true -> stops isDigit tail = true ->
  fitsInt64 (literalValue neg d) = false ->
  scanIntLiteral buf pos = None /\
  parseUnaryExpr ops buf (5 + fuel) pos
    = Panic (parseErr buf (unfitErrorPos buf pos neg)
               "expected identifier" []).
Proof.
  intros Hrest Hd Ht Hfit. destruct neg; cbn [signBytes app] in Hrest.
  - assert (Hint : scanIntLiteral buf pos = None).
    { destruct (hexMark d tail) eqn:Hm.
      - now apply (scanIntLiteral_hexMark buf pos true d tail).
      - rewrite (scanIntLiteral_value buf pos true d tail); auto;
          [now rewrite Hfit | intros ->; discriminate]. }
    split; [assumption|].
    destruct d as [|c d']; [discriminate|].
    assert (Hc : isDigit c = true)
      by (simpl in Hd; now apply andb_true_iff in Hd as [? _]).
    destruct (isDigit_facts c Hc) as (_ & _ & _ & _ & _ & Hs & Hsl).
    destruct (rest_after buf pos ["-"] c (d' ++ tail) Hrest Hs Hsl)
      as [_ Hrest'].
    cbn [length] in Hrest'.
    change (5 + fuel) with (S (4 + fuel)).
    rewrite parseUnaryExpr_S, (scanUnaryOp_minus pos _ Hrest Hint).
    destruct (parseUnaryExpr_unfit_unsigned fuel _ (c :: d') tail
                Hrest' Hd Ht (unfit_negative_unfit _ Hd Hfit)) as [_ ->].
    reflexivity.
  - destruct (parseUnaryExpr_unfit_unsigned fuel pos d tail
                Hrest Hd Ht Hfit) as [Hint Hp].
    split; [assumption|].
    apply (parseUnaryExpr_mono ops buf (4 + fuel)); auto; [discriminate|lia].
Qed.

End Overflow.

(** ** Fuel, for statements, clauses and contracts *)

Section StmtFuel.

Variable ops : list binaryOp.
Variable types : string -> option typeDesc.
Variable imports : buffer -> nat -> result (list Contract * nat).
Variable buf : buffer.

Lemma parseStatements_S fuel statements pos :
  parseStatements ops types buf (S fuel) statements pos =
  if peekTok buf pos "}" then Ok (statements, pos)
  else
    '(s, pos) <- parseStatement ops types buf fuel pos ;;
    parseStatements ops types buf fuel (statements ++ [s]) pos.
Proof. reflexivity. Qed.

Lemma parseStatement_S fuel pos :
  parseStatement ops types buf (S fuel) pos =
  let kw := peekKeyword buf pos in
  if (kw =? "if")%string then parseIfStmt ops types buf fuel pos
  else if (kw =? "define")%string then parseDefineStmt ops types buf fuel pos
  else if (kw =? "assign")%string then parseAssignStmt ops buf fuel pos
  else if (kw =? "verify")%string then parseVerifyStmt ops buf fuel pos
  else if (kw =? "lock")%string then parseLockStmt ops buf fuel pos
  else if (kw =? "unlock")%string then parseUnlockStmt ops buf fuel pos
  else Panic (parseErr buf pos unknownKeyword [peekKeyword buf pos]).
Proof. reflexivity. Qed.

Lemma parseIfStmt_S fuel pos :
  parseIfStmt ops types buf (S fuel) pos =
  (pos <- consumeKeyword buf pos "if" ;;
   '(condition, pos) <- parseExpr ops buf fuel pos ;;
   pos <- consumeTok buf pos "{" ;;
   '(trueBody, pos) <- parseStatements ops types buf fuel [] pos ;;
   pos <- consumeTok buf pos "}" ;;
   if (peekKeyword buf pos =? "else")%string then
     pos <- consumeKeyword buf pos "else" ;;
     pos <- consumeTok buf pos "{" ;;
     '(falseBody, pos) <- parseStatements ops types buf fuel [] pos ;;
     pos <- consumeTok buf pos "}" ;;
     Ok (ifStatement condition trueBody falseBody, pos)
   else Ok (ifStatement condition trueBody [], pos)).
Proof. reflexivity. Qed.

Lemma parseNamesLoop_S fuel names pos :
  parseNamesLoop buf (S fuel) names pos =
  if peekTok buf pos "," then
    pos <- consumeTok buf pos "," ;;
    '(name, pos) <- consumeIdentifier buf pos ;;
    parseNamesLoop buf fuel (names ++ [name]) pos
  else Ok (names, pos).
Proof. reflexivity. Qed.

Lemma parseParamsLoop_S fuel first params pos :
  parseParamsLoop types buf (S fuel) first params pos =
  if peekTok buf pos ")" then Ok (params, pos)
  else
    pos <- (if first then Ok pos else consumeTok buf pos ",") ;;
    '(pt, pos) <- parseParamsType types buf fuel pos ;;
    parseParamsLoop types buf fuel false (params ++ pt) pos.
Proof. reflexivity. Qed.

Lemma parseClausesLoop_S fuel clauses pos :
  parseClausesLoop ops types buf (S fuel) clauses pos =
  if peekTok buf pos "}" then Ok (clauses, pos)
  else
    '(c, pos) <- parseClause ops types buf fuel pos ;;
    parseClausesLoop ops types buf fuel (clauses ++ [c]) pos.
Proof. reflexivity. Qed.

Lemma parseContractsLoop_S fuel acc pos :
  parseContractsLoop ops types buf (S fuel) acc pos =
  if (peekKeyword buf pos =? "contract")%string then
    '(contract, pos) <- parseContract ops types buf fuel pos ;;
    parseContractsLoop ops types buf fuel (acc ++ [contract]) pos
  else Ok (acc, pos).
Proof. reflexivity. Qed.

Lemma simple_stmt_mono n m :
  n <= m ->
  (forall pos, le_result (parseDefineStmt ops types buf n pos)
                         (parseDefineStmt ops types buf m pos)) /\
  (forall pos, le_result (parseAssignStmt ops buf n pos)
                         (parseAssignStmt ops buf m pos)) /\
  (forall pos, le_result (parseVerifyStmt ops buf n pos)
                         (parseVerifyStmt ops buf m pos)) /\
  (forall pos, le_result (parseLockStmt ops buf n pos)
                         (parseLockStmt ops buf m pos)) /\
  (forall pos, le_result (parseUnlockStmt ops buf n pos)
                         (parseUnlockStmt ops buf m pos)).
Proof.
  intros Hm. destruct (expr_mono ops buf n m Hm) as (E & _).
  repeat split; intros;
    unfold parseDefineStmt, parseAssignStmt, parseVerifyStmt,
      parseLockStmt, parseUnlockStmt;
    repeat mono_step.
Qed.

Lemma stmt_mono n : forall m, n <= m -> stmtMono ops types buf n m.
Proof.
  induction n as [|n IH]; intros m Hm.
  - repeat split; intros; apply le_result_fuel.
  - destruct m as [|m]; [lia|].
    destruct (IH m ltac:(lia)) as (IH1 & IH2 & IH3).
    destruct (expr_mono ops buf n m ltac:(lia)) as (E & _).
    destruct (simple_stmt_mono n m ltac:(lia)) as (D & A & V & L & U).
    repeat split; intros.
    + rewrite !parseStatements_S. repeat mono_step.
    + rewrite !parseStatement_S. cbv zeta. repeat mono_step.
    + rewrite !parseIfStmt_S. repeat mono_step.
Qed.

Lemma parseNamesLoop_mono n : forall m names pos,
  n <= m ->
  le_result (parseNamesLoop buf n names pos) (parseNamesLoop buf m names pos).
Proof.
  induction n as [|n IH]; intros m names pos Hm; [apply le_result_fuel|].
  destruct m as [|m]; [lia|].
  rewrite !parseNamesLoop_S. repeat mono_step. apply IH. lia.
Qed.

Lemma parseParamsType_mono n m pos :
  n <= m ->
  le_result (parseParamsType types buf n pos) (parseParamsType types buf m pos).
Proof.
  intros Hm. unfold parseParamsType.
  pose proof (fun names pos => parseNamesLoop_mono n m names pos Hm).
  repeat mono_step.
Qed.

Lemma parseParamsLoop_mono n : forall m first params pos,
  n <= m ->
  le_result (parseParamsLoop types buf n first params pos)
            (parseParamsLoop types buf m first params pos).
Proof.
  induction n as [|n IH]; intros m first params pos Hm;
    [apply le_result_fuel|].
  destruct m as [|m]; [lia|].
  rewrite !parseParamsLoop_S.
  pose proof (fun pos => parseParamsType_mono n m pos ltac:(lia)).
  pose proof (fun f p pos => IH m f p pos ltac:(lia)).
  repeat mono_step.
Qed.

Lemma parseParams_mono n m pos :
  n <= m ->
  le_result (parseParams types buf n pos) (parseParams types buf m pos).
Proof.
  intros Hm. unfold parseParams.
  pose proof (fun f p pos => parseParamsLoop_mono n m f p pos Hm).
  repeat mono_step.
Qed.

Lemma parseClause_mono n m pos :
  n <= m ->
  le_result (parseClause ops types buf n pos) (parseClause ops types buf m pos).
Proof.
  intros Hm. unfold parseClause.
  pose proof (fun pos => parseParams_mono n m pos Hm).
  destruct (stmt_mono n m Hm) as (S1 & _).
  repeat mono_step.
Qed.

Lemma parseClausesLoop_mono n : forall m clauses pos,
  n <= m ->
  le_result (parseClausesLoop ops types buf n clauses pos)
            (parseClausesLoop ops types buf m clauses pos).
Proof.
  induction n as [|n IH]; intros m clauses pos Hm; [apply le_result_fuel|].
  destruct m as [|m]; [lia|].
  rewrite !parseClausesLoop_S.
  pose proof (fun pos => parseClause_mono n m pos ltac:(lia)).
  pose proof (fun c pos => IH m c pos ltac:(lia)).
  repeat mono_step.
Qed.

Lemma parseContract_mono n m pos :
  n <= m ->
  le_result (parseContract ops types buf n pos)
            (parseContract ops types buf m pos).
Proof.
  intros Hm. unfold parseContract, parseClauses.
  pose proof (fun pos => parseParams_mono n m pos Hm).
  pose proof (fun c pos => parseClausesLoop_mono n m c pos Hm).
  repeat mono_step.
Qed.

Lemma parseContractsLoop_mono n : forall m acc pos,
  n <= m ->
  le_result (parseContractsLoop ops types buf n acc pos)
            (parseContractsLoop ops types buf m acc pos).
Proof.
  induction n as [|n IH]; intros m acc pos Hm; [apply le_result_fuel|].
  destruct m as [|m]; [lia|].
  rewrite !parseContractsLoop_S.
  pose proof (fun pos => parseContract_mono n m pos ltac:(lia)).
  pose proof (fun c pos => IH m c pos ltac:(lia)).
  repeat mono_step.
Qed.

Lemma parseContracts_mono n m pos :
  n <= m ->
  le_result (parseContracts ops types imports buf n pos)
            (parseContracts ops types imports buf m pos).
Proof.
  intros Hm. unfold parseContracts.
  pose proof (fun c pos => parseContractsLoop_mono n m c pos Hm).
  repeat mono_step.
Qed.

(** Once [parse] has answered, more fuel gives the same answer. *)
Lemma parse_mono n m r :
  parse ops types imports buf n = Ok r -> n <= m ->
  parse ops types imports buf m = Ok r.
Proof.
  unfold parse. intros H Hm.
  pose proof (parseContracts_mono n m 0 Hm) as L. unfold le_result in L.
  destruct (parseContracts ops types imports buf n 0) as [[c p]|e|];
    try discriminate; rewrite L by discriminate; assumption.
Qed.

End StmtFuel.

(** ** Lines and columns of an offset *)

Lemma lineCol_fold l :
  fold_left lineColStep l (1, 0)
  = (1 + count_occ ascii_dec l newline, length (untilNewline (rev l))).
Proof.
  induction l as [|c l IH] using rev_ind; [reflexivity|].
  rewrite fold_left_app, IH. cbn [fold_left].
  rewrite count_occ_app, rev_app_distr. cbn [rev app untilNewline].
  unfold lineColStep. cbn [fst snd count_occ].
  destruct (Ascii.eqb_spec c newline) as [->|Hc].
  - destruct (ascii_dec newline newline); [|congruence].
    f_equal. unfold byte. lia.
  - destruct (ascii_dec c newline); [congruence|].
    cbn [length]. f_equal. unfold byte. lia.
Qed.

Lemma lineCol_spec buf off :
  lineCol buf off = (1 + newlinesBefore buf off, bytesSinceNewline buf off).
Proof. apply lineCol_fold. Qed.

Lemma Error_format e :
  Error e =
  ("line " ++ decimal (1 + newlinesBefore (errBuf e) (offset e)) ++
   ", col " ++ decimal (bytesSinceNewline (errBuf e) (offset e)) ++
   ": " ++ Sprintf (format e) (map ArgStr (args e)))%string.
Proof. unfold Error. rewrite lineCol_spec. reflexivity. Qed.

(** ** Identifiers *)

Lemma idLoop_run l tail :
  forallb (fun c => isIDChar c false) l = true ->
  stops (fun c => isIDChar c false) tail = true ->
  idLoop false (l ++ tail) = length l.
Proof.
  intros Hl Ht. induction l as [|c l IH].
  - destruct tail as [|t tl]; [reflexivity|]. simpl in *.
    apply negb_true_iff in Ht. now rewrite Ht.
  - simpl in Hl. apply andb_true_iff in Hl as [Hc Hl].
    cbn [app idLoop length]. rewrite Hc. now rewrite IH.
Qed.

Lemma scanIdentifier_run buf pos w tail :
  isIdentifier w = true ->
  rest buf pos = bytesOf w ++ tail ->
  stops (fun c => isIDChar c false) tail = true ->
  scanIdentifier buf pos
    = Some (w, skipWsAndComments buf pos + String.length w).
Proof.
  intros Hw Hrest Ht. unfold scanIdentifier.
  change (skipn (skipWsAndComments buf pos) buf) with (rest buf pos).
  rewrite Hrest. unfold isIdentifier in Hw.
  rewrite <- length_bytesOf.
  destruct (bytesOf w) as [|c l] eqn:Ew; [discriminate|].
  apply andb_true_iff in Hw as [Hc Hl].
  cbn [app idLoop]. rewrite Hc, (idLoop_run l tail Hl Ht).
  cbn [Nat.eqb].
  change (c :: l ++ tail) with ((c :: l) ++ tail).
  replace (S (length l)) with (length (c :: l)) by reflexivity.
  rewrite firstn_app, Nat.sub_diag, firstn_all. cbn [firstn].
  rewrite app_nil_r, <- Ew, stringOf_bytesOf. reflexivity.
Qed.

(** ** Literals at a byte that begins an identifier *)

Lemma scanIntLiteral_other buf pos c l :
  rest buf pos = c :: l -> c <> "-" -> isDigit c = false ->
  scanIntLiteral buf pos = None.
Proof.
  intros Hr Hc Hd. apply scanIntLiteral_no_digit. rewrite Hr.
  replace (match c :: l with "-" :: _ => 1 | _ => 0 end) with 0.
  - cbn [skipn stops]. now rewrite Hd.
  - revert Hc. clear. byte_cases c. intros H. now elim H.
Qed.

Lemma scanBytesLiteral_first buf pos :
  scanBytesLiteral buf pos <> Ok None ->
  exists x l, rest buf pos = "0" :: x :: l /\ isX x = true.
Proof.
  unfold scanBytesLiteral.
  destruct (length buf <=? skipWsAndComments buf pos + 4)%nat; [congruence|].
  change (skipn (skipWsAndComments buf pos) buf) with (rest buf pos).
  destruct (rest buf pos) as [|c0 [|c1 [|c2 [|c3 l]]]]; try congruence.
  destruct (Ascii.eqb_spec c0 "0") as [->|]; cbn [negb orb];
    [|intros H; now elim H].
  destruct (isX c1) eqn:Ex; [intros _; now exists c1, (c2 :: c3 :: l)|].
  unfold isX in Ex. apply orb_false_iff in Ex as [-> ->].
  intros H; now elim H.
Qed.

Lemma scanBytesLiteral_other buf pos :
  (forall x l, rest buf pos = "0" :: x :: l -> isX x = false) ->
  scanBytesLiteral buf pos = Ok None.
Proof.
  intros H. destruct (scanBytesLiteral buf pos) as [[r|]| |] eqn:E;
    try reflexivity;
    destruct (scanBytesLiteral_first buf pos) as (x & l & Hr & Hx);
    try (rewrite E; discriminate);
    rewrite (H x l Hr) in Hx; discriminate.
Qed.

Lemma scanIdentifier_nonempty buf pos r :
  scanIdentifier buf pos = Some r ->
  (length buf <=? skipWsAndComments buf pos)%nat = false /\
  exists c l, rest buf pos = c :: l /\ isIDChar c true = true.
Proof.
  unfold scanIdentifier.
  change (skipn (skipWsAndComments buf pos) buf) with (rest buf pos).
  destruct (rest buf pos) as [|c l] eqn:E; [discriminate|].
  cbn [idLoop]. destruct (isIDChar c true) eqn:Ec; [|discriminate].
  intros _. split; [|now exists c, l].
  pose proof (rest_length buf pos _ E ltac:(discriminate)) as L.
  apply Nat.leb_gt. simpl in L. lia.
Qed.

(** The literal scanner where an identifier begins: the words true and
    false are the boolean literals, and nothing else is a literal. *)
Lemma scanLiteralExpr_identifier buf pos w q :
  scanIdentifier buf pos = Some (w, q) ->
  scanLiteralExpr buf pos =
  if (w =? "true")%string then Ok (Some (booleanLiteral true, q))
  else if (w =? "false")%string then Ok (Some (booleanLiteral false, q))
  else Ok None.
Proof.
  intros Hs.
  destruct (scanIdentifier_nonempty buf pos _ Hs) as (Hl & c & l & Hr & Hc).
  unfold scanLiteralExpr.
  rewrite scanIntLiteral_skip, scanStrLiteral_skip, scanBytesLiteral_skip,
    scanBoolLiteral_skip.
  rewrite (scanIntLiteral_other buf pos c l Hr)
    by (revert Hc; clear; byte_cases c).
  rewrite (scanStrLiteral_none buf pos c l Hr)
    by (revert Hc; clear; byte_cases c).
  cbn [bind]. rewrite scanBytesLiteral_other.
  2:{ intros x l' Hr'. rewrite Hr in Hr'. injection Hr' as -> ->.
      discriminate. }
  cbn [bind]. unfold scanBoolLiteral. rewrite Hl, !scanKeyword_skip.
  unfold scanKeyword. rewrite Hs.
  destruct (w =? "true")%string; [reflexivity|].
  now destruct (w =? "false")%string.
Qed.

(** * Termination and the shape of errors *)

(** ** The offsets the scanners return *)

Lemma scanTok_range buf pos tok p :
  pos <= length buf -> scanTok buf pos tok = Some p ->
  p = skipWsAndComments buf pos + String.length tok /\ p <= length buf.
Proof.
  intros Hpos. unfold scanTok.
  destruct (hasPrefix (skipn (skipWsAndComments buf pos) buf) (bytesOf tok))
    eqn:E; [|discriminate].
  intros [= <-]. rewrite length_bytesOf. split; [reflexivity|].
  apply hasPrefix_inv in E as [tl E].
  assert (L : length (skipn (skipWsAndComments buf pos) buf)
              = length (bytesOf tok ++ tl)) by now rewrite E.
  rewrite length_skipn, length_app, length_bytesOf in L.
  pose proof (skip_le buf pos Hpos). lia.
Qed.

Lemma idLoop_le b l : idLoop b l <= length l.
Proof.
  revert b. induction l as [|c l IH]; intros b; simpl; [lia|].
  destruct (isIDChar c b); [|lia]. specialize (IH false). lia.
Qed.

Lemma scanIdentifier_range buf pos id p :
  pos <= length buf -> scanIdentifier buf pos = Some (id, p) ->
  pos < p <= length buf.
Proof.
  intros Hpos. unfold scanIdentifier.
  pose proof (idLoop_le true (skipn (skipWsAndComments buf pos) buf)) as L.
  rewrite length_skipn in L.
  destruct (Nat.eqb_spec (idLoop true (skipn (skipWsAndComments buf pos) buf))
              0) as [|Hn]; [discriminate|].
  intros [= _ <-].
  pose proof (skip_le buf pos Hpos). pose proof (skip_ge buf pos). lia.
Qed.

Lemma scanKeyword_range buf pos k p :
  pos <= length buf -> scanKeyword buf pos k = Some p ->
  pos < p <= length buf.
Proof.
  intros Hpos. unfold scanKeyword.
  destruct (scanIdentifier buf pos) as [[id q]|] eqn:E; [|discriminate].
  destruct (negb (id =? k)%string); [discriminate|].
  intros [= <-]. now apply (scanIdentifier_range buf pos id).
Qed.

Lemma digitLoop_le l n : digitLoop l = Some n -> n <= length l.
Proof.
  revert n. induction l as [|c l IH]; intros n; simpl.
  - intros [= <-]. lia.
  - destruct (isDigit c); [|intros [= <-]; lia].
    destruct ((c =? "0") && _); [discriminate|].
    destruct (digitLoop l) as [k|]; [|discriminate].
    intros [= <-]. specialize (IH k eq_refl). lia.
Qed.

Lemma scanIntLiteral_range buf pos v p :
  pos <= length buf -> scanIntLiteral buf pos = Some (v, p) ->
  pos < p <= length buf.
Proof.
  intros Hpos. unfold scanIntLiteral.
  set (start := skipWsAndComments buf pos).
  set (l := skipn start buf).
  set (sign := match l with "-" :: _ => 1 | _ => 0 end).
  destruct (digitLoop (skipn sign l)) as [n|] eqn:E; [|discriminate].
  destruct (Nat.ltb_spec 0 n) as [Hn|]; [|discriminate].
  destruct (ParseInt (firstn (sign + n) l)); [|discriminate].
  intros [= _ <-].
  apply digitLoop_le in E. rewrite length_skipn in E.
  assert (Hl : length l = length buf - start)
    by (unfold l; apply length_skipn).
  pose proof (skip_le buf pos Hpos). pose proof (skip_ge buf pos).
  fold start in H, H0.
  assert (sign <= length l).
  { unfold sign. destruct l as [|c tl]; [lia|].
    simpl. clear. byte_cases c; lia. }
  lia.
Qed.

Lemma strLoop_range q n : forall l acc consumed b m,
  length l <= n ->
  strLoop q l acc consumed = Some (b, m) ->
  consumed < m <= consumed + length l.
Proof.
  induction n as [|n IH]; intros l acc consumed b m Hl.
  - destruct l; [discriminate | simpl in Hl; lia].
  - destruct l as [|c l']; [discriminate|]. simpl in Hl.
    cbn [strLoop]. destruct (c =? q); [intros [= _ <-]; simpl; lia|].
    destruct l' as [|c' l''].
    + discriminate.
    + destruct ((c =? "\") && snd (scanEscape c')); intros H;
        apply IH in H; simpl in *; lia.
Qed.

Lemma parseErr_ok buf off fmt a :
  off <= length buf ->
  errBuf (parseErr buf off fmt a) = buf /\
  (0 <= offset (parseErr buf off fmt a) <= Z.of_nat (length buf))%Z.
Proof. intros H. simpl. split; [reflexivity | lia]. Qed.

Lemma scanStrLiteral_range buf pos :
  pos <= length buf ->
  match scanStrLiteral buf pos with
  | Ok (Some (_, p)) => pos < p <= length buf
  | Ok None => True
  | Panic e =>
    errBuf e = buf /\ (0 <= offset e <= Z.of_nat (length buf))%Z
  | OutOfFuel => False
  end.
Proof.
  intros Hpos. unfold scanStrLiteral.
  pose proof (skip_le buf pos Hpos) as Hs. pose proof (skip_ge buf pos).
  destruct (skipn (skipWsAndComments buf pos) buf) as [|q l] eqn:E;
    [exact I|].
  destruct (negb ((q =? "'") || (q =? dquote))); [exact I|].
  assert (L : length (skipn (skipWsAndComments buf pos) buf) = S (length l))
    by now rewrite E.
  rewrite length_skipn in L.
  destruct (strLoop q l [] 1) as [[b n]|] eqn:El.
  - apply (strLoop_range q (length l)) in El; [|lia]. lia.
  - now apply parseErr_ok.
Qed.

Lemma hexLoop_le l n : hexLoop l = HexEnd n -> n <= length l.
Proof.
  revert n. induction l as [| a | a b l IH] using pair_induction; intros n.
  - intros [= <-]. simpl. lia.
  - discriminate.
  - cbn [hexLoop]. destruct (negb (isHexDigit a)); [intros [= <-]; simpl; lia|].
    destruct (negb (isHexDigit b)); [discriminate|].
    destruct (hexLoop l) as [|k]; [discriminate|].
    intros [= <-]. specialize (IH k eq_refl). simpl. lia.
Qed.

Lemma scanBytesLiteral_range buf pos :
  pos <= length buf ->
  match scanBytesLiteral buf pos with
  | Ok (Some (_, p)) => pos < p <= length buf
  | Ok None => True
  | Panic e =>
    errBuf e = buf /\ (0 <= offset e <= Z.of_nat (length buf))%Z
  | OutOfFuel => False
  end.
Proof.
  intros Hpos. unfold scanBytesLiteral.
  pose proof (skip_le buf pos Hpos) as Hs. pose proof (skip_ge buf pos).
  destruct (length buf <=? skipWsAndComments buf pos + 4)%nat; [exact I|].
  destruct (skipn (skipWsAndComments buf pos) buf)
    as [|c0 [|c1 [|c2 [|c3 l]]]] eqn:E; try exact I.
  assert (L : length (skipn (skipWsAndComments buf pos) buf)
              = 4 + length l) by now rewrite E.
  rewrite length_skipn in L.
  destruct (negb (c0 =? "0") || negb (c1 =? "x") && negb (c1 =? "X"));
    [exact I|].
  destruct (negb (isHexDigit c2) || negb (isHexDigit c3)); [exact I|].
  destruct (hexLoop l) as [|n] eqn:El.
  - now apply parseErr_ok.
  - apply hexLoop_le in El.
    destruct (hexDecode _); [lia | exact I].
Qed.

Lemma scanBoolLiteral_range buf pos b p :
  pos <= length buf -> scanBoolLiteral buf pos = Some (b, p) ->
  pos < p <= length buf.
Proof.
  intros Hpos. unfold scanBoolLiteral.
  pose proof (skip_le buf pos Hpos) as Hs. pose proof (skip_ge buf pos).
  destruct (length buf <=? skipWsAndComments buf pos)%nat; [discriminate|].
  destruct (scanKeyword buf (skipWsAndComments buf pos) "true") eqn:E1.
  - intros [= _ <-]. apply scanKeyword_range in E1; lia.
  - destruct (scanKeyword buf (skipWsAndComments buf pos) "false") eqn:E2;
      [|discriminate].
    intros [= _ <-]. apply scanKeyword_range in E2; lia.
Qed.

Lemma scanLiteralExpr_range buf pos :
  pos <= length buf ->
  match scanLiteralExpr buf pos with
  | Ok (Some (_, p)) => pos < p <= length buf
  | Ok None => True
  | Panic e =>
    errBuf e = buf /\ (0 <= offset e <= Z.of_nat (length buf))%Z
  | OutOfFuel => False
  end.
Proof.
  intros Hpos. unfold scanLiteralExpr.
  rewrite scanIntLiteral_skip, scanStrLiteral_skip, scanBytesLiteral_skip,
    scanBoolLiteral_skip.
  destruct (scanIntLiteral buf pos) as [[v p]|] eqn:Ei.
  { now apply (scanIntLiteral_range buf pos v). }
  pose proof (scanStrLiteral_range buf pos Hpos) as Hs.
  destruct (scanStrLiteral buf pos) as [[[b p]|]|e|]; cbn [bind];
    try assumption.
  pose proof (scanBytesLiteral_range buf pos Hpos) as Hb.
  destruct (scanBytesLiteral buf pos) as [[[b p]|]|e|]; cbn [bind];
    try assumption.
  destruct (scanBoolLiteral buf pos) as [[b p]|] eqn:Eb; [|exact I].
  now apply (scanBoolLiteral_range buf pos b).
Qed.

Lemma scanUnaryOp_range buf pos op p :
  pos <= length buf -> scanUnaryOp buf pos = Some (op, p) ->
  pos < p <= length buf.
Proof.
  intros Hpos. unfold scanUnaryOp.
  destruct (scanIntLiteral buf pos); [discriminate|].
  unfold unaryOps, scanUnaryOps, unaryOp_op.
  pose proof (skip_ge buf pos).
  destruct (scanTok buf pos "-") eqn:E1.
  - intros [= _ <-]. apply scanTok_range in E1; simpl in *; lia.
  - destruct (scanTok buf pos "!") eqn:E2; [|discriminate].
    intros [= _ <-]. apply scanTok_range in E2; simpl in *; lia.
Qed.

Lemma scanBinaryOp_range ops buf pos op p :
  pos <= length buf -> scanBinaryOp ops buf pos = Some (op, p) ->
  pos <= p <= length buf.
Proof.
  intros Hpos. unfold scanBinaryOp.
  pose proof (skip_le buf pos Hpos) as Hs. pose proof (skip_ge buf pos) as Hg.
  set (start := skipWsAndComments buf pos) in *.
  enough (G : forall found,
             match found with
             | Some (_, q) => pos <= q <= length buf
             | None => True
             end ->
             match fold_left (pickLonger buf start) ops found with
             | Some (_, q) => pos <= q <= length buf
             | None => True
             end).
  { intros E. specialize (G None I). now rewrite E in G. }
  induction ops as [|o ops' IH]; intros found Hf; [exact Hf|].
  cbn [fold_left]. apply IH. unfold pickLonger.
  destruct (scanTok buf start (binaryOp_op o)) as [q|] eqn:E; [|exact Hf].
  apply scanTok_range in E; [|assumption].
  pose proof (skip_ge buf start).
  destruct found as [[f q']|]; [|lia].
  destruct (_ <? _)%nat; [lia | exact Hf].
Qed.

(** ** Results that are not out of fuel *)

Section Total.

Variable ops : list binaryOp.
Variable types : string -> option typeDesc.
Variable buf : buffer.

Lemma okR_bind {A B} (P : A -> Prop) (Q : B -> Prop) m k :
  okR buf P m -> (forall a, P a -> okR buf Q (k a)) ->
  okR buf Q (bind m k).
Proof. destruct m; cbn; auto. Qed.

Lemma okR_weaken {A} (P Q : A -> Prop) r :
  okR buf P r -> (forall a, P a -> Q a) -> okR buf Q r.
Proof. destruct r; cbn; auto. Qed.

Lemma errorf_ok {A} (Q : A -> Prop) pos fmt a :
  pos <= length buf -> okR buf Q (errorf buf pos fmt a).
Proof. intros H. now apply parseErr_ok. Qed.

Lemma consumeTok_ok pos c s :
  pos <= length buf ->
  okR buf (fun p => pos < p <= length buf) (consumeTok buf pos (String c s)).
Proof.
  intros H. unfold consumeTok.
  destruct (scanTok buf pos (String c s)) as [p|] eqn:E.
  - apply scanTok_range in E; [|assumption].
    pose proof (skip_ge buf pos). cbn in *. lia.
  - now apply errorf_ok.
Qed.

Lemma consumeKeyword_ok pos k :
  pos <= length buf ->
  okR buf (fun p => pos < p <= length buf) (consumeKeyword buf pos k).
Proof.
  intros H. unfold consumeKeyword.
  destruct (scanKeyword buf pos k) as [p|] eqn:E.
  - now apply scanKeyword_range in E.
  - now apply errorf_ok.
Qed.

Lemma consumeIdentifier_ok pos :
  pos <= length buf ->
  okR buf (fun a => pos < snd a <= length buf) (consumeIdentifier buf pos).
Proof.
  intros H. unfold consumeIdentifier.
  destruct (scanIdentifier buf pos) as [[id p]|] eqn:E.
  - now apply scanIdentifier_range in E.
  - now apply errorf_ok.
Qed.

Lemma scanLiteralExpr_ok pos :
  pos <= length buf ->
  okR buf (fun o => match o with
                | Some (_, p) => pos < p <= length buf
                | None => True
                end) (scanLiteralExpr buf pos).
Proof.
  intros H. pose proof (scanLiteralExpr_range buf pos H) as R.
  destruct (scanLiteralExpr buf pos) as [[[e p]|]|e|]; cbn; auto.
Qed.

Lemma lookupType_ok pos typ :
  pos <= length buf ->
  okR buf (fun _ => True) (lookupType types buf pos typ).
Proof.
  intros H. unfold lookupType. destruct (types typ); [exact I|].
  now apply errorf_ok.
Qed.

End Total.

(** The side conditions on offsets and fuel. *)
Ltac ok_side :=
  cbn [snd fst] in *; solve [lia | intuition lia | exact I].

(** A call whose fact is among the hypotheses or the lemmas on the
    consume functions. *)
Ltac ok_call :=
  first
    [ apply consumeTok_ok; ok_side
    | apply consumeKeyword_ok; ok_side
    | apply consumeIdentifier_ok; ok_side
    | apply scanLiteralExpr_ok; ok_side
    | apply lookupType_ok; ok_side
    | match goal with
      | H : exprOk _ _ _ |- _ => eapply H; ok_side
      | H : unaryOk _ _ _ |- _ => eapply H; ok_side
      | H : contOk _ _ _ |- _ => eapply H; ok_side
      | H : rhsOk _ _ _ |- _ => eapply H; ok_side
      | H : expr2Ok _ _ _ |- _ => eapply H; ok_side
      | H : expr3Ok _ _ _ |- _ => eapply H; ok_side
      | H : expr4Ok _ _ _ |- _ => eapply H; ok_side
      | H : argsOk _ _ _ |- _ => eapply H; ok_side
      | H : eltsOk _ _ _ |- _ => eapply H; ok_side
      end ].

Ltac ok_step :=
  match goal with
  | |- okR _ _ (Ok _) => cbn [okR]; ok_side
  | |- okR _ _ (bind _ _) =>
    eapply okR_bind; [solve [ok_call] | intros ? ?]
  | |- okR _ _ (match ?x with (_, _) => _ end) => destruct x
  | |- okR _ _ (match ?x with Some _ => _ | None => _ end) =>
    is_var x; destruct x
  | |- okR _ _ (if ?b then _ else _) => destruct b eqn:?
  | |- okR _ _ (errorf _ _ _ _) => apply errorf_ok; ok_side
  | |- okR _ _ (Panic (parseErr _ _ _ _)) => apply parseErr_ok; ok_side
  | H : False |- _ => elim H
  | |- okR _ _ _ =>
    eapply okR_weaken; [solve [ok_call] | intros ? ?; ok_side]
  end.

Lemma expr_total_step ops buf bound :
  exprTotal ops buf bound -> exprTotal ops buf (S bound).
Proof.
  intros (I1 & I2 & I3 & I4 & I5 & I6 & I7 & I8 & I9).
  assert (C7 : expr4Ok ops buf (S bound)).
  { intros fuel pos Hp Hb Hf. destruct fuel as [|f]; [lia|].
    rewrite parseExpr4_S. repeat ok_step. }
  assert (C8 : argsOk ops buf (S bound)).
  { intros fuel pos Hp Hb Hf. destruct fuel as [|f]; [lia|].
    rewrite parseArgs_S. repeat ok_step. }
  assert (C6 : expr3Ok ops buf (S bound)).
  { intros fuel pos Hp Hb Hf. destruct fuel as [|f]; [lia|].
    rewrite parseExpr3_S. repeat ok_step. }
  assert (C5 : expr2Ok ops buf (S bound)).
  { intros fuel pos Hp Hb Hf. destruct fuel as [|f]; [lia|].
    rewrite parseExpr2_S. repeat ok_step. }
  assert (C2 : unaryOk ops buf (S bound)).
  { intros fuel pos Hp Hb Hf. destruct fuel as [|f]; [lia|].
    rewrite parseUnaryExpr_S.
    destruct (scanUnaryOp buf pos) as [[op p]|] eqn:E.
    - apply scanUnaryOp_range in E; [|assumption]. repeat ok_step.
    - repeat ok_step. }
  assert (C3 : contOk ops buf (S bound)).
  { intros fuel lhs minPrecedence pos Hp Hb Hf.
    destruct fuel as [|f]; [lia|].
    rewrite parseExprCont_S.
    destruct (scanBinaryOp ops buf pos) as [[op p]|] eqn:E.
    - pose proof (scanBinaryOp_range ops buf pos op p Hp E) as R.
      destruct (precedence op <? minPrecedence)%Z eqn:Hlt.
      + cbn [okR]. split; [lia|].
        intros op' q [= <- <-] Hle. apply Z.ltb_lt in Hlt. lia.
      + eapply okR_bind; [solve [ok_call] | intros [rhs p2] H2].
        eapply okR_bind; [solve [ok_call] | intros [[rhs' p3]|] H3];
          [|elim H3].
        eapply okR_weaken; [solve [ok_call] |].
        intros [[e p4]|] H4; [|elim H4]. cbn [snd] in *.
        split; [lia|]. intros; lia.
    - cbn [okR]. split; [lia|]. intros op q [=]. }
  assert (C4 : rhsOk ops buf (S bound)).
  { intros fuel op rhs pos Hp Hb Hf. destruct fuel as [|f]; [lia|].
    rewrite parseExprContRhs_S.
    destruct (scanBinaryOp ops buf pos) as [[op2 p]|] eqn:E.
    - destruct (precedence op2 <=? precedence op)%Z eqn:Hle.
      + cbn [okR]. lia.
      + eapply okR_bind; [solve [ok_call] | intros [[rhs' p3]|] H3];
          [|elim H3].
        destruct H3 as [R3 S3].
        specialize (S3 op2 p E ltac:(lia)).
        eapply okR_weaken; [solve [ok_call] |].
        intros [[e p4]|] H4; [|elim H4]. lia.
    - cbn [okR]. lia. }
  assert (C1 : exprOk ops buf (S bound)).
  { intros fuel pos Hp Hb Hf. destruct fuel as [|f]; [lia|].
    rewrite parseExpr_S.
    eapply okR_bind; [solve [ok_call] | intros [e p1] H1].
    eapply okR_bind; [solve [ok_call] | intros [[e2 p2]|] H2];
      [|elim H2].
    cbn [okR snd] in *. lia. }
  assert (C9 : eltsOk ops buf (S bound)).
  { intros fuel close first elts pos Hp Hb Hf.
    destruct fuel as [|f]; [lia|].
    rewrite parseEltsLoop_S.
    destruct (peekTok buf pos close); [cbn [okR snd]; lia|].
    eapply (okR_bind buf (fun p => pos <= p <= length buf)).
    - destruct first; [cbn [okR]; lia|].
      eapply okR_weaken; [solve [ok_call] | intros ? ?; ok_side].
    - intros p1 H1. repeat ok_step. }
  repeat split; assumption.
Qed.

Lemma expr_total ops buf bound : exprTotal ops buf bound.
Proof.
  induction bound as [|bound IH].
  - repeat split; intros until 2; lia.
  - now apply expr_total_step.
Qed.

(** ** Statements, clauses and contracts *)

Section TotalStmt.

Variable ops : list binaryOp.
Variable types : string -> option typeDesc.
Variable buf : buffer.

Lemma parseExpr_ok : exprOk ops buf (S (length buf)).
Proof. apply expr_total. Qed.

Lemma parseDefineStmt_ok fuel pos :
  pos <= length buf -> 10 * (length buf - pos) + 1 <= fuel ->
  okR buf (fun a => pos < snd a <= length buf)
      (parseDefineStmt ops types buf fuel pos).
Proof.
  intros Hp Hf. pose proof parseExpr_ok as E.
  unfold parseDefineStmt. repeat ok_step.
Qed.

Lemma parseAssignStmt_ok fuel pos :
  pos <= length buf -> 10 * (length buf - pos) + 1 <= fuel ->
  okR buf (fun a => pos < snd a <= length buf)
      (parseAssignStmt ops buf fuel pos).
Proof.
  intros Hp Hf. pose proof parseExpr_ok as E.
  unfold parseAssignStmt. repeat ok_step.
Qed.

Lemma parseVerifyStmt_ok fuel pos :
  pos <= length buf -> 10 * (length buf - pos) + 1 <= fuel ->
  okR buf (fun a => pos < snd a <= length buf)
      (parseVerifyStmt ops buf fuel pos).
Proof.
  intros Hp Hf. pose proof parseExpr_ok as E.
  unfold parseVerifyStmt. repeat ok_step.
Qed.

Lemma parseLockStmt_ok fuel pos :
  pos <= length buf -> 10 * (length buf - pos) + 1 <= fuel ->
  okR buf (fun a => pos < snd a <= length buf)
      (parseLockStmt ops buf fuel pos).
Proof.
  intros Hp Hf. pose proof parseExpr_ok as E.
  unfold parseLockStmt. repeat ok_step.
Qed.

Lemma parseUnlockStmt_ok fuel pos :
  pos <= length buf -> 10 * (length buf - pos) + 1 <= fuel ->
  okR buf (fun a => pos < snd a <= length buf)
      (parseUnlockStmt ops buf fuel pos).
Proof.
  intros Hp Hf. pose proof parseExpr_ok as E.
  unfold parseUnlockStmt. repeat ok_step.
Qed.

End TotalStmt.

Ltac ok_call ::=
  first
    [ apply consumeTok_ok; ok_side
    | apply consumeKeyword_ok; ok_side
    | apply consumeIdentifier_ok; ok_side
    | apply scanLiteralExpr_ok; ok_side
    | apply lookupType_ok; ok_side
    | apply parseDefineStmt_ok; ok_side
    | apply parseAssignStmt_ok; ok_side
    | apply parseVerifyStmt_ok; ok_side
    | apply parseLockStmt_ok; ok_side
    | apply parseUnlockStmt_ok; ok_side
    | match goal with
      | H : exprOk _ _ _ |- _ => eapply H; ok_side
      | H : unaryOk _ _ _ |- _ => eapply H; ok_side
      | H : contOk _ _ _ |- _ => eapply H; ok_side
      | H : rhsOk _ _ _ |- _ => eapply H; ok_side
      | H : expr2Ok _ _ _ |- _ => eapply H; ok_side
      | H : expr3Ok _ _ _ |- _ => eapply H; ok_side
      | H : expr4Ok _ _ _ |- _ => eapply H; ok_side
      | H : argsOk _ _ _ |- _ => eapply H; ok_side
      | H : eltsOk _ _ _ |- _ => eapply H; ok_side
      | H : stmtsOk _ _ _ _ |- _ => eapply H; ok_side
      | H : stmtOk _ _ _ _ |- _ => eapply H; ok_side
      | H : ifOk _ _ _ _ |- _ => eapply H; ok_side
      | H : namesOk _ _ |- _ => eapply H; ok_side
      | H : paramsLoopOk _ _ _ |- _ => eapply H; ok_side
      | H : clausesLoopOk _ _ _ _ |- _ => eapply H; ok_side
      | H : contractsLoopOk _ _ _ _ |- _ => eapply H; ok_side
      | H : forall fuel pos, _ -> _ -> okR _ _ _ |- _ => eapply H; ok_side
      end ].

Section TotalContract.

Variable ops : list binaryOp.
Variable types : string -> option typeDesc.
Variable buf : buffer.

Lemma stmt_total bound :
  stmtsOk ops types buf bound /\ stmtOk ops types buf bound /\
  ifOk ops types buf bound.
Proof.
  pose proof (parseExpr_ok ops buf) as E.
  induction bound as [|bound (I1 & I2 & I3)].
  - repeat split; intros until 2; lia.
  - assert (C3 : ifOk ops types buf (S bound)).
    { intros fuel pos Hp Hb Hf. destruct fuel as [|f]; [lia|].
      rewrite parseIfStmt_S. repeat ok_step. }
    assert (C2 : stmtOk ops types buf (S bound)).
    { intros fuel pos Hp Hb Hf. destruct fuel as [|f]; [lia|].
      rewrite parseStatement_S. cbv zeta. repeat ok_step. }
    assert (C1 : stmtsOk ops types buf (S bound)).
    { intros fuel statements pos Hp Hb Hf. destruct fuel as [|f]; [lia|].
      rewrite parseStatements_S. repeat ok_step. }
    repeat split; assumption.
Qed.

Lemma parseStatements_ok : stmtsOk ops types buf (S (length buf)).
Proof. apply stmt_total. Qed.

Lemma names_total bound : namesOk buf bound.
Proof.
  induction bound as [|bound IH]; [intros until 2; lia|].
  intros fuel names pos Hp Hb Hf. destruct fuel as [|f]; [lia|].
  rewrite parseNamesLoop_S. repeat ok_step.
Qed.

Lemma parseParamsType_ok fuel pos :
  pos <= length buf -> 10 * (length buf - pos) + 1 <= fuel ->
  okR buf (fun a => pos < snd a <= length buf)
      (parseParamsType types buf fuel pos).
Proof.
  intros Hp Hf. pose proof (names_total (S (length buf))) as N.
  unfold parseParamsType. repeat ok_step.
Qed.

Lemma paramsLoop_total bound : paramsLoopOk types buf bound.
Proof.
  induction bound as [|bound IH]; [intros until 2; lia|].
  intros fuel first params pos Hp Hb Hf. destruct fuel as [|f]; [lia|].
  rewrite parseParamsLoop_S.
  pose proof parseParamsType_ok as T.
  destruct (peekTok buf pos ")"); [cbn [okR snd]; lia|].
  eapply (okR_bind buf (fun p => pos <= p <= length buf)).
  - destruct first; [cbn [okR]; lia|].
    eapply okR_weaken; [solve [ok_call] | intros ? ?; ok_side].
  - intros p1 H1. repeat ok_step.
Qed.

Lemma parseParams_ok fuel pos :
  pos <= length buf -> 10 * (length buf - pos) + 1 <= fuel ->
  okR buf (fun a => pos < snd a <= length buf)
      (parseParams types buf fuel pos).
Proof.
  intros Hp Hf. pose proof (paramsLoop_total (S (length buf))) as N.
  unfold parseParams. repeat ok_step.
Qed.

Lemma parseClause_ok fuel pos :
  pos <= length buf -> 10 * (length buf - pos) + 1 <= fuel ->
  okR buf (fun a => pos < snd a <= length buf)
      (parseClause ops types buf fuel pos).
Proof.
  intros Hp Hf. pose proof parseParams_ok as P.
  pose proof parseStatements_ok as S.
  unfold parseClause. repeat ok_step.
Qed.

Lemma clausesLoop_total bound : clausesLoopOk ops types buf bound.
Proof.
  induction bound as [|bound IH]; [intros until 2; lia|].
  intros fuel clauses pos Hp Hb Hf. destruct fuel as [|f]; [lia|].
  rewrite parseClausesLoop_S. pose proof parseClause_ok as C.
  repeat ok_step.
Qed.

Lemma parseContract_ok fuel pos :
  pos <= length buf -> 10 * (length buf - pos) + 1 <= fuel ->
  okR buf (fun a => pos < snd a <= length buf)
      (parseContract ops types buf fuel pos).
Proof.
  intros Hp Hf. pose proof parseParams_ok as P.
  pose proof (clausesLoop_total (S (length buf))) as C.
  unfold parseContract, parseClauses. repeat ok_step.
Qed.

Lemma contractsLoop_total bound : contractsLoopOk ops types buf bound.
Proof.
  induction bound as [|bound IH]; [intros until 2; lia|].
  intros fuel acc pos Hp Hb Hf. destruct fuel as [|f]; [lia|].
  rewrite parseContractsLoop_S. pose proof parseContract_ok as C.
  repeat ok_step.
Qed.

Variable imports : buffer -> nat -> result (list Contract * nat).
Hypothesis imports_ok :
  okR buf (fun a => snd a <= length buf) (imports buf 0).

Lemma parseContracts_ok fuel :
  enoughFuel buf <= fuel ->
  okR buf (fun a => snd a <= length buf)
      (parseContracts ops types imports buf fuel 0).
Proof.
  unfold enoughFuel. intros Hf.
  pose proof (contractsLoop_total (S (length buf))) as C.
  unfold parseContracts.
  eapply okR_bind; [exact imports_ok | intros [cs p] Hp]. cbn [snd] in Hp.
  destruct (scanKeyword buf p "contract"); [|now apply errorf_ok].
  eapply okR_weaken; [solve [ok_call] | intros ? ?; ok_side].
Qed.

(** With enough fuel [parse] answers: either the contracts, or an error
    of the parser that names the buffer and an offset inside it. *)
Lemma parse_total fuel :
  enoughFuel buf <= fuel ->
  exists contracts err,
    parse ops types imports buf fuel = Ok (contracts, err) /\
    match err with
    | Some e => contracts = [] /\ errOK buf e
    | None => True
    end.
Proof.
  intros Hf. pose proof (parseContracts_ok fuel Hf) as H.
  unfold parse.
  destruct (parseContracts ops types imports buf fuel 0) as [[cs p]|e|].
  - now exists cs, None.
  - exists [], (Some e). now split.
  - elim H.
Qed.

End TotalContract.

(** * The claims *)

(** ** The scan layer *)

(** C2, as stated, fails for a literal with a single digit: the bytes
    scanner declines, and the error the parse ends in is the one of the
    identifier scanner, reported at the position of the parser, which
    is before the white space that precedes the literal.  Here the
    literal starts at column 48 and the error names column 47. *)
Lemma odd_hex_single_digit_counterexample :
  let buf := bytesOf "contract X() locks a of b { clause c() { verify 0xa } }" in
  nth_error buf 48 = Some "0" /\
  scanBytesLiteral buf 48 = Ok None /\
  exists e,
    parse specBinaryOps specTypes noImports buf 20 = Ok ([], Some e) /\
    offset e = 47%Z /\
    Error e = "line 1, col 47: expected identifier"%string.
Proof.
  cbv zeta. split; [reflexivity|]. split; [reflexivity|].
  eexists. split; [vm_compute; reflexivity|]. split; reflexivity.
Qed.

(** C2, amended.  Where the bytes that remain after white space and
    comments are the digit 0, a letter x or X and an odd number of
    hexadecimal digits that the next byte does not extend: with three
    digits or more the bytes scanner panics with the error of an odd
    number of digits, whose offset is the start of the literal, and so
    does the parse of an expression there; with a single digit the
    bytes scanner declines and the parse of the expression ends in the
    error of a missing identifier at the position of the parser. *)
Theorem odd_hex_literal_error ops buf pos x d tail fuel :
  rest buf pos = "0" :: x :: d ++ tail ->
  isX x = true ->
  forallb isHexDigit d = true ->
  stops isHexDigit tail = true ->
  Nat.odd (length d) = true ->
  (3 <= length d ->
   scanBytesLiteral buf pos
     = Panic (parseErr buf (skipWsAndComments buf pos) oddDigits []) /\
   parseExpr ops buf (3 + fuel) pos
     = Panic (parseErr buf (skipWsAndComments buf pos) oddDigits [])) /\
  (length d = 1 ->
   scanBytesLiteral buf pos = Ok None /\
   parseExpr ops buf (5 + fuel) pos
     = Panic (parseErr buf pos "expected identifier" [])).
Proof.
  intros Hrest Hx Hd Ht Ho.
  assert (Hint : scanIntLiteral buf pos = None).
  { now apply (scanIntLiteral_hexMark buf pos false ["0"] (x :: d ++ tail)). }
  assert (H0 : isDigit "0" = true) by reflexivity.
  split.
  - intros H3.
    pose proof (scanBytesLiteral_odd buf pos x d tail Hrest Hx Hd Ht Ho H3)
      as Hb.
    split; [assumption|].
    change (3 + fuel) with (S (S (S fuel))).
    rewrite parseExpr_S, parseUnaryExpr_S.
    rewrite (scanUnaryOp_digit buf pos "0" _ Hrest H0).
    rewrite parseExpr2_S. unfold scanLiteralExpr.
    rewrite scanIntLiteral_skip, Hint.
    rewrite scanStrLiteral_skip,
      (scanStrLiteral_none buf pos "0" _ Hrest eq_refl).
    cbn [bind]. rewrite scanBytesLiteral_skip, Hb. reflexivity.
  - intros H1.
    pose proof (scanBytesLiteral_single buf pos x d tail Hrest Hd Ht H1) as Hb.
    split; [assumption|].
    change (5 + fuel) with (S (4 + fuel)).
    rewrite parseExpr_S.
    rewrite (parseUnaryExpr_digit_declined ops buf fuel pos "0" _
               Hrest H0 Hint Hb).
    reflexivity.
Qed.

Lemma odd_hex_literal_error_witness :
  let buf := bytesOf "verify 0xabc + 0xd }" in
  (scanBytesLiteral buf 6 = Panic (parseErr buf 7 oddDigits []) /\
   parseExpr specBinaryOps buf 3 6 = Panic (parseErr buf 7 oddDigits [])) /\
  (scanBytesLiteral buf 14 = Ok None /\
   parseExpr specBinaryOps buf 5 14
     = Panic (parseErr buf 14 "expected identifier" [])).
Proof.
  cbv zeta. split.
  - apply (proj1 (odd_hex_literal_error specBinaryOps
             (bytesOf "verify 0xabc + 0xd }") 6 "x" (bytesOf "abc")
             (bytesOf " + 0xd }") 0
             eq_refl eq_refl eq_refl eq_refl eq_refl)).
    apply le_n.
  - apply (proj2 (odd_hex_literal_error specBinaryOps
             (bytesOf "verify 0xabc + 0xd }") 14 "x" (bytesOf "d")
             (bytesOf " }") 0
             eq_refl eq_refl eq_refl eq_refl eq_refl)).
    reflexivity.
Defined.

(** X21.  The rule for decimal literals, away from the test for a
    hexadecimal prefix.  A decimal literal is an optional minus and a
    run of one or more digits that the next byte does not extend.  When
    its value is not a signed 64-bit value the integer scanner declines
    and the parse of the operand ends in an error; when it is one, and
    the run is not taken for the prefix of a hexadecimal literal, the
    scanner returns that value and the operand is that integer
    literal. *)
Theorem integer_literal_int64 ops buf pos neg d tail fuel :
  rest buf pos = signBytes neg ++ d ++ tail ->
  d <> [] ->
  forallb isDigit d = true ->
  stops isDigit tail = true ->
  (fitsInt64 (literalValue neg d) = false ->
   scanIntLiteral buf pos = None /\
   parseUnaryExpr ops buf (5 + fuel) pos
     = Panic (parseErr buf (unfitErrorPos buf pos neg)
                "expected identifier" [])) /\
  (fitsInt64 (literalValue neg d) = true -> hexMark d tail = false ->
   scanIntLiteral buf pos
     = Some (literalValue neg d,
             skipWsAndComments buf pos + length (signBytes neg) + length d) /\
   parseUnaryExpr ops buf (2 + fuel) pos
     = Ok (integerLiteral (literalValue neg d),
           skipWsAndComments buf pos + length (signBytes neg) + length d)).
Proof.
  intros Hrest Hne Hd Ht. split.
  - intros Hfit. now apply (parseUnaryExpr_unfit ops buf fuel pos neg d tail).
  - intros Hfit Hm.
    pose proof (scanIntLiteral_value buf pos neg d tail Hrest Hd Ht Hne Hm)
      as E.
    rewrite Hfit in E. split; [assumption|].
    now apply parseUnaryExpr_int.
Qed.

Lemma integer_literal_int64_witness :
  let buf := bytesOf "-9223372036854775808 + 9223372036854775808" in
  (scanIntLiteral buf 0 = Some ((- 9223372036854775808)%Z, 20) /\
   parseUnaryExpr specBinaryOps buf 2 0
     = Ok (integerLiteral (- 9223372036854775808), 20)) /\
  (scanIntLiteral buf 22 = None /\
   parseUnaryExpr specBinaryOps buf 5 22
     = Panic (parseErr buf 22 "expected identifier" [])).
Proof.
  cbv zeta. split.
  - apply (proj2 (integer_literal_int64 specBinaryOps
             (bytesOf "-9223372036854775808 + 9223372036854775808") 0 true
             (bytesOf "9223372036854775808")
             (bytesOf " + 9223372036854775808") 0
             eq_refl ltac:(discriminate) eq_refl eq_refl)); reflexivity.
  - apply (proj1 (integer_literal_int64 specBinaryOps
             (bytesOf "-9223372036854775808 + 9223372036854775808") 22 false
             (bytesOf "9223372036854775808") [] 0
             eq_refl ltac:(discriminate) eq_refl eq_refl)); reflexivity.
Defined.

(** C3 fails where a literal ends in the digit 0 and the next byte is x
    or X.  The loop of [scanIntLiteral] tests for the prefix of a
    hexadecimal literal at every digit of the run, where its comment
    speaks of a literal that starts with 0x.  The literal 10 is a
    signed 64-bit value; it is scanned before a space and declined
    before an x, where the parse of the operand ends in the error of a
    missing identifier, and so does the parse of a source that has it. *)
Theorem in_range_literal_declined :
  fitsInt64 (literalValue false (bytesOf "10")) = true /\
  scanIntLiteral (bytesOf "10 x") 0 = Some (10%Z, 2) /\
  parseUnaryExpr specBinaryOps (bytesOf "10 x") 2 0
    = Ok (integerLiteral 10, 2) /\
  scanIntLiteral (bytesOf "10x") 0 = None /\
  parseUnaryExpr specBinaryOps (bytesOf "10x") 5 0
    = Panic (parseErr (bytesOf "10x") 0 "expected identifier" []) /\
  exists e,
    parse specBinaryOps specTypes noImports
      (bytesOf "contract X() locks a of b { clause c() { verify 10x } }") 20
    = Ok ([], Some e) /\
    Error e = "line 1, col 47: expected identifier"%string.
Proof.
  split; [reflexivity|]. split; [reflexivity|]. split; [reflexivity|].
  split; [reflexivity|]. split; [reflexivity|].
  eexists. split; [vm_compute; reflexivity | reflexivity].
Qed.

(** C4 fails at the end of the buffer, in two ways that share one cause,
    the tests against the length of the buffer.  A literal of two
    digits that ends the buffer is declined by the first test; an even
    number of digits followed by exactly one more byte, here the closing
    brace, is reported as an odd number of digits, and that is the
    error [parse] returns for a source that ends so.  With one more
    byte after the brace the literal is scanned. *)
Theorem bytes_literal_at_end_of_buffer :
  scanBytesLiteral (bytesOf "0xab") 0 = Ok None /\
  scanBytesLiteral (bytesOf "0xab}") 0
    = Panic (parseErr (bytesOf "0xab}") 0 oddDigits []) /\
  scanBytesLiteral (bytesOf "0xab} ") 0 = Ok (Some (["171"], 4)) /\
  exists e,
    parse specBinaryOps specTypes noImports
      (bytesOf "contract X() locks a of b { clause c() { verify 0xab}") 20
    = Ok ([], Some e) /\
    Error e = "line 1, col 48: odd number of digits in hex literal"%string.
Proof.
  split; [reflexivity|]. split; [reflexivity|]. split; [reflexivity|].
  eexists. split; [vm_compute; reflexivity | reflexivity].
Qed.

(** C5, as stated, fails: the scanner also declines a run of digits
    that does not begin a hexadecimal literal, when its value is not a
    signed 64-bit value. *)
Lemma int_literal_declined_counterexample :
  let buf := bytesOf "9223372036854775808" in
  forallb isDigit buf = true /\
  hasPrefix buf (bytesOf "0") = false /\
  scanIntLiteral buf 0 = None.
Proof. repeat split. Qed.

(** C5, amended.  Where the bytes that remain are an optional minus, a
    run of digits and a tail the digits do not extend into: without a
    digit there is no match; a run whose last digit is not a 0 followed
    by x or X is matched exactly when its value is a signed 64-bit
    value, and the result is that value and the offset after the last
    digit; the single digit 0 followed by x or X is not matched. *)
Theorem int_literal_token buf pos neg d tail :
  rest buf pos = signBytes neg ++ d ++ tail ->
  forallb isDigit d = true ->
  stops isDigit tail = true ->
  (d = [] -> (neg = false -> stops (Ascii.eqb "-") tail = true) ->
   scanIntLiteral buf pos = None) /\
  (d <> [] -> hexMark d tail = false ->
   scanIntLiteral buf pos =
   if fitsInt64 (literalValue neg d)
   then Some (literalValue neg d,
              skipWsAndComments buf pos + length (signBytes neg) + length d)
   else None) /\
  (d = ["0"] -> hexMark d tail = true -> scanIntLiteral buf pos = None).
Proof.
  intros Hrest Hd Ht. repeat split.
  - intros -> Hneg. apply scanIntLiteral_no_digit. rewrite Hrest.
    destruct neg; cbn [signBytes app skipn]; [assumption|].
    specialize (Hneg eq_refl). destruct tail as [|c tl]; [reflexivity|].
    unfold stops in Hneg. apply negb_true_iff in Hneg.
    apply Ascii.eqb_neq in Hneg.
    replace (match c :: tl with "-" :: _ => 1 | _ => 0 end) with 0.
    + exact Ht.
    + revert Hneg. clear. byte_cases c. intros H. now elim H.
  - intros Hne Hm. now apply (scanIntLiteral_value buf pos neg d tail).
  - intros _ Hm. now apply (scanIntLiteral_hexMark buf pos neg d tail).
Qed.

Lemma int_literal_token_witness :
  let buf := bytesOf " -42, 0x" in
  scanIntLiteral buf 0 = Some ((- 42)%Z, 4) /\
  scanIntLiteral buf 4 = None /\
  scanIntLiteral buf 5 = None.
Proof.
  cbv zeta. split; [|split].
  - apply (proj1 (proj2 (int_literal_token (bytesOf " -42, 0x") 0 true
             (bytesOf "42") (bytesOf ", 0x") eq_refl eq_refl eq_refl)));
      [discriminate | reflexivity].
  - apply (proj1 (int_literal_token (bytesOf " -42, 0x") 4 false
             [] (bytesOf ", 0x") eq_refl eq_refl eq_refl)); reflexivity.
  - apply (proj2 (proj2 (int_literal_token (bytesOf " -42, 0x") 5 false
             (bytesOf "0") (bytesOf "x") eq_refl eq_refl eq_refl)));
      reflexivity.
Defined.

(** The scanner of unary operators against the integer scanner: it
    answers no match wherever the integer scanner matches, and the
    operand parsed there is the integer literal; elsewhere it matches
    exactly a minus or an exclamation mark.  So the text of a minus and
    the digit 3 is the literal -3. *)
Theorem unary_op_maximal_munch ops buf pos fuel :
  match scanIntLiteral buf pos with
  | Some (v, p) =>
    scanUnaryOp buf pos = None /\
    parseUnaryExpr ops buf (2 + fuel) pos = Ok (integerLiteral v, p)
  | None =>
    scanUnaryOp buf pos =
    match rest buf pos with
    | "-" :: _ => Some (mkUnaryOp "-", skipWsAndComments buf pos + 1)
    | "!" :: _ => Some (mkUnaryOp "!", skipWsAndComments buf pos + 1)
    | _ => None
    end
  end /\
  parseUnaryExpr ops (bytesOf "-3") (2 + fuel) 0
    = Ok (integerLiteral (- 3), 2).
Proof.
  split.
  - destruct (scanIntLiteral buf pos) as [[v p]|] eqn:Hint.
    + split; [unfold scanUnaryOp; now rewrite Hint|].
      now apply parseUnaryExpr_int.
    + destruct (rest buf pos) as [|c l] eqn:Hrest.
      * unfold scanUnaryOp. rewrite Hint.
        unfold unaryOps, scanUnaryOps, unaryOp_op.
        now rewrite !scanTok_nil.
      * unfold scanUnaryOp. rewrite Hint.
        unfold unaryOps, scanUnaryOps, unaryOp_op.
        rewrite (scanTok_char buf pos c l "-" Hrest).
        rewrite (scanTok_char buf pos c l "!" Hrest).
        clear. byte_cases c.
  - now apply parseUnaryExpr_int.
Qed.

(** C6 fails where a minus begins a literal that ends in the digit 0
    before an x or X: the integer scanner declines such a literal, by
    the test that the loop of [scanIntLiteral] makes at every digit of
    the run, and the scanner of unary operators then takes the minus
    for the operator.  The literal -10 is a signed 64-bit value; before
    a space it is scanned as one token, no unary operator is matched and
    the operand is the literal; before an x the unary minus is matched
    and the parse of the operand ends in the error of a missing
    identifier, after the minus. *)
Theorem unary_minus_before_literal :
  fitsInt64 (literalValue true (bytesOf "10")) = true /\
  scanIntLiteral (bytesOf "-10 x") 0 = Some ((- 10)%Z, 3) /\
  scanUnaryOp (bytesOf "-10 x") 0 = None /\
  parseUnaryExpr specBinaryOps (bytesOf "-10 x") 2 0
    = Ok (integerLiteral (- 10), 3) /\
  scanIntLiteral (bytesOf "-10x") 0 = None /\
  scanUnaryOp (bytesOf "-10x") 0 = Some (mkUnaryOp "-", 1) /\
  parseUnaryExpr specBinaryOps (bytesOf "-10x") 6 0
    = Panic (parseErr (bytesOf "-10x") 1 "expected identifier" []).
Proof. repeat split. Qed.

(** ** Precedence climbing *)




(** ** Contracts without clauses *)

(** C8, as stated, fails: the loop of [parseClauses] runs zero times
    when the closing brace follows the opening one, and the contract is
    returned with no clause. *)
Lemma empty_contract_counterexample :
  parse specBinaryOps specTypes noImports
    (bytesOf "contract X() locks a of b { }") 3
  = Ok ([mkContract "X" [] [] (mkValueInfo "a" "b")], None).
Proof. reflexivity. Qed.

(** C8, amended.  The braced body of a contract consists of zero or
    more clauses: when the header of a contract is followed by an
    opening brace and a closing brace, the clauses parsed are none and
    the contract is returned with an empty list of clauses. *)
Theorem contract_without_clauses ops types buf fuel
  pos p1 name p2 params p3 p4 amount p5 p6 asset p7 p8 p9 :
  consumeKeyword buf pos "contract" = Ok p1 ->
  consumeIdentifier buf p1 = Ok (name, p2) ->
  parseParams types buf (S fuel) p2 = Ok (params, p3) ->
  consumeKeyword buf p3 "locks" = Ok p4 ->
  consumeIdentifier buf p4 = Ok (amount, p5) ->
  consumeKeyword buf p5 "of" = Ok p6 ->
  consumeIdentifier buf p6 = Ok (asset, p7) ->
  consumeTok buf p7 "{" = Ok p8 ->
  consumeTok buf p8 "}" = Ok p9 ->
  parseClauses ops types buf (S fuel) p8 = Ok ([], p8) /\
  parseContract ops types buf (S fuel) pos
    = Ok (mkContract name params [] (mkValueInfo amount asset), p9).
Proof.
  intros H1 H2 H3 H4 H5 H6 H7 H8 H9.
  assert (Hpeek : peekTok buf p8 "}" = true).
  { unfold consumeTok in H9. unfold peekTok.
    now destruct (scanTok buf p8 "}"). }
  assert (Hc : parseClauses ops types buf (S fuel) p8 = Ok ([], p8)).
  { unfold parseClauses. now rewrite parseClausesLoop_S, Hpeek. }
  split; [assumption|].
  unfold parseContract.
  rewrite H1; cbn [bind]. rewrite H2; cbn [bind]. rewrite H3; cbn [bind].
  rewrite H4; cbn [bind]. rewrite H5; cbn [bind]. rewrite H6; cbn [bind].
  rewrite H7; cbn [bind]. rewrite H8; cbn [bind]. rewrite Hc; cbn [bind].
  now rewrite H9.
Qed.

Lemma contract_without_clauses_witness :
  let buf := bytesOf "contract X(k: Hash) locks a of b { }" in
  parseClauses specBinaryOps specTypes buf 3 34 = Ok ([], 34) /\
  parseContract specBinaryOps specTypes buf 3 0
    = Ok (mkContract "X" [mkParam "k" "Hash"%string] [] (mkValueInfo "a" "b"), 36).
Proof.
  exact (contract_without_clauses specBinaryOps specTypes
           (bytesOf "contract X(k: Hash) locks a of b { }") 2
           0 8 "X"%string 10 [mkParam "k" "Hash"%string] 19 25
           "a"%string 27 30 "b"%string 32 34 36
           eq_refl eq_refl eq_refl eq_refl eq_refl eq_refl eq_refl
           eq_refl eq_refl).
Defined.

(** ** The entry point *)

(** C9.  For every buffer, and every way of reading import directives
    that answers with a position inside the buffer or with an error of
    the parser, [parse] with enough fuel returns to its caller, and what
    it returns does not depend on the fuel: the contracts when the
    parser did not fail, and otherwise, when the parser panicked with a
    parser error, no contracts and that error as the error result.  The
    error names the buffer and an offset inside it, and its message is
    the line, one more than the number of newline bytes before the
    offset, the column, the number of bytes since the last newline, and
    the formatted message. *)
Theorem parse_error_returned ops types imports buf fuel :
  okR buf (fun a => snd a <= length buf) (imports buf 0) ->
  enoughFuel buf <= fuel ->
  parse ops types imports buf fuel
    = parse ops types imports buf (enoughFuel buf) /\
  match parseContracts ops types imports buf fuel 0 with
  | Ok (contracts, _) =>
    parse ops types imports buf fuel = Ok (contracts, None)
  | Panic e =>
    parse ops types imports buf fuel = Ok ([], Some e) /\
    errBuf e = buf /\
    (0 <= offset e <= Z.of_nat (length buf))%Z /\
    Error e =
    ("line " ++ decimal (1 + newlinesBefore buf (offset e)) ++
     ", col " ++ decimal (bytesSinceNewline buf (offset e)) ++
     ": " ++ Sprintf (format e) (map ArgStr (args e)))%string
  | OutOfFuel => False
  end.
Proof.
  intros Hi Hf. split.
  - destruct (parse_total ops types buf imports Hi (enoughFuel buf) (le_n _))
      as (cs & err & E & _).
    rewrite E. now apply (parse_mono ops types imports buf (enoughFuel buf)).
  - pose proof (parseContracts_ok ops types buf imports Hi fuel Hf) as H.
    unfold parse.
    destruct (parseContracts ops types imports buf fuel 0) as [[cs p]|e|].
    + reflexivity.
    + destruct H as [Hb Ho]. repeat split; try assumption; try apply Ho.
      rewrite Error_format. now rewrite Hb.
    + exact H.
Qed.

Lemma parse_error_returned_witness :
  let buf := bytesOf "contract X() locks a of b {
  clause c() { verify 0xabc }
}" in
  let e := parseErr buf 50 oddDigits [] in
  parse specBinaryOps specTypes noImports buf (enoughFuel buf)
    = Ok ([], Some e) /\
  Error e = "line 2, col 22: odd number of digits in hex literal"%string.
Proof.
  cbv zeta.
  pose proof (parse_error_returned specBinaryOps specTypes noImports
    (bytesOf "contract X() locks a of b {
  clause c() { verify 0xabc }
}") _ (Nat.le_0_l _) (le_n _)) as T.
  match type of T with
  | _ /\ match ?x with _ => _ end =>
    let r := eval vm_compute in x in
    replace x with r in T by (vm_compute; reflexivity)
  end.
  destruct T as (_ & T1 & _ & _ & T4). split; [exact T1|].
  refine (eq_trans T4 _). reflexivity.
Defined.

(** ** Identifiers and keywords *)

(** C10, as stated, fails at two of the positions it lists.  The words
    true and false have the form of an identifier and are in the list
    of keywords, but where an expression is expected the literal scanner
    takes them first: the word true is the boolean literal, not the
    reference to a variable, which the keyword lock is.  The name of a
    type is consumed as an identifier and then looked up in the table of
    types, so the keyword lock, which is no key of the table, is an
    unknown type. *)
Lemma keyword_positions_counterexample :
  In "true"%string keywords /\ In "lock"%string keywords /\
  isIdentifier "true" = true /\ isIdentifier "lock" = true /\
  parseExpr specBinaryOps (bytesOf "true") 9 0
    = Ok (booleanLiteral true, 4) /\
  parseExpr specBinaryOps (bytesOf "lock") 9 0 = Ok (varRef "lock", 4) /\
  exists e,
    parse specBinaryOps specTypes noImports
      (bytesOf "contract X(a: lock) locks b of c { }") 20
    = Ok ([], Some e) /\
    Error e = "line 1, col 18: unknown type lock"%string.
Proof.
  split; [simpl; tauto|]. split; [simpl; tauto|].
  split; [reflexivity|]. split; [reflexivity|].
  split; [reflexivity|]. split; [reflexivity|].
  eexists. split; [vm_compute; reflexivity | reflexivity].
Qed.

(** C10, amended.  Identifier consumption does not reserve keywords:
    where the bytes that remain are a token of the form of an
    identifier that the next byte does not extend, the identifier
    scanner and identifier consumption return the token, whatever it
    is.  So it is the name of the contract after the keyword contract,
    the name of the locked amount after the keyword locks and of the
    locked asset after the keyword of, the name of the clause after the
    keyword clause, the name of a parameter, the first of a group or
    one after a comma, and the name of the variable after the keywords
    define and assign: the parse goes on after the token with that
    name.  As the name of a type, of parameters or of a defined
    variable, the token is consumed, and it is accepted when it is a
    key of the table of types, an unknown type otherwise.  As a primary
    expression the token is the reference to a variable, or the
    function of a call, unless it is the word true or false, which is
    the boolean literal.  A keyword is matched there exactly when it is
    equal to the token, and every keyword has the form of an
    identifier. *)
Theorem identifier_not_reserved ops types buf pos w tail fuel :
  isIdentifier w = true ->
  rest buf pos = bytesOf w ++ tail ->
  stops (fun c => isIDChar c false) tail = true ->
  let q := skipWsAndComments buf pos + String.length w in
  scanIdentifier buf pos = Some (w, q) /\
  consumeIdentifier buf pos = Ok (w, q) /\
  (forall pos0,
     consumeKeyword buf pos0 "contract" = Ok pos ->
     parseContract ops types buf fuel pos0 =
     ('(params, p) <- parseParams types buf fuel q ;;
      p <- consumeKeyword buf p "locks" ;;
      '(amount, p) <- consumeIdentifier buf p ;;
      p <- consumeKeyword buf p "of" ;;
      '(asset, p) <- consumeIdentifier buf p ;;
      p <- consumeTok buf p "{" ;;
      '(clauses, p) <- parseClauses ops types buf fuel p ;;
      p <- consumeTok buf p "}" ;;
      Ok (mkContract w params clauses (mkValueInfo amount asset), p))) /\
  (forall pos0 p1 name p2 params p3,
     consumeKeyword buf pos0 "contract" = Ok p1 ->
     consumeIdentifier buf p1 = Ok (name, p2) ->
     parseParams types buf fuel p2 = Ok (params, p3) ->
     consumeKeyword buf p3 "locks" = Ok pos ->
     parseContract ops types buf fuel pos0 =
     (p <- consumeKeyword buf q "of" ;;
      '(asset, p) <- consumeIdentifier buf p ;;
      p <- consumeTok buf p "{" ;;
      '(clauses, p) <- parseClauses ops types buf fuel p ;;
      p <- consumeTok buf p "}" ;;
      Ok (mkContract name params clauses (mkValueInfo w asset), p))) /\
  (forall pos0 p1 name p2 params p3 p4 amount p5,
     consumeKeyword buf pos0 "contract" = Ok p1 ->
     consumeIdentifier buf p1 = Ok (name, p2) ->
     parseParams types buf fuel p2 = Ok (params, p3) ->
     consumeKeyword buf p3 "locks" = Ok p4 ->
     consumeIdentifier buf p4 = Ok (amount, p5) ->
     consumeKeyword buf p5 "of" = Ok pos ->
     parseContract ops types buf fuel pos0 =
     (p <- consumeTok buf q "{" ;;
      '(clauses, p) <- parseClauses ops types buf fuel p ;;
      p <- consumeTok buf p "}" ;;
      Ok (mkContract name params clauses (mkValueInfo amount w), p))) /\
  (forall pos0,
     consumeKeyword buf pos0 "clause" = Ok pos ->
     parseClause ops types buf fuel pos0 =
     ('(params, p) <- parseParams types buf fuel q ;;
      p <- consumeTok buf p "{" ;;
      '(statements, p) <- parseStatements ops types buf fuel [] p ;;
      p <- consumeTok buf p "}" ;;
      Ok (mkClause w params statements, p))) /\
  parseParamsType types buf fuel pos =
    ('(names, p) <- parseNamesLoop buf fuel [w] q ;;
     p <- consumeTok buf p ":" ;;
     '(typ, p) <- consumeIdentifier buf p ;;
     tdesc <- lookupType types buf p typ ;;
     Ok (map (fun name => mkParam name tdesc) names, p)) /\
  (forall pos0 names,
     consumeTok buf pos0 "," = Ok pos ->
     parseNamesLoop buf (S fuel) names pos0
       = parseNamesLoop buf fuel (names ++ [w]) q) /\
  (forall pos0 firstName p1 names p2,
     consumeIdentifier buf pos0 = Ok (firstName, p1) ->
     parseNamesLoop buf fuel [firstName] p1 = Ok (names, p2) ->
     consumeTok buf p2 ":" = Ok pos ->
     parseParamsType types buf fuel pos0 =
     match types w with
     | Some tdesc => Ok (map (fun name => mkParam name tdesc) names, q)
     | None => Panic (parseErr buf q "unknown type %s" [w])
     end) /\
  (forall pos0,
     consumeKeyword buf pos0 "define" = Ok pos ->
     parseDefineStmt ops types buf fuel pos0 =
     (p <- consumeTok buf q ":" ;;
      '(variableType, p) <- consumeIdentifier buf p ;;
      tdesc <- lookupType types buf p variableType ;;
      if peekTok buf p "=" then
        p <- consumeTok buf p "=" ;;
        '(e, p) <- parseExpr ops buf fuel p ;;
        Ok (defineStatement (mkParam w tdesc) (Some e), p)
      else Ok (defineStatement (mkParam w tdesc) None, p))) /\
  (forall pos0 p1 name p2,
     consumeKeyword buf pos0 "define" = Ok p1 ->
     consumeIdentifier buf p1 = Ok (name, p2) ->
     consumeTok buf p2 ":" = Ok pos ->
     parseDefineStmt ops types buf fuel pos0 =
     match types w with
     | Some tdesc =>
       if peekTok buf q "=" then
         p <- consumeTok buf q "=" ;;
         '(e, p) <- parseExpr ops buf fuel p ;;
         Ok (defineStatement (mkParam name tdesc) (Some e), p)
       else Ok (defineStatement (mkParam name tdesc) None, q)
     | None => Panic (parseErr buf q "unknown type %s" [w])
     end) /\
  (forall pos0,
     consumeKeyword buf pos0 "assign" = Ok pos ->
     parseAssignStmt ops buf fuel pos0 =
     (p <- consumeTok buf q "=" ;;
      '(e, p) <- parseExpr ops buf fuel p ;;
      Ok (assignStatement (mkParam w EmptyString) e, p))) /\
  parseExpr4 ops buf (S fuel) pos = Ok (varRef w, q) /\
  parseExpr2 ops buf (S (S (S fuel))) pos =
    (if (w =? "true")%string then Ok (booleanLiteral true, q)
     else if (w =? "false")%string then Ok (booleanLiteral false, q)
     else if peekTok buf q "(" then
       '(a, p) <- parseArgs ops buf (S fuel) q ;;
       Ok (callExpr (varRef w) a, p)
     else Ok (varRef w, q)) /\
  (forall keyword,
     scanKeyword buf pos keyword =
     if (w =? keyword)%string then Some q else None) /\
  forallb isIdentifier keywords = true.
Proof.
  intros Hw Hrest Ht q.
  pose proof (scanIdentifier_run buf pos w tail Hw Hrest Ht) as Hs.
  fold q in Hs.
  assert (Hc : consumeIdentifier buf pos = Ok (w, q))
    by (unfold consumeIdentifier; now rewrite Hs).
  assert (H4 : parseExpr4 ops buf (S fuel) pos = Ok (varRef w, q)).
  { rewrite parseExpr4_S.
    unfold isIdentifier in Hw.
    destruct (bytesOf w) as [|c l] eqn:Ew; [discriminate|].
    apply andb_true_iff in Hw as [Hi _].
    cbn [app] in Hrest.
    rewrite (peekTok_char buf pos c (l ++ tail) "(" Hrest).
    rewrite (peekTok_char buf pos c (l ++ tail) "[" Hrest).
    replace (c =? "(") with false by (revert Hi; clear; byte_cases c).
    replace (c =? "[") with false by (revert Hi; clear; byte_cases c).
    now rewrite Hc. }
  split; [assumption|]. split; [assumption|].
  repeat match goal with |- _ /\ _ => split end.
  - intros pos0 Hk. unfold parseContract. rewrite Hk. cbn [bind].
    now rewrite Hc.
  - intros pos0 p1 name p2 params p3 H1 H2 H3 H5.
    unfold parseContract. rewrite H1. cbn [bind]. rewrite H2. cbn [bind].
    rewrite H3. cbn [bind]. rewrite H5. cbn [bind]. now rewrite Hc.
  - intros pos0 p1 name p2 params p3 p4 amount p5 H1 H2 H3 H5 H6 H7.
    unfold parseContract. rewrite H1. cbn [bind]. rewrite H2. cbn [bind].
    rewrite H3. cbn [bind]. rewrite H5. cbn [bind]. rewrite H6. cbn [bind].
    rewrite H7. cbn [bind]. now rewrite Hc.
  - intros pos0 Hk. unfold parseClause. rewrite Hk. cbn [bind].
    now rewrite Hc.
  - unfold parseParamsType. now rewrite Hc.
  - intros pos0 names Hk. rewrite parseNamesLoop_S.
    assert (peekTok buf pos0 "," = true) as ->.
    { unfold consumeTok in Hk. unfold peekTok.
      now destruct (scanTok buf pos0 ","). }
    rewrite Hk. cbn [bind]. now rewrite Hc.
  - intros pos0 firstName p1 names p2 H1 H2 H3.
    unfold parseParamsType. rewrite H1. cbn [bind]. rewrite H2. cbn [bind].
    rewrite H3. cbn [bind]. rewrite Hc. cbn [bind]. unfold lookupType.
    now destruct (types w).
  - intros pos0 Hk. unfold parseDefineStmt. rewrite Hk. cbn [bind].
    now rewrite Hc.
  - intros pos0 p1 name p2 H1 H2 H3.
    unfold parseDefineStmt. rewrite H1. cbn [bind]. rewrite H2. cbn [bind].
    rewrite H3. cbn [bind]. rewrite Hc. cbn [bind]. unfold lookupType.
    now destruct (types w).
  - intros pos0 Hk. unfold parseAssignStmt. rewrite Hk. cbn [bind].
    now rewrite Hc.
  - assumption.
  - rewrite parseExpr2_S, (scanLiteralExpr_identifier buf pos w q Hs).
    destruct (w =? "true")%string; [reflexivity|].
    destruct (w =? "false")%string; [reflexivity|].
    cbn [bind]. rewrite parseExpr3_S, H4. cbn [bind].
    destruct (peekTok buf q "("); reflexivity.
  - intros keyword. unfold scanKeyword. rewrite Hs.
    now destruct (w =? keyword)%string.
  - reflexivity.
Qed.

Lemma identifier_not_reserved_witness :
  let buf := bytesOf "contract lock(else, verify: Integer) locks a of b {
  clause if() { verify lock(true) }
}" in
  let buf2 := bytesOf "contract X(a: lock) locks b of c { }" in
  scanIdentifier buf 8 = Some ("lock"%string, 13) /\
  consumeIdentifier buf 8 = Ok ("lock"%string, 13) /\
  parseContract specBinaryOps specTypes buf 12 0
    = Ok (mkContract "lock"
            [mkParam "else" "Integer"%string;
             mkParam "verify" "Integer"%string]
            [mkClause "if" []
               [verifyStatement
                  (callExpr (varRef "lock") [booleanLiteral true])]]
            (mkValueInfo "a" "b"), 89) /\
  parseParamsType specTypes buf2 3 11
    = Panic (parseErr buf2 18 "unknown type %s" ["lock"%string]) /\
  parseExpr4 specBinaryOps buf 1 75 = Ok (varRef "lock", 79) /\
  parseExpr2 specBinaryOps buf 3 80 = Ok (booleanLiteral true, 84) /\
  (forall keyword,
     scanKeyword buf 8 keyword =
     if ("lock" =? keyword)%string then Some 13 else None).
Proof.
  cbv zeta.
  set (buf := bytesOf "contract lock(else, verify: Integer) locks a of b {
  clause if() { verify lock(true) }
}").
  set (buf2 := bytesOf "contract X(a: lock) locks b of c { }").
  pose proof (identifier_not_reserved specBinaryOps specTypes buf 8
                "lock"%string (skipn 13 buf) 12 eq_refl eq_refl eq_refl) as A.
  pose proof (identifier_not_reserved specBinaryOps specTypes buf 75
                "lock"%string (skipn 79 buf) 0 eq_refl eq_refl eq_refl) as B.
  pose proof (identifier_not_reserved specBinaryOps specTypes buf 80
                "true"%string (skipn 84 buf) 0 eq_refl eq_refl eq_refl) as C.
  pose proof (identifier_not_reserved specBinaryOps specTypes buf2 13
                "lock"%string (skipn 18 buf2) 3 eq_refl eq_refl eq_refl) as D.
  cbv zeta in A, B, C, D.
  destruct A as (A1 & A2 & A3 & _ & _ & _ & _ & _ & _ & _ & _ & _ & _ & _
                 & A15 & _).
  destruct B as (_ & _ & _ & _ & _ & _ & _ & _ & _ & _ & _ & _ & B13 & _).
  destruct C as (_ & _ & _ & _ & _ & _ & _ & _ & _ & _ & _ & _ & _ & C14 & _).
  destruct D as (_ & _ & _ & _ & _ & _ & _ & _ & D9 & _).
  split; [exact A1|]. split; [exact A2|].
  split; [exact (eq_trans (A3 0 eq_refl) eq_refl)|].
  split; [exact (D9 11 "a"%string 12 ["a"%string] 12 eq_refl eq_refl eq_refl)|].
  split; [exact B13|]. split; [exact C14|]. exact A15.
Defined.

(** Keywords in every position of a name: the contract, a parameter,
    the locked amount and asset, a clause, a clause parameter and a
    variable. *)
Example keywords_as_names :
  parse specBinaryOps specTypes noImports
    (bytesOf "contract lock(else: Integer) locks verify of if {
  clause clause(of: Integer) { verify with }
}") 12
  = Ok ([mkContract "lock" [mkParam "else" "Integer"%string]
           [mkClause "clause" [mkParam "of" "Integer"%string]
              [verifyStatement (varRef "with")]]
           (mkValueInfo "verify" "if")], None).
Proof. reflexivity. Qed.

(** ** A run of digits that ends in 0 before the letter x *)

(** The test of [scanIntLiteral] for the prefix of a hexadecimal literal
    is made at every digit of the run, so the literal 10 is declined
    here although it does not start with 0x. *)
Example ten_x_declined :
  scanIntLiteral (bytesOf "10x") 0 = None /\
  scanIntLiteral (bytesOf "10 x") 0 = Some (10%Z, 2).
Proof. split; reflexivity. Qed.

(** ** The fixture *)

(** The fixture contract parses to two clauses of three and of two
    statements.  The bytes the test compares with its golden string are
    the work of the code generator, which lies outside parse.go. *)
Example RepayCollateral_parses :
  parse specBinaryOps specTypes noImports (bytesOf RepayCollateral) 40
  = Ok ([mkContract "RepayCollateral"
           [mkParam "assetRepayed" "Asset"%string;
            mkParam "amountRepayed" "Amount"%string;
            mkParam "RepayBlockHeight" "Integer"%string;
            mkParam "lender" "Program"%string;
            mkParam "borrower" "Program"%string]
           [mkClause "repay" []
              [verifyStatement
                 (callExpr (varRef "below") [varRef "RepayBlockHeight"]);
               lockStatement (varRef "amountRepayed") (varRef "assetRepayed")
                 (varRef "lender");
               lockStatement (varRef "valueAmount") (varRef "valueAsset")
                 (varRef "borrower")];
            mkClause "default" []
              [verifyStatement
                 (callExpr (varRef "above") [varRef "RepayBlockHeight"]);
               lockStatement (varRef "valueAmount") (varRef "valueAsset")
                 (varRef "lender")]]
           (mkValueInfo "valueAmount" "valueAsset")], None).
Proof. vm_compute. reflexivity. Qed.

(** * Further properties of the scanners and of the parser *)

(** ** White space and comments *)

Lemma isSpace_not_slash c l : isSpace c = true -> commentStart c l = false.
Proof. unfold commentStart. byte_cases c. Qed.

(** Inside a comment the loop runs to the first newline, or to the end. *)
Lemma skipLoop_comment l :
  (exists body tl,
     l = body ++ newline :: tl /\ forallb inLine body = true /\
     skipLoop true l = length body + 1 + skipLoop false tl) \/
  (forallb inLine l = true /\ skipLoop true l = length l).
Proof.
  induction l as [|c l IH].
  - right. now split.
  - rewrite skipLoop_true_cons. destruct (c =? newline) eqn:Ec.
    + apply eqb_byte_eq in Ec. subst c. left. exists [], l.
      now repeat split.
    + cbn [negb]. destruct IH as [(body & tl & -> & Hb & E)|[Hb E]].
      * left. exists (c :: body), tl. repeat split.
        -- simpl. unfold inLine at 1. now rewrite Ec.
        -- rewrite E. simpl. lia.
      * right. split; [simpl; unfold inLine at 1; now rewrite Ec|].
        rewrite E. reflexivity.
Qed.

Lemma skipLoop_comment_line body tl :
  forallb inLine body = true ->
  skipLoop true (body ++ newline :: tl) = length body + 1 + skipLoop false tl.
Proof.
  induction body as [|c body IH]; intros H.
  - reflexivity.
  - simpl in H. apply andb_true_iff in H as [Hc H].
    cbn [app]. rewrite skipLoop_true_cons. unfold inLine in Hc.
    rewrite Hc, IH by assumption. simpl. lia.
Qed.

Lemma skipLoop_comment_open body :
  forallb inLine body = true -> skipLoop true body = length body.
Proof.
  induction body as [|c body IH]; intros H.
  - reflexivity.
  - simpl in H. apply andb_true_iff in H as [Hc H].
    rewrite skipLoop_true_cons. unfold inLine in Hc.
    rewrite Hc, IH by assumption. reflexivity.
Qed.

Lemma skipn_length_app {A} (a l : list A) k :
  skipn (length a + k) (a ++ l) = skipn k l.
Proof. now rewrite skipn_add, skipn_app, Nat.sub_diag, skipn_all. Qed.

Lemma skipLoop_blank n : forall l, length l <= n ->
  blank l (skipLoop false l) /\ blankStop (skipn (skipLoop false l) l) = true.
Proof.
  induction n as [|n IH]; intros l Hn.
  - destruct l; [|simpl in Hn; lia]. split; [constructor|reflexivity].
  - destruct l as [|c l]; [split; [constructor|reflexivity]|].
    simpl in Hn. rewrite skipLoop_false_cons.
    destruct (commentStart c l) eqn:Ec.
    + unfold commentStart in Ec. destruct l as [|c' l'];
        [rewrite andb_false_r in Ec; discriminate|].
      apply andb_true_iff in Ec as [E1 E2].
      apply eqb_byte_eq in E1, E2. subst c c'. cbn [tl].
      destruct (skipLoop_comment l') as [(body & tl & -> & Hb & E)|[Hb E]].
      * rewrite E. simpl in Hn. rewrite length_app in Hn. simpl in Hn.
        destruct (IH tl ltac:(lia)) as [B St].
        split.
        -- replace (S (S (length body + 1 + skipLoop false tl)))
             with (3 + length body + skipLoop false tl) by lia.
           now constructor.
        -- cbn [skipn].
           replace (length body + 1 + skipLoop false tl)
             with (length (body ++ [newline]) + skipLoop false tl)
             by (rewrite length_app; simpl; lia).
           change (body ++ newline :: tl) with (body ++ [newline] ++ tl).
           rewrite app_assoc, skipn_add, skipn_app, Nat.sub_diag, skipn_all.
           exact St.
      * rewrite E. split; [now constructor|].
        cbn [skipn]. now rewrite skipn_all.
    + destruct (isSpace c) eqn:Es.
      * destruct (IH l ltac:(lia)) as [B St]. split; [now constructor|exact St].
      * split; [constructor|]. cbn [skipn blankStop]. now rewrite Es, Ec.
Qed.

Lemma blank_skipLoop l k :
  blank l k -> blankStop (skipn k l) = true -> skipLoop false l = k.
Proof.
  induction 1 as [l | c l k Hc B IH | body l k Hb B IH | body Hb]; intros St.
  - destruct l as [|c l]; [reflexivity|].
    cbn [skipn blankStop] in St. apply andb_true_iff in St as [S1 S2].
    apply negb_true_iff in S1, S2.
    rewrite skipLoop_false_cons. now rewrite S2, S1.
  - rewrite skipLoop_false_cons, (isSpace_not_slash c l Hc), Hc.
    f_equal. now apply IH.
  - rewrite skipLoop_false_cons.
    change (commentStart "/" ("/" :: body ++ newline :: l)) with true.
    cbn [tl]. rewrite skipLoop_comment_line by assumption.
    rewrite IH; [lia|].
    rewrite <- St. f_equal.
    rewrite <- (@skipn_length_app byte ("/" :: "/" :: body ++ [newline]) l k).
    f_equal.
    + simpl. rewrite length_app. simpl. lia.
    + simpl. now rewrite <- app_assoc.
  - rewrite skipLoop_false_cons.
    destruct body as [|c body].
    + reflexivity.
    + change (commentStart "/" ("/" :: c :: body)) with true.
      cbn [tl]. now rewrite skipLoop_comment_open.
Qed.

(** X1.  [skipWsAndComments] skips exactly the white space and the line
    comments that begin at the offset: the offset it returns is k bytes
    on if and only if the first k bytes from the offset are white space
    and comments, each comment two slashes, bytes other than the
    newline and the newline, the last one possibly running to the end
    of the buffer instead, and the bytes after them are none, or begin
    with a byte that is neither white space nor the first slash of a
    comment. *)
Theorem skip_exactly_blank buf off k :
  skipWsAndComments buf off = off + k <->
  blank (skipn off buf) k /\ blankStop (skipn (off + k) buf) = true.
Proof.
  unfold skipWsAndComments. rewrite skipn_add. split.
  - intros E. assert (skipLoop false (skipn off buf) = k) as <- by lia.
    apply (skipLoop_blank _ _ (le_n _)).
  - intros [B St]. now rewrite (blank_skipLoop _ _ B St).
Qed.

Lemma skip_exactly_blank_witness :
  skipWsAndComments (bytesOf "x  // to the end") 1 = 1 + 15 /\
  skipWsAndComments [" "; "/"; "/"; "a"; newline; "009"; "b"] 0 = 0 + 6.
Proof.
  split.
  - apply (proj2 (skip_exactly_blank (bytesOf "x  // to the end") 1 15)).
    split; [|reflexivity].
    apply (blank_space " " _ 14 eq_refl).
    apply (blank_space " " _ 13 eq_refl).
    exact (blank_open (bytesOf " to the end") eq_refl).
  - apply (proj2 (skip_exactly_blank
                    [" "; "/"; "/"; "a"; newline; "009"; "b"] 0 6)).
    split; [|reflexivity].
    apply (blank_space " " _ 5 eq_refl).
    apply (blank_comment ["a"] ["009"; "b"] 1 eq_refl).
    apply (blank_space "009" _ 0 eq_refl).
    apply blank_stop.
Defined.

Lemma scanTok_skip buf off tok :
  scanTok buf (skipWsAndComments buf off) tok = scanTok buf off tok.
Proof. unfold scanTok. now rewrite skip_idem. Qed.

(** X2.  The offset [skipWsAndComments] returns is not before the
    offset it is given and not after the end of the buffer, unless the
    given one is; skipping from it skips nothing more; and every
    scanner gives at it the answer it gives at the offset itself. *)
Theorem scanners_skip_first buf off :
  off <= skipWsAndComments buf off <= Nat.max off (length buf) /\
  skipWsAndComments buf (skipWsAndComments buf off)
    = skipWsAndComments buf off /\
  (forall tok,
     scanTok buf (skipWsAndComments buf off) tok = scanTok buf off tok) /\
  scanIdentifier buf (skipWsAndComments buf off) = scanIdentifier buf off /\
  (forall keyword,
     scanKeyword buf (skipWsAndComments buf off) keyword
       = scanKeyword buf off keyword) /\
  scanIntLiteral buf (skipWsAndComments buf off) = scanIntLiteral buf off /\
  scanStrLiteral buf (skipWsAndComments buf off) = scanStrLiteral buf off /\
  scanBytesLiteral buf (skipWsAndComments buf off)
    = scanBytesLiteral buf off /\
  scanBoolLiteral buf (skipWsAndComments buf off) = scanBoolLiteral buf off.
Proof.
  split.
  - split; [apply skip_ge|].
    unfold skipWsAndComments.
    pose proof (skipLoop_le false (skipn off buf)) as L.
    rewrite length_skipn in L. lia.
  - split; [apply skip_idem|].
    split; [intros tok; apply scanTok_skip|].
    split; [apply scanIdentifier_skip|].
    split; [intros k; apply scanKeyword_skip|].
    split; [apply scanIntLiteral_skip|].
    split; [apply scanStrLiteral_skip|].
    split; [apply scanBytesLiteral_skip | apply scanBoolLiteral_skip].
Qed.

(** ** Identifiers and keywords, exactly *)

Lemma bytesOf_stringOf l : bytesOf (stringOf l) = l.
Proof. apply list_ascii_of_string_of_list_ascii. Qed.

Lemma idLoop_false_split l :
  forallb (fun c => isIDChar c false) (firstn (idLoop false l) l) = true /\
  stops (fun c => isIDChar c false) (skipn (idLoop false l) l) = true.
Proof.
  induction l as [|c l [IH1 IH2]]; [now split|].
  cbn [idLoop]. destruct (isIDChar c false) eqn:E.
  - cbn [firstn skipn forallb]. now rewrite E, IH1.
  - cbn [firstn skipn forallb stops]. now rewrite E.
Qed.

(** What the identifier scanner returns is a whole token of the form of
    an identifier. *)
Lemma scanIdentifier_inv buf pos id p :
  scanIdentifier buf pos = Some (id, p) ->
  isIdentifier id = true /\
  (exists tail,
     rest buf pos = bytesOf id ++ tail /\
     stops (fun c => isIDChar c false) tail = true) /\
  p = skipWsAndComments buf pos + String.length id.
Proof.
  unfold scanIdentifier.
  change (skipn (skipWsAndComments buf pos) buf) with (rest buf pos).
  destruct (rest buf pos) as [|c l] eqn:El; [discriminate|].
  cbn [idLoop]. destruct (isIDChar c true) eqn:Ec; [|discriminate].
  cbn [Nat.eqb firstn]. intros [= <- <-].
  destruct (idLoop_false_split l) as [H1 H2].
  pose proof (idLoop_le false l) as L.
  change (String c (stringOf (firstn (idLoop false l) l)))
    with (stringOf (c :: firstn (idLoop false l) l)).
  unfold isIdentifier. rewrite <- length_bytesOf, !bytesOf_stringOf, Ec, H1.
  split; [reflexivity|]. split.
  - exists (skipn (idLoop false l) l). split; [|assumption].
    cbn [app]. now rewrite firstn_skipn.
  - cbn [length]. rewrite length_firstn. f_equal. f_equal. lia.
Qed.

(** X3.  The identifier scanner returns a name and an offset exactly
    when the bytes that remain after white space and comments are that
    name, a token of the form of an identifier, followed by a byte that
    does not extend it or by the end of the buffer, and the offset is
    the one after the name. *)
Theorem scanIdentifier_exact buf pos id p :
  scanIdentifier buf pos = Some (id, p) <->
  isIdentifier id = true /\
  (exists tail,
     rest buf pos = bytesOf id ++ tail /\
     stops (fun c => isIDChar c false) tail = true) /\
  p = skipWsAndComments buf pos + String.length id.
Proof.
  split; [apply scanIdentifier_inv|].
  intros (Hid & (tail & Hr & Ht) & ->).
  now apply (scanIdentifier_run buf pos id tail).
Qed.

(** X4.  Keyword consumption succeeds exactly where the bytes that
    remain are the keyword as a whole token, not followed by a letter,
    a digit or an underscore, and its result is the offset after the
    keyword; where it cannot succeed it panics with the error of the
    expected keyword at the position of the parser, before the white
    space. *)
Theorem consumeKeyword_exact buf pos keyword :
  (forall p,
     consumeKeyword buf pos keyword = Ok p <->
     isIdentifier keyword = true /\
     (exists tail,
        rest buf pos = bytesOf keyword ++ tail /\
        stops (fun c => isIDChar c false) tail = true) /\
     p = skipWsAndComments buf pos + String.length keyword) /\
  ((forall p, consumeKeyword buf pos keyword <> Ok p) ->
   consumeKeyword buf pos keyword
     = Panic (parseErr buf pos "expected keyword %s" [keyword])).
Proof.
  split.
  - intros p. unfold consumeKeyword, scanKeyword, errorf. split.
    + destruct (scanIdentifier buf pos) as [[id q]|] eqn:E; [|discriminate].
      destruct (String.eqb_spec id keyword) as [->|Hne]; cbn [negb];
        [|discriminate].
      intros [= <-]. now apply scanIdentifier_inv.
    + intros (Hid & (tail & H1 & H2) & ->).
      rewrite (scanIdentifier_run buf pos keyword tail Hid H1 H2).
      now rewrite String.eqb_refl.
  - unfold consumeKeyword, errorf.
    destruct (scanKeyword buf pos keyword) as [q|]; [|reflexivity].
    intros H. now elim (H q).
Qed.

Lemma consumeKeyword_exact_witness :
  consumeKeyword (bytesOf "  locks a") 0 "locks" = Ok 7 /\
  consumeKeyword (bytesOf "  locksmith") 0 "locks"
    = Panic (parseErr (bytesOf "  locksmith") 0 "expected keyword %s"
               ["locks"%string]).
Proof.
  split.
  - apply (proj1 (consumeKeyword_exact (bytesOf "  locks a") 0 "locks")).
    split; [reflexivity|]. split; [|reflexivity].
    now exists (bytesOf " a").
  - apply (proj2 (consumeKeyword_exact (bytesOf "  locksmith") 0 "locks")).
    intros p H.
    apply (proj1 (consumeKeyword_exact (bytesOf "  locksmith") 0 "locks")) in H
      as (_ & (tail & H1 & H2) & _).
    injection H1 as <-. discriminate H2.
Defined.

(** ** Integer literals, from the result *)

Lemma digitLoop_inv l : forall n,
  digitLoop l = Some n ->
  forallb isDigit (firstn n l) = true /\
  stops isDigit (skipn n l) = true /\
  hexMark (firstn n l) (skipn n l) = false /\
  n <= length l.
Proof.
  induction l as [|c l IH]; intros n.
  - intros [= <-]. now repeat split.
  - destruct (isDigit c) eqn:Ec.
    + rewrite digitLoop_cons by assumption.
      destruct ((c =? "0") && _) eqn:Ex; [discriminate|].
      destruct (digitLoop l) as [k|]; [|discriminate].
      intros [= <-]. destruct (IH k eq_refl) as (H1 & H2 & H3 & H4).
      cbn [firstn skipn forallb length]. rewrite Ec, H1.
      repeat split; [assumption | | lia].
      destruct (firstn k l) as [|c' d'] eqn:Ef.
      * unfold hexMark. cbn [last].
        destruct k as [|k]; [exact Ex|].
        destruct l; [now rewrite andb_false_r | discriminate].
      * now rewrite hexMark_cons.
    + simpl. rewrite Ec. intros [= <-].
      cbn [firstn skipn forallb stops]. rewrite Ec.
      repeat split. lia.
Qed.

(** X5.  Whatever the integer scanner returns is the value of the text
    it has passed over: the bytes that remain are an optional minus, a
    run of one or more digits that does not end in a 0 before an x or
    X, and a tail that does not extend the run; the value is the one
    the minus and the digits denote, it is a signed 64-bit value, and
    the offset is the one after the last digit. *)
Theorem scanIntLiteral_sound buf pos v p :
  scanIntLiteral buf pos = Some (v, p) ->
  exists neg d tail,
    rest buf pos = signBytes neg ++ d ++ tail /\
    d <> [] /\
    forallb isDigit d = true /\
    stops isDigit tail = true /\
    hexMark d tail = false /\
    v = literalValue neg d /\
    fitsInt64 v = true /\
    p = skipWsAndComments buf pos + length (signBytes neg) + length d.
Proof.
  intros H. pose proof H as H0. revert H0. unfold scanIntLiteral.
  change (skipn (skipWsAndComments buf pos) buf) with (rest buf pos).
  set (l := rest buf pos).
  set (sign := match l with "-" :: _ => 1 | _ => 0 end).
  destruct (digitLoop (skipn sign l)) as [n|] eqn:E; [|discriminate].
  destruct (Nat.ltb_spec 0 n) as [Hn|]; [|discriminate].
  intros _.
  apply digitLoop_inv in E as (H1 & H2 & H3 & H4).
  set (neg := match l with "-" :: _ => true | _ => false end).
  assert (Hl : l = signBytes neg ++ skipn sign l).
  { unfold neg, sign. destruct l as [|c tl]; [reflexivity|].
    clear. byte_cases c. }
  exists neg, (firstn n (skipn sign l)), (skipn n (skipn sign l)).
  assert (Hne : firstn n (skipn sign l) <> []).
  { intros E0. apply (f_equal (@length _)) in E0.
    rewrite length_firstn in E0. simpl in E0. lia. }
  assert (Hr : rest buf pos
               = signBytes neg ++ firstn n (skipn sign l)
                   ++ skipn n (skipn sign l)).
  { rewrite firstn_skipn. exact Hl. }
  pose proof (scanIntLiteral_value buf pos neg _ _ Hr H1 H2 Hne H3) as V.
  rewrite H in V.
  destruct (fitsInt64 (literalValue neg (firstn n (skipn sign l)))) eqn:Ef;
    [|discriminate].
  injection V as -> ->. now repeat split.
Qed.

Lemma scanIntLiteral_sound_witness :
  exists neg d tail,
    rest (bytesOf " -42, 0x") 0 = signBytes neg ++ d ++ tail /\
    d <> [] /\
    forallb isDigit d = true /\
    stops isDigit tail = true /\
    hexMark d tail = false /\
    (- 42)%Z = literalValue neg d /\
    fitsInt64 (- 42) = true /\
    4 = skipWsAndComments (bytesOf " -42, 0x") 0
          + length (signBytes neg) + length d.
Proof. exact (scanIntLiteral_sound (bytesOf " -42, 0x") 0 (- 42) 4 eq_refl). Defined.

(** ** String literals *)

Lemma strLoop_plain q c l acc n :
  (c =? q) = false -> (c =? "\") = false ->
  strLoop q (c :: l) acc n = strLoop q l (acc ++ [c]) (S n).
Proof.
  intros H1 H2. cbn [strLoop]. rewrite H1, H2. now destruct l.
Qed.

Lemma strLoop_escape q c l acc n :
  isQuote q = true -> snd (scanEscape c) = true ->
  strLoop q ("\" :: c :: l) acc n
    = strLoop q l (acc ++ [fst (scanEscape c)]) (S (S n)).
Proof.
  intros Hq Hc. cbn [strLoop].
  replace ("\" =? q) with false by (revert Hq; clear; byte_cases q).
  now rewrite Hc.
Qed.

(** One written byte is read back as the byte. *)
Lemma strLoop_escapeByte q c l acc n :
  isQuote q = true ->
  strLoop q (escapeByte q c ++ l) acc n
    = strLoop q l (acc ++ [c]) (n + length (escapeByte q c)).
Proof.
  intros Hq. unfold escapeByte.
  destruct ((c =? q) || (c =? "\")) eqn:E1.
  { cbn [app length]. rewrite strLoop_escape; [|assumption|].
    - replace (fst (scanEscape c)) with c; [f_equal; lia|].
      apply orb_true_iff in E1 as [E|E]; apply eqb_byte_eq in E; subst c;
        [revert Hq; clear; byte_cases q | reflexivity].
    - apply orb_true_iff in E1 as [E|E]; apply eqb_byte_eq in E; subst c;
        [revert Hq; clear; byte_cases q | reflexivity]. }
  apply orb_false_iff in E1 as [E1 E2].
  repeat match goal with
  | |- context [if c =? ?k then _ else _] =>
    destruct (Ascii.eqb_spec c k) as [->|?];
      [cbn [app length]; rewrite strLoop_escape by (assumption || reflexivity);
       cbn [scanEscape fst]; f_equal; lia|]
  end.
  cbn [app length]. rewrite strLoop_plain by assumption. f_equal. lia.
Qed.

Lemma strLoop_escapeStr q content : forall l acc n,
  isQuote q = true ->
  strLoop q (escapeStr q content ++ l) acc n
    = strLoop q l (acc ++ content) (n + length (escapeStr q content)).
Proof.
  induction content as [|c content IH]; intros l acc n Hq.
  - cbn. rewrite app_nil_r. f_equal. lia.
  - unfold escapeStr. cbn [flat_map]. fold (escapeStr q content).
    rewrite <- app_assoc, strLoop_escapeByte by assumption.
    rewrite IH by assumption. rewrite <- app_assoc, length_app.
    cbn [app]. f_equal. lia.
Qed.

(** A text without the quote never closes the literal. *)
Lemma strLoop_no_quote q n : forall l acc k,
  length l <= n ->
  forallb (fun c => negb (c =? q)) l = true ->
  strLoop q l acc k = None.
Proof.
  induction n as [|n IH]; intros l acc k Hl Hq.
  - destruct l; [reflexivity | simpl in Hl; lia].
  - destruct l as [|c l]; [reflexivity|].
    cbn [forallb] in Hq. apply andb_true_iff in Hq as [Hc Hq].
    apply negb_true_iff in Hc. cbn [strLoop]. rewrite Hc.
    simpl in Hl. destruct l as [|c' l']; [reflexivity|].
    destruct ((c =? "\") && snd (scanEscape c')).
    + apply IH; [simpl in Hl; lia|].
      cbn [forallb] in Hq. now apply andb_true_iff in Hq as [_ Hq].
    + apply IH; [lia | assumption].
Qed.

(** X6.  Every string of bytes can be written as a string literal and
    is read back: between two quotes of the same kind, with the quote
    and the backslash written after a backslash and the bytes 8 to 13
    by their letters, the string scanner returns the string and the
    offset after the closing quote. *)
Theorem string_literal_round_trip buf pos q content tail :
  isQuote q = true ->
  rest buf pos = q :: escapeStr q content ++ q :: tail ->
  scanStrLiteral buf pos
    = Ok (Some (content,
                skipWsAndComments buf pos
                  + (2 + length (escapeStr q content)))).
Proof.
  intros Hq Hr. unfold scanStrLiteral.
  change (skipn (skipWsAndComments buf pos) buf) with (rest buf pos).
  rewrite Hr. unfold isQuote in Hq. rewrite Hq. cbn [negb].
  rewrite strLoop_escapeStr by assumption.
  cbn [strLoop app]. rewrite Ascii.eqb_refl. reflexivity.
Qed.

Lemma string_literal_round_trip_witness :
  scanStrLiteral (bytesOf " 'it\'s\n' ;") 0
    = Ok (Some (["i"; "t"; "'"; "s"; "010"], 10)).
Proof.
  exact (string_literal_round_trip (bytesOf " 'it\'s\n' ;") 0 "'"
           ["i"; "t"; "'"; "s"; "010"] (bytesOf " ;") eq_refl eq_refl).
Defined.

(** X7.  A string literal that is not closed is an error at its
    opening quote: when the bytes after the opening quote do not
    contain that quote, or are the written form of a string, where a
    quote of the string stands after a backslash, the string scanner
    panics with the error of an unterminated string literal, whose
    offset is that of the opening quote. *)
Theorem string_literal_unterminated buf pos q body :
  isQuote q = true ->
  rest buf pos = q :: body ->
  forallb (fun c => negb (c =? q)) body = true \/
  (exists content, body = escapeStr q content) ->
  scanStrLiteral buf pos
    = Panic (parseErr buf (skipWsAndComments buf pos)
               "unterminated string literal" []).
Proof.
  intros Hq Hr Hb. unfold scanStrLiteral.
  change (skipn (skipWsAndComments buf pos) buf) with (rest buf pos).
  rewrite Hr. unfold isQuote in Hq. rewrite Hq. cbn [negb].
  destruct Hb as [Hb|[content ->]].
  - now rewrite (strLoop_no_quote q (length body) body [] 1 (le_n _) Hb).
  - rewrite <- (app_nil_r (escapeStr q content)).
    now rewrite strLoop_escapeStr.
Qed.

Lemma string_literal_unterminated_witness :
  scanStrLiteral (bytesOf " 'abc\'") 0
    = Panic (parseErr (bytesOf " 'abc\'") 1 "unterminated string literal" []) /\
  scanStrLiteral (bytesOf (String dquote "abc'")) 0
    = Panic (parseErr (bytesOf (String dquote "abc'")) 0
               "unterminated string literal" []).
Proof.
  split.
  - exact (string_literal_unterminated (bytesOf " 'abc\'") 0 "'"
             (bytesOf "abc\'") eq_refl eq_refl
             (or_intror (ex_intro _ (bytesOf "abc'") eq_refl))).
  - exact (string_literal_unterminated (bytesOf (String dquote "abc'")) 0 dquote
             (bytesOf "abc'") eq_refl eq_refl (or_introl eq_refl)).
Defined.

(** ** Bytes literals *)

Lemma hexDigitOf_isHexDigit upper c :
  isHexDigit (hexDigitOf upper (N_of_ascii c / 16)) = true /\
  isHexDigit (hexDigitOf upper (N_of_ascii c mod 16)) = true.
Proof. destruct upper; byte_cases c; split; reflexivity. Qed.

Lemma hexDecode_pair upper c :
  hexDecode [hexDigitOf upper (N_of_ascii c / 16);
             hexDigitOf upper (N_of_ascii c mod 16)] = Some [c].
Proof. destruct upper; byte_cases c. Qed.

Lemma hexDecode_cons2 a b l :
  hexDecode (a :: b :: l) =
  match hexDecode [a; b], hexDecode l with
  | Some [c], Some out => Some (c :: out)
  | _, _ => None
  end.
Proof.
  cbn [hexDecode].
  destruct (fromHexChar a); [|reflexivity].
  destruct (fromHexChar b); [|reflexivity].
  now destruct (hexDecode l).
Qed.

Lemma hexEncode_digits upper b :
  forallb isHexDigit (hexEncode upper b) = true /\
  length (hexEncode upper b) = 2 * length b /\
  hexDecode (hexEncode upper b) = Some b.
Proof.
  induction b as [|c b (IH1 & IH2 & IH3)]; [now repeat split|].
  unfold hexEncode. cbn [flat_map app]. fold (hexEncode upper b).
  destruct (hexDigitOf_isHexDigit upper c) as [H1 H2].
  split; [|split].
  - cbn [forallb]. now rewrite H1, H2, IH1.
  - cbn [length]. lia.
  - now rewrite hexDecode_cons2, hexDecode_pair, IH3.
Qed.

(** X8.  Every non-empty string of bytes can be written as a bytes
    literal and is read back: after 0x or 0X, with two hexadecimal
    digits for each byte, in upper or in lower case, followed by two
    bytes or more that do not begin with a hexadecimal digit, or, for
    two bytes and more, by the end of the buffer, the bytes scanner
    returns the string and the offset after the last digit. *)
Theorem bytes_literal_round_trip buf pos x upper b tail :
  rest buf pos = "0" :: x :: hexEncode upper b ++ tail ->
  isX x = true ->
  b <> [] ->
  stops isHexDigit tail = true ->
  length tail <> 1 ->
  (tail = [] -> 2 <= length b) ->
  scanBytesLiteral buf pos
    = Ok (Some (b, skipWsAndComments buf pos + 2 + 2 * length b)).
Proof.
  intros Hr Hx Hb Ht H1 Hnil.
  destruct (hexEncode_digits upper b) as (Hd & Hl & He).
  destruct (scanBytesLiteral_even buf pos x (hexEncode upper b) tail
              Hr Hx Hd Ht) as (decoded & E1 & E2).
  - rewrite Hl. clear. induction (length b) as [|n IH]; [reflexivity|].
    replace (2 * S n) with (S (S (2 * n))) by lia. exact IH.
  - rewrite Hl. destruct b; [congruence|]. cbn [length]. lia.
  - intros E. specialize (Hnil E). rewrite Hl. lia.
  - assumption.
  - rewrite E2, Hl. congruence.
Qed.

Lemma bytes_literal_round_trip_witness :
  scanBytesLiteral (bytesOf "= 0x00ff1a ;") 1
    = Ok (Some (["000"; "255"; "026"], 10)) /\
  scanBytesLiteral (bytesOf "0X00FF1A") 0
    = Ok (Some (["000"; "255"; "026"], 8)).
Proof.
  split.
  - exact (bytes_literal_round_trip (bytesOf "= 0x00ff1a ;") 1 "x" false
             ["000"; "255"; "026"] (bytesOf " ;") eq_refl eq_refl
             ltac:(discriminate) eq_refl ltac:(simpl; discriminate)
             ltac:(discriminate)).
  - exact (bytes_literal_round_trip (bytesOf "0X00FF1A") 0 "X" true
             ["000"; "255"; "026"] [] eq_refl eq_refl
             ltac:(discriminate) eq_refl ltac:(simpl; discriminate)
             ltac:(intros _; simpl; lia)).
Defined.

Lemma hexLoop_inv l : forall n,
  hexLoop l = HexEnd n ->
  forallb isHexDigit (firstn n l) = true /\
  Nat.even n = true /\
  stops isHexDigit (skipn n l) = true /\
  length (skipn n l) <> 1.
Proof.
  induction l as [| a | a b l IH] using pair_induction; intros n.
  - intros [= <-]. now repeat split.
  - discriminate.
  - cbn [hexLoop]. destruct (isHexDigit a) eqn:Ea; cbn [negb].
    + destruct (isHexDigit b) eqn:Eb; cbn [negb]; [|discriminate].
      destruct (hexLoop l) as [|k]; [discriminate|].
      intros [= <-]. destruct (IH k eq_refl) as (H1 & H2 & H3 & H4).
      cbn [firstn skipn forallb]. rewrite Ea, Eb, H1.
      now repeat split.
    + intros [= <-]. cbn [firstn skipn forallb stops]. rewrite Ea.
      repeat split. simpl. lia.
Qed.

(** X9.  Whatever the bytes scanner returns is the decoding of the text
    it has passed over: the bytes that remain are 0x or 0X, an even
    number of hexadecimal digits, two at least, and a tail that does
    not begin with a hexadecimal digit and is not a single byte; the
    bytes returned are what [hex.Decode] makes of the digits, one for
    every two digits, and the offset is the one after the last digit. *)
Theorem scanBytesLiteral_sound buf pos b p :
  scanBytesLiteral buf pos = Ok (Some (b, p)) ->
  exists x d tail,
    rest buf pos = "0" :: x :: d ++ tail /\
    isX x = true /\
    forallb isHexDigit d = true /\
    stops isHexDigit tail = true /\
    length tail <> 1 /\
    hexDecode d = Some b /\
    length d = 2 * length b /\
    b <> [] /\
    p = skipWsAndComments buf pos + 2 + length d.
Proof.
  unfold scanBytesLiteral.
  destruct (length buf <=? skipWsAndComments buf pos + 4)%nat;
    [discriminate|].
  rewrite (rest_skipn buf pos 2).
  change (skipn (skipWsAndComments buf pos) buf) with (rest buf pos).
  destruct (rest buf pos) as [|c0 [|c1 [|c2 [|c3 l]]]]; try discriminate.
  destruct (Ascii.eqb_spec c0 "0") as [->|]; [|discriminate].
  cbn [negb orb].
  destruct (negb (c1 =? "x") && negb (c1 =? "X")) eqn:Ex; [discriminate|].
  destruct (isHexDigit c2) eqn:E2; [|discriminate].
  destruct (isHexDigit c3) eqn:E3; [|discriminate].
  cbn [negb orb].
  destruct (hexLoop l) as [|n] eqn:El; [discriminate|].
  pose proof (hexLoop_le l n El) as Hn.
  apply hexLoop_inv in El as (H1 & H2 & H3 & H4).
  replace (skipWsAndComments buf pos + 4 + n - (skipWsAndComments buf pos + 2))
    with (S (S n)) by lia.
  cbn [skipn firstn].
  destruct (hexDecode (c2 :: c3 :: firstn n l)) as [decoded|] eqn:Ed;
    [|discriminate].
  intros [= <- <-].
  assert (Hd : forallb isHexDigit (c2 :: c3 :: firstn n l) = true)
    by (cbn [forallb]; now rewrite E2, E3, H1).
  destruct (hexDecode_total (c2 :: c3 :: firstn n l) Hd) as (out & Eo & L).
  { cbn [length]. rewrite length_firstn, Nat.min_l by assumption.
    exact H2. }
  rewrite Ed in Eo. injection Eo as <-.
  exists c1, (c2 :: c3 :: firstn n l), (skipn n l).
  repeat split; try assumption.
  - cbn [app]. now rewrite firstn_skipn.
  - unfold isX. destruct (c1 =? "x"), (c1 =? "X"); simpl in *; congruence.
  - symmetry. exact L.
  - intros ->. simpl in L. lia.
  - cbn [length]. rewrite length_firstn, Nat.min_l by assumption. lia.
Qed.

Lemma scanBytesLiteral_sound_witness :
  exists x d tail,
    rest (bytesOf "= 0x00ff1a ;") 1 = "0" :: x :: d ++ tail /\
    isX x = true /\
    forallb isHexDigit d = true /\
    stops isHexDigit tail = true /\
    length tail <> 1 /\
    hexDecode d = Some ["000"; "255"; "026"] /\
    length d = 2 * 3 /\
    ["000"; "255"; "026"] <> [] /\
    10 = skipWsAndComments (bytesOf "= 0x00ff1a ;") 1 + 2 + length d.
Proof.
  exact (scanBytesLiteral_sound (bytesOf "= 0x00ff1a ;") 1
           ["000"; "255"; "026"] 10 eq_refl).
Defined.

(** ** Tokens and operators *)

Lemma pickLonger_longest buf start seen found op :
  longestAt buf start seen found ->
  longestAt buf start (seen ++ [op]) (pickLonger buf start found op).
Proof.
  intros H. unfold pickLonger.
  destruct (scanTok buf start (binaryOp_op op)) as [q|] eqn:E.
  - destruct found as [[f p]|].
    + destruct H as (H1 & H2 & H3).
      destruct (Nat.ltb_spec (String.length (binaryOp_op f))
                  (String.length (binaryOp_op op))) as [Hlt|Hge].
      * split; [apply in_or_app; right; now left|].
        split; [assumption|].
        intros op' Hin Hs. apply in_app_or in Hin as [Hin|[<-|[]]];
          [|lia]. specialize (H3 op' Hin Hs). lia.
      * split; [apply in_or_app; now left|]. split; [assumption|].
        intros op' Hin Hs. apply in_app_or in Hin as [Hin|[<-|[]]];
          [now apply H3 | assumption].
    + split; [apply in_or_app; right; now left|].
      split; [assumption|].
      intros op' Hin Hs. apply in_app_or in Hin as [Hin|[<-|[]]];
        [|lia]. now elim Hs; apply H.
  - destruct found as [[f p]|].
    + destruct H as (H1 & H2 & H3).
      split; [apply in_or_app; now left|]. split; [assumption|].
      intros op' Hin Hs. apply in_app_or in Hin as [Hin|[<-|[]]];
        [now apply H3 | congruence].
    + intros op' Hin. apply in_app_or in Hin as [Hin|[<-|[]]];
        [now apply H | assumption].
Qed.

Lemma fold_pickLonger_longest buf start ops : forall seen found,
  longestAt buf start seen found ->
  longestAt buf start (seen ++ ops)
    (fold_left (pickLonger buf start) ops found).
Proof.
  induction ops as [|op ops IH]; intros seen found H.
  - now rewrite app_nil_r.
  - cbn [fold_left].
    change (op :: ops) with ([op] ++ ops). rewrite app_assoc.
    apply IH. now apply pickLonger_longest.
Qed.

(** X10.  The scanner of binary operators returns the longest operator
    of the table whose token the bytes that remain begin with: the
    operator it returns is in the table, its token is a prefix of those
    bytes, the offset is the one after the token, and no operator of
    the table whose token is a prefix there has a longer token; it
    returns none exactly when no token of the table is a prefix
    there. *)
Theorem scanBinaryOp_longest_match ops buf pos :
  match scanBinaryOp ops buf pos with
  | Some (op, p) =>
    In op ops /\
    hasPrefix (rest buf pos) (bytesOf (binaryOp_op op)) = true /\
    p = skipWsAndComments buf pos + String.length (binaryOp_op op) /\
    forall op', In op' ops ->
      hasPrefix (rest buf pos) (bytesOf (binaryOp_op op')) = true ->
      String.length (binaryOp_op op') <= String.length (binaryOp_op op)
  | None =>
    forall op', In op' ops ->
      hasPrefix (rest buf pos) (bytesOf (binaryOp_op op')) = false
  end.
Proof.
  unfold scanBinaryOp.
  pose proof (fold_pickLonger_longest buf (skipWsAndComments buf pos) ops
                [] None (fun _ H => match H with end)) as L.
  cbn [app] in L.
  assert (T : forall tok,
            scanTok buf (skipWsAndComments buf pos) tok =
            if hasPrefix (rest buf pos) (bytesOf tok)
            then Some (skipWsAndComments buf pos + String.length tok)
            else None).
  { intros tok. rewrite scanTok_skip. unfold scanTok.
    change (skipn (skipWsAndComments buf pos) buf) with (rest buf pos).
    now rewrite length_bytesOf. }
  destruct (fold_left _ ops None) as [[op p]|]; unfold longestAt in L.
  - destruct L as (H1 & H2 & H3). rewrite T in H2.
    destruct (hasPrefix (rest buf pos) (bytesOf (binaryOp_op op))) eqn:E;
      [|discriminate].
    injection H2 as <-. repeat split; try assumption.
    intros op' Hin Hp. apply H3; [assumption|]. now rewrite T, Hp.
  - intros op' Hin. specialize (L op' Hin). rewrite T in L.
    now destruct (hasPrefix _ _).
Qed.

(** ** Every fuel *)

(** What holds of the answers given with enough fuel holds of every
    answer, and without an answer the fuel was less than enough. *)
Lemma okR_any_fuel {A} buf (P : A -> Prop) (f : nat -> result A) bound :
  (forall n m, n <= m -> le_result (f n) (f m)) ->
  (forall fuel, bound <= fuel -> okR buf P (f fuel)) ->
  forall fuel,
    match f fuel with
    | OutOfFuel => fuel < bound
    | r => okR buf P r
    end.
Proof.
  intros Hm Hok fuel.
  destruct (Nat.le_gt_cases bound fuel) as [Hle|Hlt].
  - specialize (Hok fuel Hle). now destruct (f fuel).
  - specialize (Hm fuel bound ltac:(lia)). specialize (Hok bound (le_n _)).
    unfold le_result in Hm.
    destruct (f fuel) eqn:E; try assumption;
      rewrite Hm in Hok by discriminate; exact Hok.
Qed.

(** X11.  With any fuel, the parse of an expression at a position of
    the buffer, if it returns an expression, has consumed at least one
    byte and ends inside the buffer; if it panics, the error names the
    buffer and an offset inside it, never the offset -1 of the error of
    an expected expression; and it runs out of fuel only when the fuel
    is less than ten units for each byte that remains and seven
    more. *)
Theorem parseExpr_advances ops buf fuel pos :
  pos <= length buf ->
  match parseExpr ops buf fuel pos with
  | Ok (_, p) => pos < p <= length buf
  | Panic e => errBuf e = buf /\ (0 <= offset e <= Z.of_nat (length buf))%Z
  | OutOfFuel => fuel < 10 * (length buf - pos) + 7
  end.
Proof.
  intros Hp.
  pose proof (okR_any_fuel buf (fun a => pos < snd a <= length buf)
                (fun fuel => parseExpr ops buf fuel pos)
                (10 * (length buf - pos) + 7)) as H.
  cbv beta in H.
  specialize (H (fun n m Hnm => proj1 (expr_mono ops buf n m Hnm) pos)).
  specialize (H (fun fuel Hf =>
                   parseExpr_ok ops buf fuel pos Hp ltac:(lia) Hf) fuel).
  destruct (parseExpr ops buf fuel pos) as [[e p]|e|]; exact H.
Qed.

Lemma parseExpr_advances_witness :
  (0 < 9 <= 9) /\
  (errBuf (parseErr (bytesOf "a + ") 3 "expected identifier" [])
     = bytesOf "a + " /\
   (0 <= 3 <= 4)%Z) /\
  3 < 10 * (9 - 0) + 7.
Proof.
  split; [|split].
  - exact (parseExpr_advances specBinaryOps (bytesOf "a + b * c") 20 0
             (Nat.le_0_l _)).
  - exact (parseExpr_advances specBinaryOps (bytesOf "a + ") 20 0
             (Nat.le_0_l _)).
  - exact (parseExpr_advances specBinaryOps (bytesOf "a + b * c") 3 0
             (Nat.le_0_l _)).
Defined.

(** X12.  With any fuel, [parseExprCont] never returns its nil
    expression with the offset -1: it returns an expression and a
    position that is not before the one it was called at and is inside
    the buffer, and that is after it when a binary operator of at least
    the minimal precedence is scanned there; or it panics with an error
    of the parser. *)
Theorem parseExprCont_never_nil ops buf fuel lhs minPrecedence pos :
  pos <= length buf ->
  match parseExprCont ops buf fuel lhs minPrecedence pos with
  | Ok (Some (_, p)) =>
    pos <= p <= length buf /\
    (forall op q, scanBinaryOp ops buf pos = Some (op, q) ->
       (minPrecedence <= precedence op)%Z -> pos < p)
  | Ok None => False
  | Panic e => errBuf e = buf /\ (0 <= offset e <= Z.of_nat (length buf))%Z
  | OutOfFuel => fuel < 10 * (length buf - pos) + 5
  end.
Proof.
  intros Hp.
  destruct (expr_total ops buf (S (length buf))) as (_ & _ & C & _).
  pose proof (okR_any_fuel buf _
                (fun fuel => parseExprCont ops buf fuel lhs minPrecedence pos)
                (10 * (length buf - pos) + 5)
                (fun n m Hnm =>
                   proj1 (proj2 (proj2 (expr_mono ops buf n m Hnm)))
                     lhs minPrecedence pos)
                (fun fuel Hf =>
                   C fuel lhs minPrecedence pos Hp ltac:(lia) Hf) fuel) as H.
  cbv beta in H.
  destruct (parseExprCont ops buf fuel lhs minPrecedence pos)
    as [[[e p]|]|e|]; exact H.
Qed.

Lemma parseExprCont_never_nil_witness :
  (1 <= 5 <= 5 /\
   forall op q,
     scanBinaryOp specBinaryOps (bytesOf "a + b") 1 = Some (op, q) ->
     (0 <= precedence op)%Z -> 1 < 5) /\
  (1 <= 1 <= 5 /\
   forall op q,
     scanBinaryOp specBinaryOps (bytesOf "a + b") 1 = Some (op, q) ->
     (7 <= precedence op)%Z -> 1 < 1).
Proof.
  split.
  - exact (parseExprCont_never_nil specBinaryOps (bytesOf "a + b") 20
             (varRef "a") 0 1 ltac:(simpl; lia)).
  - exact (parseExprCont_never_nil specBinaryOps (bytesOf "a + b") 20
             (varRef "a") 7 1 ltac:(simpl; lia)).
Defined.

Lemma advances_any_fuel {A} buf pos need (f : nat -> result (A * nat)) :
  (forall n m, n <= m -> le_result (f n) (f m)) ->
  (forall fuel, 10 * (length buf - pos) + need <= fuel ->
     okR buf (fun a => pos < snd a <= length buf) (f fuel)) ->
  forall fuel, advances buf pos fuel need (f fuel).
Proof.
  intros Hm Hok fuel.
  pose proof (okR_any_fuel buf _ f _ Hm Hok fuel) as H.
  unfold advances. now destruct (f fuel).
Qed.

(** X13.  With any fuel, the parse of a statement, of a group of
    parameters with their type, of a list of parameters, of a clause
    and of a contract at a position of the buffer either ends after
    that position and inside the buffer, or panics with an error that
    names the buffer and an offset inside it, or has run out of a fuel
    that was less than ten units for each byte that remains and one or
    two more. *)
Theorem nonterminals_advance ops types buf fuel pos :
  pos <= length buf ->
  advances buf pos fuel 2 (parseStatement ops types buf fuel pos) /\
  advances buf pos fuel 1 (parseParamsType types buf fuel pos) /\
  advances buf pos fuel 1 (parseParams types buf fuel pos) /\
  advances buf pos fuel 1 (parseClause ops types buf fuel pos) /\
  advances buf pos fuel 1 (parseContract ops types buf fuel pos).
Proof.
  intros Hp. repeat split.
  - apply (advances_any_fuel buf pos 2
             (fun fuel => parseStatement ops types buf fuel pos)).
    + intros n m Hnm.
      apply (proj1 (proj2 (stmt_mono ops types buf n m Hnm))).
    + intros f Hf.
      apply (proj1 (proj2 (stmt_total ops types buf (S (length buf)))));
        [assumption | lia | assumption].
  - apply (advances_any_fuel buf pos 1
             (fun fuel => parseParamsType types buf fuel pos)).
    + intros n m Hnm. now apply parseParamsType_mono.
    + intros f Hf. now apply parseParamsType_ok.
  - apply (advances_any_fuel buf pos 1
             (fun fuel => parseParams types buf fuel pos)).
    + intros n m Hnm. now apply parseParams_mono.
    + intros f Hf. now apply parseParams_ok.
  - apply (advances_any_fuel buf pos 1
             (fun fuel => parseClause ops types buf fuel pos)).
    + intros n m Hnm. now apply parseClause_mono.
    + intros f Hf. now apply parseClause_ok.
  - apply (advances_any_fuel buf pos 1
             (fun fuel => parseContract ops types buf fuel pos)).
    + intros n m Hnm. now apply parseContract_mono.
    + intros f Hf. now apply parseContract_ok.
Qed.

Lemma nonterminals_advance_witness :
  let buf := bytesOf "contract X(a, b: Hash) locks v of w {
  clause c(n: Integer) { verify n > 1 }
}" in
  advances buf 63 40 2 (parseStatement specBinaryOps specTypes buf 40 63) /\
  advances buf 11 40 1 (parseParamsType specTypes buf 40 11) /\
  advances buf 10 40 1 (parseParams specTypes buf 40 10) /\
  advances buf 40 40 1 (parseClause specBinaryOps specTypes buf 40 40) /\
  advances buf 0 40 1 (parseContract specBinaryOps specTypes buf 40 0).
Proof.
  cbv zeta.
  set (buf := bytesOf "contract X(a, b: Hash) locks v of w {
  clause c(n: Integer) { verify n > 1 }
}").
  assert (L : forall n, (n <=? length buf)%nat = true -> n <= length buf)
    by (intros n; apply Nat.leb_le).
  split; [|split; [|split; [|split]]].
  - exact (proj1 (nonterminals_advance specBinaryOps specTypes buf 40 63
                    (L 63 eq_refl))).
  - exact (proj1 (proj2 (nonterminals_advance specBinaryOps specTypes buf 40
                           11 (L 11 eq_refl)))).
  - exact (proj1 (proj2 (proj2 (nonterminals_advance specBinaryOps specTypes
                                  buf 40 10 (L 10 eq_refl))))).
  - exact (proj1 (proj2 (proj2 (proj2
             (nonterminals_advance specBinaryOps specTypes buf 40 40
                (L 40 eq_refl)))))).
  - exact (proj2 (proj2 (proj2 (proj2
             (nonterminals_advance specBinaryOps specTypes buf 40 0
                (L 0 eq_refl)))))).
Defined.

(** ** Where the loops end *)

Lemma bind_Ok_inv {A B} (m : result A) (k : A -> result B) b :
  bind m k = Ok b -> exists a, m = Ok a /\ k a = Ok b.
Proof. destruct m as [a| |]; try discriminate. intros H. now exists a. Qed.

Lemma extends_trans {A} (l : list A) x l' :
  (exists more, l' = (l ++ x) ++ more) -> exists more, l' = l ++ more.
Proof. intros [more ->]. exists (x ++ more). now rewrite app_assoc. Qed.

Lemma peekTok_consumeTok buf p tok :
  peekTok buf p tok = true ->
  consumeTok buf p tok = Ok (skipWsAndComments buf p + String.length tok).
Proof.
  unfold peekTok, consumeTok, scanTok.
  destruct (hasPrefix _ _); [|discriminate].
  now rewrite length_bytesOf.
Qed.

Ltac loop_inv H :=
  repeat match type of H with
  | bind _ _ = Ok _ =>
    let a := fresh "a" in let E := fresh "E" in
    apply bind_Ok_inv in H as (a & E & H)
  | match ?a with (_, _) => _ end = Ok _ => destruct a
  end.

Lemma parseStatements_end ops types buf fuel :
  forall stmts pos l p,
    parseStatements ops types buf fuel stmts pos = Ok (l, p) ->
    peekTok buf p "}" = true /\ exists more, l = stmts ++ more.
Proof.
  induction fuel as [|f IH]; intros stmts pos l p H; [discriminate|].
  rewrite parseStatements_S in H.
  destruct (peekTok buf pos "}") eqn:E.
  - injection H as <- <-. split; [assumption|].
    exists []. now rewrite app_nil_r.
  - loop_inv H. apply IH in H as [H1 H2].
    split; [assumption | now apply extends_trans in H2].
Qed.

Lemma parseClausesLoop_end ops types buf fuel :
  forall clauses pos l p,
    parseClausesLoop ops types buf fuel clauses pos = Ok (l, p) ->
    peekTok buf p "}" = true /\ exists more, l = clauses ++ more.
Proof.
  induction fuel as [|f IH]; intros clauses pos l p H; [discriminate|].
  rewrite parseClausesLoop_S in H.
  destruct (peekTok buf pos "}") eqn:E.
  - injection H as <- <-. split; [assumption|].
    exists []. now rewrite app_nil_r.
  - loop_inv H. apply IH in H as [H1 H2].
    split; [assumption | now apply extends_trans in H2].
Qed.

Lemma parseParamsLoop_end types buf fuel :
  forall first params pos l p,
    parseParamsLoop types buf fuel first params pos = Ok (l, p) ->
    peekTok buf p ")" = true /\ exists more, l = params ++ more.
Proof.
  induction fuel as [|f IH]; intros first params pos l p H; [discriminate|].
  rewrite parseParamsLoop_S in H.
  destruct (peekTok buf pos ")") eqn:E.
  - injection H as <- <-. split; [assumption|].
    exists []. now rewrite app_nil_r.
  - loop_inv H. apply IH in H as [H1 H2].
    split; [assumption | now apply extends_trans in H2].
Qed.

Lemma parseEltsLoop_end ops buf fuel :
  forall close first elts pos l p,
    parseEltsLoop ops buf fuel close first elts pos = Ok (l, p) ->
    peekTok buf p close = true /\ exists more, l = elts ++ more.
Proof.
  induction fuel as [|f IH]; intros close first elts pos l p H;
    [discriminate|].
  rewrite parseEltsLoop_S in H.
  destruct (peekTok buf pos close) eqn:E.
  - injection H as <- <-. split; [assumption|].
    exists []. now rewrite app_nil_r.
  - loop_inv H. apply IH in H as [H1 H2].
    split; [assumption | now apply extends_trans in H2].
Qed.


Lemma parseContractsLoop_end ops types buf fuel :
  forall acc pos l p,
    parseContractsLoop ops types buf fuel acc pos = Ok (l, p) ->
    (peekKeyword buf p =? "contract")%string = false /\
    exists more, l = acc ++ more.
Proof.
  induction fuel as [|f IH]; intros acc pos l p H; [discriminate|].
  rewrite parseContractsLoop_S in H.
  destruct (peekKeyword buf pos =? "contract")%string eqn:E.
  - loop_inv H. apply IH in H as [H1 H2].
    split; [assumption | now apply extends_trans in H2].
  - injection H as <- <-. split; [assumption|].
    exists []. now rewrite app_nil_r.
Qed.

(** X14.  The loops that collect statements, clauses, parameters and
    the elements of a list or of the arguments of a call only append to
    what they are given, and they end only in front of their closing
    token: the consumption of that token, which follows each of the
    loops, succeeds at the position they return. *)
Theorem loops_end_at_their_closer ops types buf fuel :
  (forall stmts pos l p,
     parseStatements ops types buf fuel stmts pos = Ok (l, p) ->
     (exists more, l = stmts ++ more) /\
     consumeTok buf p "}" = Ok (skipWsAndComments buf p + 1)) /\
  (forall clauses pos l p,
     parseClausesLoop ops types buf fuel clauses pos = Ok (l, p) ->
     (exists more, l = clauses ++ more) /\
     consumeTok buf p "}" = Ok (skipWsAndComments buf p + 1)) /\
  (forall first params pos l p,
     parseParamsLoop types buf fuel first params pos = Ok (l, p) ->
     (exists more, l = params ++ more) /\
     consumeTok buf p ")" = Ok (skipWsAndComments buf p + 1)) /\
  (forall close first elts pos l p,
     parseEltsLoop ops buf fuel close first elts pos = Ok (l, p) ->
     (exists more, l = elts ++ more) /\
     consumeTok buf p close
       = Ok (skipWsAndComments buf p + String.length close)).
Proof.
  split; [|split; [|split]].
  - intros stmts pos l p H.
    destruct (parseStatements_end _ _ _ _ _ _ _ _ H) as [H1 H2].
    split; [assumption | now apply (peekTok_consumeTok buf p "}")].
  - intros clauses pos l p H.
    destruct (parseClausesLoop_end _ _ _ _ _ _ _ _ H) as [H1 H2].
    split; [assumption | now apply (peekTok_consumeTok buf p "}")].
  - intros first params pos l p H.
    destruct (parseParamsLoop_end _ _ _ _ _ _ _ _ H) as [H1 H2].
    split; [assumption | now apply (peekTok_consumeTok buf p ")")].
  - intros close first elts pos l p H.
    destruct (parseEltsLoop_end _ _ _ _ _ _ _ _ _ H) as [H1 H2].
    split; [assumption | now apply (peekTok_consumeTok buf p close)].
Qed.

Lemma loops_end_at_their_closer_witness :
  (exists more,
     [verifyStatement (varRef "a"); verifyStatement (varRef "b")]
       = [] ++ more) /\
  consumeTok (bytesOf "{ verify a verify b }") 19 "}" = Ok 21.
Proof.
  exact (proj1 (loops_end_at_their_closer specBinaryOps specTypes
                  (bytesOf "{ verify a verify b }") 20)
           [] 1 [verifyStatement (varRef "a"); verifyStatement (varRef "b")]
           19 eq_refl).
Defined.

(** ** The types of parameters *)









(** ** The entry point, at its edges *)

Lemma scanKeyword_Some_peek buf pos keyword q :
  scanKeyword buf pos keyword = Some q -> peekKeyword buf pos = keyword.
Proof.
  unfold scanKeyword, peekKeyword.
  destruct (scanIdentifier buf pos) as [[id r]|]; [|discriminate].
  destruct (String.eqb_spec id keyword); [congruence | discriminate].
Qed.

(** X16.  Where the import directives are read and the bytes that
    remain do not begin with the word contract as a whole token, as in
    a source that is empty or holds only comments, [parse] returns no
    contract, not those of the imports either, and the error of an
    expected contract at the position after the imports, with any
    fuel. *)
Theorem parse_expects_contract ops types imports buf fuel cs p :
  imports buf 0 = Ok (cs, p) ->
  (forall tail,
     rest buf p = bytesOf "contract" ++ tail ->
     stops (fun c => isIDChar c false) tail = false) ->
  parse ops types imports buf fuel
    = Ok ([], Some (parseErr buf p "expected contract" [])).
Proof.
  intros Hi Hno. unfold parse, parseContracts. rewrite Hi. cbn [bind].
  destruct (scanKeyword buf p "contract") as [q|] eqn:E; [|reflexivity].
  unfold scanKeyword in E.
  destruct (scanIdentifier buf p) as [[id r]|] eqn:Ei; [|discriminate].
  destruct (String.eqb_spec id "contract") as [->|]; [|discriminate].
  apply scanIdentifier_inv in Ei as (_ & (tail & H1 & H2) & _).
  rewrite (Hno tail H1) in H2. discriminate.
Qed.

Lemma parse_expects_contract_witness :
  parse specBinaryOps specTypes noImports (bytesOf "// nothing to compile") 0
    = Ok ([], Some (parseErr (bytesOf "// nothing to compile") 0
                      "expected contract" [])) /\
  parse specBinaryOps specTypes noImports
    (bytesOf "contracts X() locks a of b { }") 3
    = Ok ([], Some (parseErr (bytesOf "contracts X() locks a of b { }") 0
                      "expected contract" [])).
Proof.
  split.
  - apply (parse_expects_contract specBinaryOps specTypes noImports
             (bytesOf "// nothing to compile") 0 [] 0 eq_refl).
    intros tail H. vm_compute in H. discriminate H.
  - apply (parse_expects_contract specBinaryOps specTypes noImports
             (bytesOf "contracts X() locks a of b { }") 3 [] 0 eq_refl).
    intros tail H. vm_compute in H. injection H as <-. reflexivity.
Defined.

(** X17.  When [parse] returns contracts and no error, they are the
    contracts of the import directives, in their order, followed by one
    contract or more of the source itself. *)
Theorem parse_returns_a_contract ops types imports buf fuel cs p contracts :
  imports buf 0 = Ok (cs, p) ->
  parse ops types imports buf fuel = Ok (contracts, None) ->
  exists c more, contracts = cs ++ c :: more.
Proof.
  intros Hi. unfold parse, parseContracts. rewrite Hi. cbn [bind].
  destruct (scanKeyword buf p "contract") as [q|] eqn:E;
    [|discriminate].
  apply scanKeyword_Some_peek in E.
  destruct fuel as [|f]; [discriminate|].
  rewrite parseContractsLoop_S, E. cbn [String.eqb Ascii.eqb Bool.eqb].
  destruct (parseContract ops types buf f p) as [[c p']| |];
    try discriminate.
  cbn [bind].
  destruct (parseContractsLoop ops types buf f (cs ++ [c]) p')
    as [[l q']| |] eqn:El; try discriminate.
  intros [= <-].
  apply parseContractsLoop_end in El as [_ [more ->]].
  exists c, more. now rewrite <- app_assoc.
Qed.

Lemma parse_returns_a_contract_witness :
  exists c more,
    [mkContract "X" [] [] (mkValueInfo "a" "b")] = [] ++ c :: more.
Proof.
  exact (parse_returns_a_contract specBinaryOps specTypes noImports
           (bytesOf "contract X() locks a of b { }") 3 [] 0
           [mkContract "X" [] [] (mkValueInfo "a" "b")] eq_refl eq_refl).
Defined.

(** ** Boolean literals and the kinds of literal *)

Lemma scanBoolLiteral_identifier buf pos b p :
  scanBoolLiteral buf pos = Some (b, p) <->
  scanIdentifier buf pos = Some (boolWord b, p).
Proof.
  unfold scanBoolLiteral. rewrite !scanKeyword_skip. unfold scanKeyword.
  destruct (scanIdentifier buf pos) as [[id q]|] eqn:E.
  - destruct (scanIdentifier_nonempty buf pos _ E) as [-> _].
    destruct (String.eqb_spec id "true") as [->|Ht]; cbn [negb].
    + destruct b; cbn [boolWord]; split; congruence.
    + destruct (String.eqb_spec id "false") as [->|Hf]; cbn [negb];
        destruct b; cbn [boolWord]; split; congruence.
  - destruct (length buf <=? skipWsAndComments buf pos)%nat;
      split; discriminate.
Qed.

(** X18.  The boolean scanner returns a value and an offset exactly
    when the bytes that remain are the word true, or false, as a whole
    token, not followed by a letter, a digit or an underscore, and the
    offset is the one after the word. *)
Theorem scanBoolLiteral_exact buf pos b p :
  scanBoolLiteral buf pos = Some (b, p) <->
  (exists tail,
     rest buf pos = bytesOf (boolWord b) ++ tail /\
     stops (fun c => isIDChar c false) tail = true) /\
  p = skipWsAndComments buf pos + String.length (boolWord b).
Proof.
  rewrite scanBoolLiteral_identifier. split.
  - intros H. now apply scanIdentifier_inv in H as (_ & H1 & H2).
  - intros ((tail & H1 & H2) & ->).
    apply (scanIdentifier_run buf pos (boolWord b) tail);
      [now destruct b | assumption | assumption].
Qed.

Lemma scanIntLiteral_first buf pos r :
  scanIntLiteral buf pos = Some r ->
  exists c l,
    rest buf pos = c :: l /\ (c = "-" \/ isDigit c = true) /\
    (c = "0" -> match l with x :: _ => isX x = false | [] => True end).
Proof.
  unfold scanIntLiteral.
  change (skipn (skipWsAndComments buf pos) buf) with (rest buf pos).
  destruct (rest buf pos) as [|c l]; [discriminate|].
  intros H. exists c, l. split; [reflexivity|].
  destruct (Ascii.eqb_spec c "-") as [->|Hc].
  { split; [now left | discriminate]. }
  assert (E : match c :: l with "-" :: _ => 1 | _ => 0 end = 0).
  { revert Hc. clear. byte_cases c. intros H. now elim H. }
  rewrite E in H. cbn [skipn] in H.
  destruct (isDigit c) eqn:Ed; [|simpl in H; rewrite Ed in H; discriminate].
  split; [now right|]. intros ->.
  rewrite digitLoop_cons in H by assumption.
  destruct l as [|x l']; [exact I|].
  cbn [Ascii.eqb Bool.eqb andb] in H.
  now destruct (isX x).
Qed.

Lemma scanStrLiteral_first buf pos :
  scanStrLiteral buf pos <> Ok None ->
  exists q l, rest buf pos = q :: l /\ isQuote q = true.
Proof.
  unfold scanStrLiteral.
  change (skipn (skipWsAndComments buf pos) buf) with (rest buf pos).
  destruct (rest buf pos) as [|q l]; [congruence|].
  change ((q =? "'") || (q =? dquote)) with (isQuote q).
  destruct (isQuote q) eqn:Eq; [|intros H; now elim H].
  intros _. now exists q, l.
Qed.

Lemma scanBoolLiteral_other buf pos c l :
  rest buf pos = c :: l -> isIDChar c true = false ->
  scanBoolLiteral buf pos = None.
Proof.
  intros Hr Hc. apply scanBoolLiteral_none.
  now apply (scanIdentifier_none buf pos c l).
Qed.

(** X19.  At most one of the four scanners of literals matches, or
    panics, at a position, so the order in which [scanLiteralExpr]
    tries them does not matter: where the integer scanner matches, or
    the string scanner or the bytes scanner does not decline, or the
    boolean scanner matches, the three others decline. *)
Theorem literal_scanners_exclusive buf pos :
  (scanIntLiteral buf pos <> None ->
   scanStrLiteral buf pos = Ok None /\ scanBytesLiteral buf pos = Ok None /\
   scanBoolLiteral buf pos = None) /\
  (scanStrLiteral buf pos <> Ok None ->
   scanIntLiteral buf pos = None /\ scanBytesLiteral buf pos = Ok None /\
   scanBoolLiteral buf pos = None) /\
  (scanBytesLiteral buf pos <> Ok None ->
   scanIntLiteral buf pos = None /\ scanStrLiteral buf pos = Ok None /\
   scanBoolLiteral buf pos = None) /\
  (scanBoolLiteral buf pos <> None ->
   scanIntLiteral buf pos = None /\ scanStrLiteral buf pos = Ok None /\
   scanBytesLiteral buf pos = Ok None).
Proof.
  split; [|split; [|split]].
  - intros H. destruct (scanIntLiteral buf pos) as [r|] eqn:E; [|congruence].
    apply scanIntLiteral_first in E as (c & l & Hr & Hc & Hx).
    split; [|split].
    + apply (scanStrLiteral_none buf pos c l Hr).
      destruct Hc as [->|Hc]; [reflexivity|]. now apply isDigit_facts.
    + apply scanBytesLiteral_other. intros x l' Hr'. rewrite Hr in Hr'.
      injection Hr' as -> ->. now apply Hx.
    + apply (scanBoolLiteral_other buf pos c l Hr).
      destruct Hc as [->|Hc]; [reflexivity|]. now apply isDigit_not_initial.
  - intros H. apply scanStrLiteral_first in H as (q & l & Hr & Hq).
    split; [|split].
    + apply (scanIntLiteral_other buf pos q l Hr);
        revert Hq; clear; byte_cases q.
    + apply scanBytesLiteral_other. intros x l' Hr'. rewrite Hr in Hr'.
      injection Hr' as -> ->. discriminate.
    + apply (scanBoolLiteral_other buf pos q l Hr).
      revert Hq; clear; byte_cases q.
  - intros H. apply scanBytesLiteral_first in H as (x & l & Hr & Hx).
    split; [|split].
    + apply (scanIntLiteral_hexMark buf pos false ["0"] (x :: l));
        [exact Hr | reflexivity | exact Hx].
    + now apply (scanStrLiteral_none buf pos "0" (x :: l) Hr).
    + now apply (scanBoolLiteral_other buf pos "0" (x :: l) Hr).
  - intros H. destruct (scanBoolLiteral buf pos) as [[b p]|] eqn:E;
      [|congruence].
    apply scanBoolLiteral_identifier in E.
    apply scanIdentifier_nonempty in E as (_ & c & l & Hr & Hc).
    split; [|split].
    + apply (scanIntLiteral_other buf pos c l Hr);
        revert Hc; clear; byte_cases c.
    + apply (scanStrLiteral_none buf pos c l Hr).
      revert Hc; clear; byte_cases c.
    + apply scanBytesLiteral_other. intros x l' Hr'. rewrite Hr in Hr'.
      injection Hr' as -> ->. discriminate.
Qed.

(** ** Lines and columns, in order *)

Lemma lineColStep_lt lc c : lexLt lc (lineColStep lc c).
Proof.
  unfold lineColStep, lexLt. destruct (c =? newline); cbn [fst snd]; lia.
Qed.

Lemma lexLt_trans a b c : lexLt a b -> lexLt b c -> lexLt a c.
Proof. unfold lexLt. lia. Qed.

Lemma lineCol_fold_lt l : forall lc c,
  lexLt lc (fold_left lineColStep (c :: l) lc).
Proof.
  induction l as [|c' l IH]; intros lc c.
  - apply lineColStep_lt.
  - cbn [fold_left]. eapply lexLt_trans; [apply lineColStep_lt|].
    apply (IH (lineColStep lc c) c').
Qed.

Lemma firstn_add {A} (l : list A) a b :
  firstn (a + b) l = firstn a l ++ firstn b (skipn a l).
Proof.
  revert l. induction a as [|a IH]; intros l; [reflexivity|].
  destruct l as [|x l]; [now rewrite !firstn_nil|].
  cbn [plus firstn skipn app]. now rewrite IH.
Qed.

(** X20.  The line and column that [parserErr.Error] computes grow with
    the offset: of two offsets inside the buffer, the later one is on a
    later line, or on the same line at a later column, and so two
    different offsets are never reported as the same line and
    column. *)
Theorem lineCol_increasing buf off1 off2 :
  (0 <= off1 < off2)%Z -> (off2 <= Z.of_nat (length buf))%Z ->
  lexLt (lineCol buf off1) (lineCol buf off2) /\
  lineCol buf off1 <> lineCol buf off2.
Proof.
  intros H1 H2.
  assert (L : lexLt (lineCol buf off1) (lineCol buf off2)).
  { unfold lineCol.
    replace (Z.to_nat off2)
      with (Z.to_nat off1 + (Z.to_nat off2 - Z.to_nat off1)) by lia.
    rewrite firstn_add, fold_left_app.
    destruct (firstn (Z.to_nat off2 - Z.to_nat off1)
                (skipn (Z.to_nat off1) buf)) as [|c l] eqn:E.
    - apply (f_equal (@length _)) in E.
      rewrite length_firstn, length_skipn in E. simpl in E. lia.
    - apply lineCol_fold_lt. }
  split; [assumption|]. intros E. rewrite E in L. unfold lexLt in L. lia.
Qed.

Lemma lineCol_increasing_witness :
  lexLt (lineCol ["a"; newline; "b"; "c"; "d"] 1)
        (lineCol ["a"; newline; "b"; "c"; "d"] 4) /\
  lineCol ["a"; newline; "b"; "c"; "d"] 1
    <> lineCol ["a"; newline; "b"; "c"; "d"] 4.
Proof.
  apply (lineCol_increasing ["a"; newline; "b"; "c"; "d"] 1 4);
    [lia | simpl; lia].
Defined.
